(** * golang_lab: the concurrency lesson's worker pool and pipeline, and the
    REST lesson's user handlers

    The goroutines of lesson 08 are embedded as small-step machines: every
    goroutine has a program counter, a channel is a record holding its
    buffer, its closed flag and the history of the operations performed on
    it, and one step is one channel operation (or one local transition of
    the goroutine that is scheduled).  The scheduler is not modelled: the
    theorems quantify over every schedule.

    [demonstrateWorkerPool] fixes [numWorkers := 3] and [numJobs := 9] as
    local variables; the machine below reads them as the parameters [W] and
    [N], and keeps the literal channel capacities of the source;
    [Pool.demonstrateWorkerPool] is the machine at the two counts of the
    source.  What a goroutine does between two channel operations
    ([fmt.Printf], [time.Sleep]) touches no shared state and is part of its
    step: the printed lines are read where a program has stopped, and what
    is stated of every moment of an execution is stated of the channel
    histories.

    The handlers of lesson 10 are functions from the store ([users],
    [nextUserID]) and one request to a response and the new store;
    [json.Unmarshal] and the clock are parameters.

    The counter behind a mutex ([SafeCounter] in [demonstrateSynchronization])
    and the cancelable operation of [demonstrateContext] are machines of the
    same kind: [c.value++] is a load and a store, [sync.Mutex] a flag,
    [sync.WaitGroup] a counter, and the sleeps leave the order of the steps
    to the schedule.  [ContextSteps] takes the cancelable operation one
    statement at a time, the [select] apart from the [Printf] of its
    [default] branch.

    [divide], [sum] and [factorial] of lesson 03 are functions on [int]s;
    the division panic is [None], and [factorial] carries a bound on the
    nesting of its calls. *)

From stdpp Require Import base decidable option list list_numbers numbers gmap strings.

Local Open Scope Z_scope.

(** ** Go's [int] (64 bits, two's complement, silent wrap-around) *)

Module GoInt.

Definition int_min : Z := - 2 ^ 63.
Definition int_max : Z := 2 ^ 63 - 1.

Definition wrap (z : Z) : Z := (z + 2 ^ 63) `mod` 2 ^ 64 - 2 ^ 63.

Definition add (a b : Z) : Z := wrap (a + b).
Definition mul (a b : Z) : Z := wrap (a * b).

Definition in_range (z : Z) : Prop := int_min ≤ z ≤ int_max.

End GoInt.

(** ** Goroutines and channels *)

Inductive goroutine : Type :=
  | Main
  | Worker (i : nat)
  | Generator
  | Squarer.

Global Instance goroutine_eq_dec : EqDecision goroutine.
Proof. solve_decision. Defined.

Inductive chan_op : Type :=
  | OpSend (v : Z)
  | OpRecv (v : Z)
  | OpClose.

Global Instance chan_op_eq_dec : EqDecision chan_op.
Proof. solve_decision. Defined.

(** The result of attempting one step: the step is taken, the goroutine
    cannot move (it is blocked on a channel, or it has returned), or the
    runtime panics (send on a closed channel, close of a closed channel). *)
Inductive outcome (A : Type) : Type :=
  | Next (a : A)
  | Blocked
  | Panic.
Global Arguments Next {A} a.
Global Arguments Blocked {A}.
Global Arguments Panic {A}.

Record chan : Type := Chan {
  chan_cap : nat;
  chan_buf : list Z;
  chan_closed : bool;
  chan_log : list (goroutine * chan_op)
}.

(** [make(chan int, cap)] *)
Definition make_chan (cap : nat) : chan := Chan cap [] false [].

(** [c <- v] by goroutine [g], on a buffered channel *)
Definition chan_send (g : goroutine) (c : chan) (v : Z) : outcome chan :=
  if chan_closed c then Panic
  else if decide (length (chan_buf c) < chan_cap c)%nat
       then Next (Chan (chan_cap c) (chan_buf c ++ [v]) false
                       (chan_log c ++ [(g, OpSend v)]))
       else Blocked.

(** [v, ok := <-c] by goroutine [g]: [Some v] is a value, [None] is the
    closed and drained channel ([ok = false]). *)
Definition chan_recv (g : goroutine) (c : chan) : outcome (option Z * chan) :=
  match chan_buf c with
  | v :: rest =>
      Next (Some v, Chan (chan_cap c) rest (chan_closed c)
                         (chan_log c ++ [(g, OpRecv v)]))
  | [] => if chan_closed c then Next (None, c) else Blocked
  end.

(** [close(c)] by goroutine [g] *)
Definition chan_close (g : goroutine) (c : chan) : outcome chan :=
  if chan_closed c then Panic
  else Next (Chan (chan_cap c) (chan_buf c) true (chan_log c ++ [(g, OpClose)])).

(** [c <- v] by [g] on an unbuffered channel, met by the receive of [r] *)
Definition chan_sync (g r : goroutine) (c : chan) (v : Z) : outcome chan :=
  if chan_closed c then Panic
  else Next (Chan (chan_cap c) (chan_buf c) false
                  (chan_log c ++ [(g, OpSend v); (r, OpRecv v)])).

(** Projections of a channel history. *)
Definition is_write (e : goroutine * chan_op) : bool :=
  match e.2 with OpRecv _ => false | _ => true end.

Definition writes (log : list (goroutine * chan_op)) : list (goroutine * chan_op) :=
  filter (λ e, is_write e = true) log.

Definition enqueued (log : list (goroutine * chan_op)) : list Z :=
  omap (λ e, match e.2 with OpSend v => Some v | _ => None end) log.

Definition dequeued (log : list (goroutine * chan_op)) : list Z :=
  omap (λ e, match e.2 with OpRecv v => Some v | _ => None end) log.

Definition closes (log : list (goroutine * chan_op)) : list goroutine :=
  omap (λ e, match e.2 with OpClose => Some e.1 | _ => None end) log.

(** What a job source does to its channel: it sends the jobs in order,
    then closes the channel. *)
Definition source_script (g : goroutine) (jobs : list Z) : list (goroutine * chan_op) :=
  ((λ v, (g, OpSend v)) <$> jobs) ++ [(g, OpClose)].

Definition sumZ (l : list Z) : Z := foldr Z.add 0 l.

(** ** The worker pool ([demonstrateWorkerPool], [worker]) *)

Module Pool.

(** [results <- job * 2] *)
Definition transform (job : Z) : Z := GoInt.mul job 2.

Definition numWorkers : Z := 3.
Definition numJobs : Z := 9.

(** Program counter of [demonstrateWorkerPool]: the three loops, each with
    its counter, and the [close(jobs)] between the second and the third. *)
Inductive main_pc : Type :=
  | MSpawn (w : Z)
  | MSend (j : Z)
  | MClose
  | MCollect (r : Z)
  | MDone.

(** Program counter of [worker]: at the [range jobs] receive, holding a
    job (printing, sleeping, then sending its double), or returned. *)
Inductive worker_pc : Type :=
  | WRecv
  | WWork (job : Z)
  | WExit.

Global Instance main_pc_eq_dec : EqDecision main_pc.
Proof. solve_decision. Defined.
Global Instance worker_pc_eq_dec : EqDecision worker_pc.
Proof. solve_decision. Defined.

Record pool : Type := MkPool {
  jobs : chan;
  results : chan;
  pc : main_pc;
  workers : list (Z * worker_pc);   (* goroutines started by [go worker(w, ...)]: id and pc *)
  printed : list Z                  (* the "Result: %d" lines, in order *)
}.

Definition pool_init : pool :=
  MkPool (make_chan 100) (make_chan 100) (MSpawn 1) [] [].

Section Machine.
Variables W N : Z.

Definition step_main (s : pool) : outcome pool :=
  match pc s with
  | MSpawn w =>
      if decide (w ≤ W)
      then Next (MkPool (jobs s) (results s) (MSpawn (GoInt.add w 1))
                        (workers s ++ [(w, WRecv)]) (printed s))
      else Next (MkPool (jobs s) (results s) (MSend 1) (workers s) (printed s))
  | MSend j =>
      if decide (j ≤ N)
      then match chan_send Main (jobs s) j with
           | Next c => Next (MkPool c (results s) (MSend (GoInt.add j 1))
                                    (workers s) (printed s))
           | Blocked => Blocked
           | Panic => Panic
           end
      else Next (MkPool (jobs s) (results s) MClose (workers s) (printed s))
  | MClose =>
      match chan_close Main (jobs s) with
      | Next c => Next (MkPool c (results s) (MCollect 1) (workers s) (printed s))
      | Blocked => Blocked
      | Panic => Panic
      end
  | MCollect r =>
      if decide (r ≤ N)
      then match chan_recv Main (results s) with
           | Next (v, c) =>
               Next (MkPool (jobs s) c (MCollect (GoInt.add r 1)) (workers s)
                            (printed s ++ [default 0 v]))
           | Blocked => Blocked
           | Panic => Panic
           end
      else Next (MkPool (jobs s) (results s) MDone (workers s) (printed s))
  | MDone => Blocked
  end.

Definition step_worker (i : nat) (s : pool) : outcome pool :=
  match workers s !! i with
  | None => Blocked
  | Some (id, WRecv) =>
      match chan_recv (Worker i) (jobs s) with
      | Next (Some job, c) =>
          Next (MkPool c (results s) (pc s)
                       (<[i := (id, WWork job)]> (workers s)) (printed s))
      | Next (None, c) =>
          Next (MkPool c (results s) (pc s)
                       (<[i := (id, WExit)]> (workers s)) (printed s))
      | Blocked => Blocked
      | Panic => Panic
      end
  | Some (id, WWork job) =>
      match chan_send (Worker i) (results s) (transform job) with
      | Next c =>
          Next (MkPool (jobs s) c (pc s)
                       (<[i := (id, WRecv)]> (workers s)) (printed s))
      | Blocked => Blocked
      | Panic => Panic
      end
  | Some (id, WExit) => Blocked
  end.

Definition step (g : goroutine) (s : pool) : outcome pool :=
  match g with
  | Main => step_main s
  | Worker i => step_worker i s
  | _ => Blocked
  end.

(** Running a schedule: every scheduled goroutine must be able to move. *)
Fixpoint run (sched : list goroutine) (s : pool) : option pool :=
  match sched with
  | [] => Some s
  | g :: rest =>
      match step g s with
      | Next s' => run rest s'
      | _ => None
      end
  end.

Inductive reachable : pool → Prop :=
  | reach_init : reachable pool_init
  | reach_step s g s' : reachable s → step g s = Next s' → reachable s'.

(** The goroutines of a state, and the first one that can move. *)
Definition goroutines (s : pool) : list goroutine :=
  Main :: (Worker <$> seq 0 (length (workers s))).

Definition enabled (s : pool) (g : goroutine) : bool :=
  match step g s with Next _ => true | _ => false end.

Definition stuck (s : pool) : Prop := ∀ g, enabled s g = false.

Definition stuckb (s : pool) : bool :=
  forallb (λ g, negb (enabled s g)) (goroutines s).

(** A deterministic scheduler: always the first enabled goroutine. *)
Fixpoint run_first (fuel : nat) (s : pool) : pool :=
  match fuel with
  | O => s
  | S fuel' =>
      match list_find (λ g, enabled s g = true) (goroutines s) with
      | Some (_, g) =>
          match step g s with
          | Next s' => run_first fuel' s'
          | _ => s
          end
      | None => s
      end
  end.

End Machine.

(** Quantities the invariants are stated with. *)

(** The jobs in the hands of the workers. *)
Definition held (ws : list (Z * worker_pc)) : list Z :=
  omap (λ w, match w.2 with WWork job => Some job | _ => None end) ws.

(** The workers that have not returned. *)
Definition live (ws : list (Z * worker_pc)) : nat :=
  length (filter (λ w, w.2 ≠ WExit) ws).

Definition all_exited (s : pool) : Prop :=
  Forall (λ w, w.2 = WExit) (workers s).

(** What [Main] has sent on [jobs] when it stands at a program counter. *)
Definition sent (N : Z) (p : main_pc) : list Z :=
  match p with
  | MSpawn _ => []
  | MSend j => seqZ 1 (j - 1)
  | _ => seqZ 1 N
  end.

(** The steps [Main] still has to take, weighted so that every step of
    every goroutine lowers [measure]. *)
Definition main_left (W N : Z) (p : main_pc) : nat :=
  match p with
  | MSpawn w => 2 * Z.to_nat (W + 1 - w) + 4 * Z.to_nat N + 5
  | MSend j => 3 * Z.to_nat (N + 1 - j) + Z.to_nat N + 4
  | MClose => Z.to_nat N + 3
  | MCollect r => Z.to_nat (N + 1 - r) + 1
  | MDone => 0
  end%nat.

Definition measure (W N : Z) (s : pool) : nat :=
  (main_left W N (pc s) + 2 * length (chan_buf (jobs s))
   + length (held (workers s)) + live (workers s))%nat.

(** The invariant of the pool, for [W] workers and [N] jobs. *)
Record Inv (W N : Z) (s : pool) : Prop := MkInv {
  inv_cap_jobs : chan_cap (jobs s) = 100%nat;
  inv_cap_results : chan_cap (results s) = 100%nat;
  inv_len_jobs : (length (chan_buf (jobs s)) ≤ 100)%nat;
  inv_len_results : (length (chan_buf (results s)) ≤ 100)%nat;
  inv_results_open : chan_closed (results s) = false;
  inv_results_log : closes (chan_log (results s)) = [];
  (* only [Main] writes to [jobs]: the sends in order, then the close *)
  inv_writes :
    writes (chan_log (jobs s))
    = ((λ v, (Main, OpSend v)) <$> sent N (pc s))
      ++ (if chan_closed (jobs s) then [(Main, OpClose)] else []);
  (* [jobs] is a queue: what was received, then what is buffered, is what was sent *)
  inv_fifo : dequeued (chan_log (jobs s)) ++ chan_buf (jobs s) = sent N (pc s);
  (* every received job is held, or its double is buffered or printed *)
  inv_flow :
    transform <$> dequeued (chan_log (jobs s))
    ≡ₚ (transform <$> held (workers s)) ++ chan_buf (results s) ++ printed s;
  (* a worker returns only from the closed and drained channel *)
  inv_exit :
    Forall (λ w, w.2 = WExit →
                 chan_closed (jobs s) = true ∧ chan_buf (jobs s) = []) (workers s);
  inv_pc :
    match pc s with
    | MSpawn w =>
        1 ≤ w ∧ w ≤ Z.max W 0 + 1 ∧ Z.of_nat (length (workers s)) = w - 1
        ∧ chan_closed (jobs s) = false ∧ printed s = []
    | MSend j =>
        1 ≤ j ∧ j ≤ Z.max N 0 + 1 ∧ Z.of_nat (length (workers s)) = Z.max W 0
        ∧ chan_closed (jobs s) = false ∧ printed s = []
    | MClose =>
        Z.of_nat (length (workers s)) = Z.max W 0
        ∧ chan_closed (jobs s) = false ∧ printed s = []
    | MCollect r =>
        1 ≤ r ∧ r ≤ Z.max N 0 + 1 ∧ Z.of_nat (length (workers s)) = Z.max W 0
        ∧ chan_closed (jobs s) = true ∧ Z.of_nat (length (printed s)) = r - 1
    | MDone =>
        Z.of_nat (length (workers s)) = Z.max W 0
        ∧ chan_closed (jobs s) = true ∧ Z.of_nat (length (printed s)) = Z.max N 0
    end
}.


(** [demonstrateWorkerPool] as written: 3 workers, 9 jobs. *)
Definition demonstrateWorkerPool (sched : list goroutine) : option pool :=
  run numWorkers numJobs sched pool_init.

(** Two schedules of [demonstrateWorkerPool].  In the first, [Main] sends
    and closes before any worker moves and the first worker takes every job;
    in the second the three workers race for the jobs. *)
Definition fifo_schedule : list goroutine :=
  replicate 15 Main ++ mjoin (replicate 9 [Worker 0; Worker 0])
  ++ replicate 10 Main ++ [Worker 0; Worker 1; Worker 2].

Definition racing_schedule : list goroutine :=
  replicate 4 Main
  ++ [Main; Worker 2; Main; Worker 1; Main; Worker 0; Worker 0; Worker 1; Worker 2]
  ++ replicate 11 Main
  ++ [Worker 0; Worker 1; Worker 2; Worker 2; Worker 1; Worker 0]
  ++ replicate 3 Main
  ++ [Worker 1; Worker 1; Worker 1; Worker 1; Worker 1; Worker 1]
  ++ replicate 4 Main
  ++ [Worker 2; Worker 0; Worker 1].

End Pool.


(** ** The pipeline ([generateNumbers], [squareNumbers], [printNumbers]) *)

Module Pipeline.

(** The goroutine of [generateNumbers]: at the head of its loop with the
    counter [i], or returned (the deferred [close(ch)] has run). *)
Inductive gen_pc : Type :=
  | GLoop (i : Z)
  | GDone.

(** The goroutine of [squareNumbers]: at the [range input] receive, holding
    [num] and about to send [num * num], or returned. *)
Inductive sq_pc : Type :=
  | SRecv
  | SSend (num : Z)
  | SDone.

(** [printNumbers], run by the caller: at the [range input] receive, or
    returned. *)
Inductive print_pc : Type :=
  | PRecv
  | PDone.

Global Instance gen_pc_eq_dec : EqDecision gen_pc.
Proof. solve_decision. Defined.
Global Instance sq_pc_eq_dec : EqDecision sq_pc.
Proof. solve_decision. Defined.
Global Instance print_pc_eq_dec : EqDecision print_pc.
Proof. solve_decision. Defined.

Record pipeline : Type := MkPipeline {
  numbers : chan;
  squares : chan;
  gen : gen_pc;
  sq : sq_pc;
  prn : print_pc;
  out : list Z          (* the "Pipeline result: %d" lines, in order *)
}.

(** Both channels are unbuffered: [make(chan int)]. *)
Definition pipeline_init : pipeline :=
  MkPipeline (make_chan 0) (make_chan 0) (GLoop 1) SRecv PRecv [].

Section Machine.
Variable count : Z.

(** [for i := 1; i <= count; i++ { ch <- i }], then the deferred close.  A
    send on the unbuffered channel needs the squarer at its receive. *)
Definition step_generator (s : pipeline) : outcome pipeline :=
  match gen s with
  | GLoop i =>
      if decide (i ≤ count)
      then match sq s with
           | SRecv =>
               match chan_sync Generator Squarer (numbers s) i with
               | Next c => Next (MkPipeline c (squares s) (GLoop (GoInt.add i 1))
                                            (SSend i) (prn s) (out s))
               | Blocked => Blocked
               | Panic => Panic
               end
           | _ => Blocked
           end
      else match chan_close Generator (numbers s) with
           | Next c => Next (MkPipeline c (squares s) GDone (sq s) (prn s) (out s))
           | Blocked => Blocked
           | Panic => Panic
           end
  | GDone => Blocked
  end.

(** [for num := range input { ch <- num * num }], then the deferred close.
    A value arrives through the generator's send; the receive below only
    sees the closed channel.  The send needs the printer at its receive,
    which prints the value before it receives again. *)
Definition step_squarer (s : pipeline) : outcome pipeline :=
  match sq s with
  | SRecv =>
      match chan_recv Squarer (numbers s) with
      | Next (Some num, c) =>
          Next (MkPipeline c (squares s) (gen s) (SSend num) (prn s) (out s))
      | Next (None, c) =>
          match chan_close Squarer (squares s) with
          | Next c' => Next (MkPipeline c c' (gen s) SDone (prn s) (out s))
          | Blocked => Blocked
          | Panic => Panic
          end
      | Blocked => Blocked
      | Panic => Panic
      end
  | SSend num =>
      match prn s with
      | PRecv =>
          match chan_sync Squarer Main (squares s) (GoInt.mul num num) with
          | Next c => Next (MkPipeline (numbers s) c (gen s) SRecv PRecv
                                       (out s ++ [GoInt.mul num num]))
          | Blocked => Blocked
          | Panic => Panic
          end
      | PDone => Blocked
      end
  | SDone => Blocked
  end.

(** [for num := range input { fmt.Printf(...) }] *)
Definition step_printer (s : pipeline) : outcome pipeline :=
  match prn s with
  | PRecv =>
      match chan_recv Main (squares s) with
      | Next (Some v, c) =>
          Next (MkPipeline (numbers s) c (gen s) (sq s) PRecv (out s ++ [v]))
      | Next (None, c) =>
          Next (MkPipeline (numbers s) c (gen s) (sq s) PDone (out s))
      | Blocked => Blocked
      | Panic => Panic
      end
  | PDone => Blocked
  end.

Definition step (g : goroutine) (s : pipeline) : outcome pipeline :=
  match g with
  | Generator => step_generator s
  | Squarer => step_squarer s
  | Main => step_printer s
  | Worker _ => Blocked
  end.

Fixpoint run (sched : list goroutine) (s : pipeline) : option pipeline :=
  match sched with
  | [] => Some s
  | g :: rest =>
      match step g s with
      | Next s' => run rest s'
      | _ => None
      end
  end.

Inductive reachable : pipeline → Prop :=
  | reach_init : reachable pipeline_init
  | reach_step s g s' : reachable s → step g s = Next s' → reachable s'.

Definition goroutines : list goroutine := [Generator; Squarer; Main].

Definition enabled (s : pipeline) (g : goroutine) : bool :=
  match step g s with Next _ => true | _ => false end.

Definition stuck (s : pipeline) : Prop := ∀ g, enabled s g = false.

Fixpoint run_first (fuel : nat) (s : pipeline) : pipeline :=
  match fuel with
  | O => s
  | S fuel' =>
      match list_find (λ g, enabled s g = true) goroutines with
      | Some (_, g) =>
          match step g s with
          | Next s' => run_first fuel' s'
          | _ => s
          end
      | None => s
      end
  end.

End Machine.

(** What the generator has sent when it stands at a program counter. *)
Definition generated (count : Z) (p : gen_pc) : list Z :=
  match p with
  | GLoop i => seqZ 1 (i - 1)
  | GDone => seqZ 1 count
  end.

(** The number the squarer holds, if any. *)
Definition in_hand (p : sq_pc) : list Z :=
  match p with
  | SSend num => [num]
  | _ => []
  end.

Definition measure (count : Z) (s : pipeline) : nat :=
  (match gen s with GLoop i => 3 * Z.to_nat (count + 1 - i) + 1 | GDone => 0 end
   + match sq s with SRecv => 1 | SSend _ => 2 | SDone => 0 end
   + match prn s with PRecv => 1 | PDone => 0 end)%nat.

(** The squaring of [squareNumbers]: [num * num] on [int]. *)
Definition square (num : Z) : Z := GoInt.mul num num.

(** The invariant of the pipeline on [count] numbers. *)
Record Inv (count : Z) (s : pipeline) : Prop := MkInv {
  inv_unbuffered : chan_buf (numbers s) = [] ∧ chan_buf (squares s) = [];
  (* only the generator writes to [numbers]: the sends in order, then the close *)
  inv_numbers_writes :
    writes (chan_log (numbers s))
    = ((λ v, (Generator, OpSend v)) <$> generated count (gen s))
      ++ (if chan_closed (numbers s) then [(Generator, OpClose)] else []);
  inv_numbers_reads : dequeued (chan_log (numbers s)) = generated count (gen s);
  inv_squares_writes :
    writes (chan_log (squares s))
    = ((λ v, (Squarer, OpSend v)) <$> out s)
      ++ (if chan_closed (squares s) then [(Squarer, OpClose)] else []);
  inv_squares_reads : dequeued (chan_log (squares s)) = out s;
  (* the squares come out in the order the numbers went in *)
  inv_out :
    out s ++ (square <$> in_hand (sq s)) = square <$> generated count (gen s);
  inv_gen :
    match gen s with
    | GLoop i => 1 ≤ i ∧ i ≤ Z.max count 0 + 1 ∧ chan_closed (numbers s) = false
    | GDone => chan_closed (numbers s) = true
    end;
  inv_sq :
    match sq s with
    | SDone => chan_closed (squares s) = true ∧ chan_closed (numbers s) = true
    | _ => chan_closed (squares s) = false
    end;
  inv_prn : prn s = PDone → chan_closed (squares s) = true
}.

(** The pipeline of [demonstrateChannelDirections]: [generateNumbers(5)]. *)
Definition demonstratePipeline (sched : list goroutine) : option pipeline :=
  run 5 sched pipeline_init.

End Pipeline.

(** ** The REST lesson: the in-memory user store and its handlers *)

Module Rest.

(** A Go string, as the sequence of its Unicode code points (the strings
    the handlers see come out of [json.Unmarshal], which yields valid
    UTF-8). *)
Abbreviation gostring := (list Z) (only parsing).

(** [time.Time], as an instant on some clock. *)
Abbreviation Time := Z (only parsing).

Record User : Type := MkUser {
  ID : Z;
  Name : gostring;
  Email : gostring;
  Age : Z;
  CreatedAt : Time;
  UpdatedAt : Time
}.

Record CreateUserRequest : Type := MkCreateUserRequest {
  create_Name : gostring;
  create_Email : gostring;
  create_Age : Z
}.

(** The pointer fields of [UpdateUserRequest]: [None] is [nil]. *)
Record UpdateUserRequest : Type := MkUpdateUserRequest {
  update_Name : option gostring;
  update_Email : option gostring;
  update_Age : option Z
}.

Record ValidationError : Type := MkValidationError {
  Field : string;
  Message : string
}.

(** What a handler writes: the status code and the encoded value, an
    [ErrorResponse] or an [APIResponse]. *)
Inductive payload : Type :=
  | ErrorResponse (Error : string) (Details : list ValidationError)
  | APIResponse (Success : bool) (Data : option User) (Msg : string).

Record response : Type := MkResponse {
  statusCode : Z;
  body : payload
}.

Definition StatusOK : Z := 200.
Definition StatusCreated : Z := 201.
Definition StatusBadRequest : Z := 400.
Definition StatusNotFound : Z := 404.

(** The package-level variables [users] and [nextUserID]. *)
Record store : Type := MkStore {
  users : gmap Z User;
  nextUserID : Z
}.

(** The part of [*http.Request] the handlers read: the result of
    [io.ReadAll(r.Body)], [None] when reading fails. *)
Record request : Type := MkRequest {
  Body : option (list Byte.byte)
}.

(** [unicode.IsSpace] *)
Definition IsSpace (r : Z) : bool :=
  bool_decide (9 ≤ r ≤ 13) || bool_decide (r = 32) || bool_decide (r = 133)
  || bool_decide (r = 160) || bool_decide (r = 5760)
  || bool_decide (8192 ≤ r ≤ 8202) || bool_decide (r = 8232)
  || bool_decide (r = 8233) || bool_decide (r = 8239) || bool_decide (r = 8287)
  || bool_decide (r = 12288).

Fixpoint TrimLeft (s : list Z) : list Z :=
  match s with
  | r :: rest => if IsSpace r then TrimLeft rest else s
  | [] => []
  end.

(** [strings.TrimSpace] *)
Definition TrimSpace (s : list Z) : list Z :=
  reverse (TrimLeft (reverse (TrimLeft s))).

Fixpoint HasPrefix (s p : list Z) : bool :=
  match p, s with
  | [], _ => true
  | c :: p', d :: s' => bool_decide (c = d) && HasPrefix s' p'
  | _ :: _, [] => false
  end.

(** [strings.Contains] *)
Fixpoint Contains (s substr : list Z) : bool :=
  HasPrefix s substr ||
  match s with
  | [] => false
  | _ :: s' => Contains s' substr
  end.

(** The string ["@"] *)
Definition at_sign : list Z := [64].

Definition validateCreateUserRequest (req : CreateUserRequest) : list ValidationError :=
  let errors := [] in
  let errors :=
    if decide (TrimSpace (create_Name req) = [])
    then errors ++ [MkValidationError "name" "Name is required"]
    else errors in
  let errors :=
    if decide (TrimSpace (create_Email req) = [])
    then errors ++ [MkValidationError "email" "Email is required"]
    else if negb (Contains (create_Email req) at_sign)
         then errors ++ [MkValidationError "email" "Invalid email format"]
         else errors in
  let errors :=
    if bool_decide (create_Age req < 0) || bool_decide (create_Age req > 150)
    then errors ++ [MkValidationError "age" "Age must be between 0 and 150"]
    else errors in
  errors.

Definition respondWithJSON (statusCode : Z) (data : payload) : response :=
  MkResponse statusCode data.

Definition respondWithError (statusCode : Z) (message : string) : response :=
  respondWithJSON statusCode (ErrorResponse message []).

Definition respondWithValidationErrors (errors : list ValidationError) : response :=
  respondWithJSON StatusBadRequest (ErrorResponse "Validation failed" errors).

Section Handlers.
(** [json.Unmarshal] into a [CreateUserRequest] and into an
    [UpdateUserRequest]; [None] is a decoding error. *)
Variable unmarshalCreate : list Byte.byte → option CreateUserRequest.
Variable unmarshalUpdate : list Byte.byte → option UpdateUserRequest.

(** [POST /api/users]; [now] is the value of [time.Now()]. *)
Definition createUser (st : store) (r : request) (now : Time) : response * store :=
  match Body r with
  | None => (respondWithError StatusBadRequest "Failed to read request body", st)
  | Some body =>
      match unmarshalCreate body with
      | None => (respondWithError StatusBadRequest "Invalid JSON format", st)
      | Some req =>
          let errors := validateCreateUserRequest req in
          if decide (0 < length errors)%nat
          then (respondWithValidationErrors errors, st)
          else
            let user := MkUser (nextUserID st) (create_Name req) (create_Email req)
                               (create_Age req) now now in
            (respondWithJSON StatusCreated
               (APIResponse true (Some user) "User created successfully"),
             MkStore (<[nextUserID st := user]> (users st))
                     (GoInt.add (nextUserID st) 1))
      end
  end.

(** [PUT /api/users/{id}] *)
Definition updateUser (st : store) (r : request) (userID : Z) (now : Time)
  : response * store :=
  match users st !! userID with
  | None => (respondWithError StatusNotFound "User not found", st)
  | Some user =>
      match Body r with
      | None => (respondWithError StatusBadRequest "Failed to read request body", st)
      | Some body =>
          match unmarshalUpdate body with
          | None => (respondWithError StatusBadRequest "Invalid JSON format", st)
          | Some req =>
              let user :=
                match update_Name req with
                | Some name => MkUser (ID user) name (Email user) (Age user)
                                      (CreatedAt user) (UpdatedAt user)
                | None => user
                end in
              let user :=
                match update_Email req with
                | Some email => MkUser (ID user) (Name user) email (Age user)
                                       (CreatedAt user) (UpdatedAt user)
                | None => user
                end in
              let user :=
                match update_Age req with
                | Some age => MkUser (ID user) (Name user) (Email user) age
                                     (CreatedAt user) (UpdatedAt user)
                | None => user
                end in
              let user := MkUser (ID user) (Name user) (Email user) (Age user)
                                 (CreatedAt user) now in
              (respondWithJSON StatusOK
                 (APIResponse true (Some user) "User updated successfully"),
               MkStore (<[userID := user]> (users st)) (nextUserID st))
          end
      end
  end.

End Handlers.

(** A request that has to be rejected: an empty name, an empty email or
    one without ["@"], or an age outside 0..150. *)
Definition invalid_create (req : CreateUserRequest) : Prop :=
  create_Name req = [] ∨ create_Email req = []
  ∨ Contains (create_Email req) at_sign = false
  ∨ create_Age req < 0 ∨ create_Age req > 150.

(** *** The other handlers, the routing and [extractUserID] *)

(** The code points of an ASCII literal. *)
Definition runes (s : string) : list Z :=
  (λ a, Z.of_N (Ascii.N_of_ascii a)) <$> String.list_ascii_of_string s.

Definition StatusMethodNotAllowed : Z := 405.

Fixpoint trimLeftIn (cutset s : list Z) : list Z :=
  match s with
  | r :: rest => if bool_decide (r ∈ cutset) then trimLeftIn cutset rest else s
  | [] => []
  end.

(** [strings.Trim]: the leading and trailing code points of [cutset] go. *)
Definition Trim (s cutset : list Z) : list Z :=
  reverse (trimLeftIn cutset (reverse (trimLeftIn cutset s))).

(** The scan of [strings.Split] for a non-empty separator: [cur] is the
    piece being read, reversed, and [skip] counts the code points of a
    matched separator still to pass. *)
Fixpoint splitFrom (sep : list Z) (skip : nat) (cur s : list Z) : list (list Z) :=
  match s with
  | [] => [reverse cur]
  | c :: rest =>
      match skip with
      | S k => splitFrom sep k cur rest
      | O =>
          if HasPrefix s sep
          then reverse cur :: splitFrom sep (length sep - 1) [] rest
          else splitFrom sep 0 (c :: cur) rest
      end
  end.

(** [strings.Split]: the pieces between the occurrences of [sep]; with an
    empty [sep], the code points one by one. *)
Definition Split (s sep : list Z) : list (list Z) :=
  match sep with
  | [] => (λ c, [c]) <$> s
  | _ => splitFrom sep 0 [] s
  end.

(** The errors of [extractUserID]: its own, and the two of [strconv.Atoi]. *)
Inductive path_error : Type :=
  | InvalidPath
  | ErrSyntax
  | ErrRange.

Global Instance path_error_eq_dec : EqDecision path_error.
Proof. solve_decision. Defined.

(** The digit loop of [strconv.ParseUint] in base 10 on 64 bits: the first
    code point that is no digit is a syntax error, the first digit that
    takes the number over [2^64 - 1] a range error. *)
Fixpoint parseUint (n : Z) (s : list Z) : Z * option path_error :=
  match s with
  | [] => (n, None)
  | c :: rest =>
      if bool_decide (48 ≤ c ≤ 57)
      then if bool_decide (2 ^ 64 - 1 < n * 10 + (c - 48))
           then (2 ^ 64 - 1, Some ErrRange)
           else parseUint (n * 10 + (c - 48)) rest
      else (0, Some ErrSyntax)
  end.

(** [strconv.Atoi]: an optional sign, then decimal digits, in the range
    of [int]; the value comes with the error, as in Go. *)
Definition Atoi (s : list Z) : Z * option path_error :=
  let neg := bool_decide (head s = Some 45) in
  let digits :=
    if bool_decide (head s = Some 45) || bool_decide (head s = Some 43)
    then tail s else s in
  match digits with
  | [] => (0, Some ErrSyntax)
  | _ =>
      match parseUint 0 digits with
      | (_, Some ErrSyntax) => (0, Some ErrSyntax)
      | (un, _) =>
          if negb neg && bool_decide (2 ^ 63 ≤ un)
          then (GoInt.int_max, Some ErrRange)
          else if neg && bool_decide (2 ^ 63 < un)
               then (GoInt.int_min, Some ErrRange)
               else (if neg then - un else un, None)
      end
  end.

Definition slash : list Z := [47].

Definition extractUserID (path : list Z) : Z * option path_error :=
  let parts := Split (Trim path slash) slash in
  if decide (length parts < 3)%nat
  then (0, Some InvalidPath)
  else Atoi (default [] (parts !! 2%nat)).

(** [GET /api/users/{id}] *)
Definition getUser (st : store) (userID : Z) : response :=
  match users st !! userID with
  | None => respondWithError StatusNotFound "User not found"
  | Some user => respondWithJSON StatusOK (APIResponse true (Some user) "")
  end.

(** [DELETE /api/users/{id}] *)
Definition deleteUser (st : store) (userID : Z) : response * store :=
  match users st !! userID with
  | None => (respondWithError StatusNotFound "User not found", st)
  | Some _ =>
      (respondWithJSON StatusOK (APIResponse true None "User deleted successfully"),
       MkStore (delete userID (users st)) (nextUserID st))
  end.

(** [GET /api/users]: the status and the users listed.  Go ranges over the
    map in no fixed order; the order of the list below is one of them. *)
Definition getAllUsers (st : store) : Z * list User :=
  (StatusOK, (map_to_list (users st)).*2).

(** [initializeData], with the four readings of the clock. *)
Definition Hour : Z := 3600 * 1000000000.

Definition initializeData (st : store) (t1 t2 t3 t4 : Z) : store :=
  MkStore
    (<[2 := MkUser 2 (runes "Jane Smith") (runes "jane@example.com") 30
                   (t3 - 12 * Hour) (t4 - 12 * Hour)]>
       (<[1 := MkUser 1 (runes "John Doe") (runes "john@example.com") 25
                      (t1 - 24 * Hour) (t2 - 24 * Hour)]> (users st)))
    3.

(** The package-level variables before [main] runs. *)
Definition store_init : store := MkStore ∅ 1.

(** What the routing reads of a request besides its body. *)
Record http_request : Type := MkHttpRequest {
  Method : string;
  Path : list Z;
  Req : request
}.

(** What a routed request is answered with: the response of one of the
    handlers above, or the listing of [getAllUsers]. *)
Inductive reply : Type :=
  | Reply (r : response)
  | Listing (statusCode : Z) (userList : list User).

Definition replyStatus (r : reply) : Z :=
  match r with
  | Reply r => statusCode r
  | Listing c _ => c
  end.

Section Routing.
Variable unmarshalCreate : list Byte.byte → option CreateUserRequest.
Variable unmarshalUpdate : list Byte.byte → option UpdateUserRequest.

(** [handleUsers]: [GET] and [POST] on [/api/users] *)
Definition handleUsers (st : store) (r : http_request) (now : Z) : reply * store :=
  if decide (Method r = "GET")
  then (Listing (getAllUsers st).1 (getAllUsers st).2, st)
  else if decide (Method r = "POST")
       then let '(resp, st') := createUser unmarshalCreate st (Req r) now in
            (Reply resp, st')
       else (Reply (respondWithError StatusMethodNotAllowed "Method not allowed"), st).

(** [handleUser]: [GET], [PUT] and [DELETE] on [/api/users/{id}] *)
Definition handleUser (st : store) (r : http_request) (now : Z) : reply * store :=
  match extractUserID (Path r) with
  | (_, Some _) => (Reply (respondWithError StatusBadRequest "Invalid user ID"), st)
  | (userID, None) =>
      if decide (Method r = "GET")
      then (Reply (getUser st userID), st)
      else if decide (Method r = "PUT")
           then let '(resp, st') := updateUser unmarshalUpdate st (Req r) userID now in
                (Reply resp, st')
           else if decide (Method r = "DELETE")
                then let '(resp, st') := deleteUser st userID in (Reply resp, st')
                else (Reply (respondWithError StatusMethodNotAllowed
                               "Method not allowed"), st)
  end.

(** One call of a handler, as the server makes it for a request. *)
Inductive call : Type :=
  | CallUsers (r : http_request) (now : Z)
  | CallUser (r : http_request) (now : Z).

Definition serve1 (st : store) (c : call) : reply * store :=
  match c with
  | CallUsers r now => handleUsers st r now
  | CallUser r now => handleUser st r now
  end.

(** The store after a sequence of calls. *)
Definition serve (st : store) (cs : list call) : store :=
  foldl (λ st c, (serve1 st c).2) st cs.

End Routing.

(** Every stored user carries the key it is stored under, and the keys lie
    between 1 and the next identifier. *)
Definition store_ok (st : store) : Prop :=
  1 ≤ nextUserID st
  ∧ ∀ k u, users st !! k = Some u → ID u = k ∧ 1 ≤ k < nextUserID st.

(** The decimal numeral of a number below [10^20], as a request path spells
    an identifier. *)
Fixpoint decimalFrom (fuel : nat) (n : Z) (acc : list Z) : list Z :=
  match fuel with
  | O => acc
  | S fuel' =>
      if decide (n < 10) then (48 + n) :: acc
      else decimalFrom fuel' (n `div` 10) ((48 + n `mod` 10) :: acc)
  end.

Definition decimal (n : Z) : list Z := decimalFrom 20 n [].


End Rest.

(** ** The guarded counter ([SafeCounter], [demonstrateSynchronization]) *)

Module Counter.

Record SafeCounter : Type := MkSafeCounter {
  mu : bool;     (* [sync.Mutex]: is it locked *)
  value : Z
}.

(** [c.mu.Lock()] blocks while the mutex is locked; [c.mu.Unlock()] of an
    unlocked mutex is a fatal error. *)
Definition Lock (c : SafeCounter) : outcome SafeCounter :=
  if mu c then Blocked else Next (MkSafeCounter true (value c)).

Definition Unlock (c : SafeCounter) : outcome SafeCounter :=
  if mu c then Next (MkSafeCounter false (value c)) else Panic.

(** [sync.WaitGroup]: the counter is an [int32]; [Add] panics when it turns
    negative, [Done] is [Add(-1)], [Wait] blocks until it is zero. *)
Definition wrap32 (z : Z) : Z := (z + 2 ^ 31) `mod` 2 ^ 32 - 2 ^ 31.

Definition Add (wg delta : Z) : outcome Z :=
  if decide (wrap32 (wg + delta) < 0) then Panic else Next (wrap32 (wg + delta)).

Definition Done (wg : Z) : outcome Z := Add wg (-1).

(** Program counter of the part of [demonstrateSynchronization] that uses
    the counter: the spawning loop ([wg.Add(1)], then the [go] statement),
    [wg.Wait()], and the three steps of [counter.Value()], whose result is
    printed. *)
Inductive main_pc : Type :=
  | MAdd (i : Z)
  | MGo (i : Z)
  | MWait
  | MLock
  | MRead
  | MUnlock (v : Z)
  | MDone.

(** Program counter of a spawned goroutine: at the head of its loop (then
    [c.mu.Lock()] of [Increment]), inside [c.value++] (the load, then the
    store of the value loaded plus one), at the deferred [c.mu.Unlock()], at
    the deferred [wg.Done()], or returned. *)
Inductive inc_pc : Type :=
  | ILoop (j : Z)
  | IRead (j : Z)
  | IWrite (j v : Z)
  | IUnlock (j : Z)
  | IDone
  | IExit.

Global Instance main_pc_eq_dec : EqDecision main_pc.
Proof. solve_decision. Defined.
Global Instance inc_pc_eq_dec : EqDecision inc_pc.
Proof. solve_decision. Defined.

Record state : Type := MkState {
  counter : SafeCounter;
  wg : Z;
  pc : main_pc;
  incs : list (Z * inc_pc);   (* goroutines started by [go func(n int) {...}(i)]: n and pc *)
  finished : list Z;          (* the "Goroutine %d finished" lines, in order *)
  final : option Z            (* the "Final counter value: %d" line *)
}.

Definition state_init : state :=
  MkState (MkSafeCounter false 0) 0 (MAdd 0) [] [] None.

Section Machine.
Variables G K : Z.

Definition step_main (s : state) : outcome state :=
  match pc s with
  | MAdd i =>
      if decide (i < G)
      then match Add (wg s) 1 with
           | Next n => Next (MkState (counter s) n (MGo i) (incs s) (finished s) (final s))
           | Blocked => Blocked
           | Panic => Panic
           end
      else Next (MkState (counter s) (wg s) MWait (incs s) (finished s) (final s))
  | MGo i =>
      Next (MkState (counter s) (wg s) (MAdd (GoInt.add i 1))
                    (incs s ++ [(i, ILoop 0)]) (finished s) (final s))
  | MWait =>
      if decide (wg s = 0)
      then Next (MkState (counter s) (wg s) MLock (incs s) (finished s) (final s))
      else Blocked
  | MLock =>
      match Lock (counter s) with
      | Next c => Next (MkState c (wg s) MRead (incs s) (finished s) (final s))
      | Blocked => Blocked
      | Panic => Panic
      end
  | MRead =>
      Next (MkState (counter s) (wg s) (MUnlock (value (counter s)))
                    (incs s) (finished s) (final s))
  | MUnlock v =>
      match Unlock (counter s) with
      | Next c => Next (MkState c (wg s) MDone (incs s) (finished s) (Some v))
      | Blocked => Blocked
      | Panic => Panic
      end
  | MDone => Blocked
  end.

Definition step_inc (k : nat) (s : state) : outcome state :=
  match incs s !! k with
  | None => Blocked
  | Some (n, ILoop j) =>
      if decide (j < K)
      then match Lock (counter s) with
           | Next c =>
               Next (MkState c (wg s) (pc s) (<[k := (n, IRead j)]> (incs s))
                             (finished s) (final s))
           | Blocked => Blocked
           | Panic => Panic
           end
      else Next (MkState (counter s) (wg s) (pc s) (<[k := (n, IDone)]> (incs s))
                         (finished s ++ [n]) (final s))
  | Some (n, IRead j) =>
      Next (MkState (counter s) (wg s) (pc s)
                    (<[k := (n, IWrite j (value (counter s)))]> (incs s))
                    (finished s) (final s))
  | Some (n, IWrite j v) =>
      Next (MkState (MkSafeCounter (mu (counter s)) (GoInt.add v 1)) (wg s) (pc s)
                    (<[k := (n, IUnlock j)]> (incs s)) (finished s) (final s))
  | Some (n, IUnlock j) =>
      match Unlock (counter s) with
      | Next c =>
          Next (MkState c (wg s) (pc s) (<[k := (n, ILoop (GoInt.add j 1))]> (incs s))
                        (finished s) (final s))
      | Blocked => Blocked
      | Panic => Panic
      end
  | Some (n, IDone) =>
      match Done (wg s) with
      | Next w =>
          Next (MkState (counter s) w (pc s) (<[k := (n, IExit)]> (incs s))
                        (finished s) (final s))
      | Blocked => Blocked
      | Panic => Panic
      end
  | Some (n, IExit) => Blocked
  end.

Definition step (g : goroutine) (s : state) : outcome state :=
  match g with
  | Main => step_main s
  | Worker k => step_inc k s
  | _ => Blocked
  end.

Fixpoint run (sched : list goroutine) (s : state) : option state :=
  match sched with
  | [] => Some s
  | g :: rest =>
      match step g s with
      | Next s' => run rest s'
      | _ => None
      end
  end.

Inductive reachable : state → Prop :=
  | reach_init : reachable state_init
  | reach_step s g s' : reachable s → step g s = Next s' → reachable s'.

Definition goroutines (s : state) : list goroutine :=
  Main :: (Worker <$> seq 0 (length (incs s))).

Definition enabled (s : state) (g : goroutine) : bool :=
  match step g s with Next _ => true | _ => false end.

Definition stuck (s : state) : Prop := ∀ g, enabled s g = false.

(** A deterministic scheduler: always the first enabled goroutine. *)
Fixpoint run_first (fuel : nat) (s : state) : state :=
  match fuel with
  | O => s
  | S fuel' =>
      match list_find (λ g, enabled s g = true) (goroutines s) with
      | Some (_, g) =>
          match step g s with
          | Next s' => run_first fuel' s'
          | _ => s
          end
      | None => s
      end
  end.

End Machine.

(** Quantities the invariant is stated with: sums over the goroutines. *)
Definition total (f : inc_pc → Z) (l : list (Z * inc_pc)) : Z :=
  sumZ ((λ w, f w.2) <$> l).

(** Between [Lock] and [Unlock]. *)
Definition in_cs (p : inc_pc) : Z :=
  match p with IRead _ | IWrite _ _ | IUnlock _ => 1 | _ => 0 end.

Definition main_in_cs (p : main_pc) : Z :=
  match p with MRead | MUnlock _ => 1 | _ => 0 end.

Definition holders (s : state) : Z := total in_cs (incs s) + main_in_cs (pc s).

(** Not yet past [wg.Done()]. *)
Definition alive (p : inc_pc) : Z :=
  match p with IExit => 0 | _ => 1 end.

(** The stores of [c.value++] a goroutine has made. *)
Definition increments (K : Z) (p : inc_pc) : Z :=
  match p with
  | ILoop j | IRead j | IWrite j _ => j
  | IUnlock j => j + 1
  | IDone | IExit => Z.max K 0
  end.

(** Past its loop: the goroutine has printed its line. *)
Definition returned (w : Z * inc_pc) : option Z :=
  match w.2 with IDone | IExit => Some w.1 | _ => None end.

(** The steps a goroutine, and [Main], still have to take. *)
Definition inc_left (K : Z) (p : inc_pc) : Z :=
  match p with
  | ILoop j => 4 * Z.max (K - j) 0 + 2
  | IRead j => 4 * Z.max (K - j) 0 + 1
  | IWrite j _ => 4 * Z.max (K - j) 0
  | IUnlock j => 4 * Z.max (K - j) 0 - 1
  | IDone => 1
  | IExit => 0
  end.

Definition main_left (G K : Z) (p : main_pc) : Z :=
  match p with
  | MAdd i => (4 * Z.max K 0 + 4) * Z.max (G - i) 0 + 5
  | MGo i => (4 * Z.max K 0 + 4) * Z.max (G - i) 0 + 4
  | MWait => 4
  | MLock => 3
  | MRead => 2
  | MUnlock _ => 1
  | MDone => 0
  end.

Definition measure (G K : Z) (s : state) : Z :=
  main_left G K (pc s) + total (inc_left K) (incs s).

Record Inv (G K : Z) (s : state) : Prop := MkInv {
  (* the mutex is locked exactly when one goroutine is between Lock and Unlock *)
  inv_mutex : holders s = if mu (counter s) then 1 else 0;
  (* no store is lost *)
  inv_value : value (counter s) = GoInt.wrap (total (increments K) (incs s));
  (* the value loaded by a goroutine about to store is still the counter's *)
  inv_read :
    Forall (λ w, match w.2 with
                 | IWrite _ v => v = value (counter s)
                 | _ => True
                 end) (incs s);
  inv_wg :
    wg s = total alive (incs s) + match pc s with MGo _ => 1 | _ => 0 end;
  inv_ids : (incs s).*1 = seqZ 0 (Z.of_nat (length (incs s)));
  inv_finished : finished s ≡ₚ omap returned (incs s);
  inv_loop :
    Forall (λ w, match w.2 with
                 | ILoop j => 0 ≤ j ≤ Z.max K 0
                 | IRead j | IWrite j _ | IUnlock j => 0 ≤ j < K
                 | _ => True
                 end) (incs s);
  inv_pc :
    match pc s with
    | MAdd i => 0 ≤ i ≤ Z.max G 0 ∧ Z.of_nat (length (incs s)) = i ∧ final s = None
    | MGo i => 0 ≤ i < G ∧ Z.of_nat (length (incs s)) = i ∧ final s = None
    | MWait => Z.of_nat (length (incs s)) = Z.max G 0 ∧ final s = None
    | MLock | MRead =>
        Z.of_nat (length (incs s)) = Z.max G 0 ∧ total alive (incs s) = 0
        ∧ final s = None
    | MUnlock v =>
        Z.of_nat (length (incs s)) = Z.max G 0 ∧ total alive (incs s) = 0
        ∧ final s = None ∧ v = value (counter s)
    | MDone =>
        Z.of_nat (length (incs s)) = Z.max G 0 ∧ total alive (incs s) = 0
        ∧ final s = Some (value (counter s))
    end
}.

(** [demonstrateSynchronization] as written: 10 goroutines, 100 increments
    each. *)
Definition demonstrateSynchronization (sched : list goroutine) : option state :=
  run 10 100 sched state_init.

End Counter.

(** ** Cancellation through a closed channel ([demonstrateContext]) *)

Module Context.

(** The lines the function prints. *)
Inductive line : Type :=
  | Working (step : Z)
  | Cancelled
  | Completed
  | Finished.

Global Instance line_eq_dec : EqDecision line.
Proof. solve_decision. Defined.

(** The goroutine of the cancelable operation and the one that closes
    [cancel] after its sleep. *)
Definition Operation : goroutine := Worker 0.
Definition Canceller : goroutine := Worker 1.

(** Program counter of the operation: at the head of its loop, at the
    deferred [done <- true], or returned. *)
Inductive op_pc : Type :=
  | OLoop (i : Z)
  | ODefer
  | OExit.

Inductive cancel_pc : Type :=
  | CClose
  | CExit.

(** [demonstrateContext] itself: at [<-done], about to print its last
    line, or returned. *)
Inductive main_pc : Type :=
  | MRecv
  | MPrint
  | MDone.

Global Instance op_pc_eq_dec : EqDecision op_pc.
Proof. solve_decision. Defined.
Global Instance cancel_pc_eq_dec : EqDecision cancel_pc.
Proof. solve_decision. Defined.
Global Instance main_pc_eq_dec : EqDecision main_pc.
Proof. solve_decision. Defined.

Record context : Type := MkContext {
  cancel : chan;
  done : chan;
  op : op_pc;
  canceller : cancel_pc;
  pc : main_pc;
  output : list line
}.

(** Both channels are unbuffered. *)
Definition context_init : context :=
  MkContext (make_chan 0) (make_chan 0) (OLoop 0) CClose MRecv [].

Section Machine.
Variable steps : Z.

(** The loop with its [select]: the receive from [cancel] when it is ready,
    the [default] branch otherwise; after the loop, or on [return], the
    deferred send on the unbuffered [done], which needs the caller at its
    receive. *)
Definition step_operation (s : context) : outcome context :=
  match op s with
  | OLoop i =>
      if decide (i < steps)
      then match chan_recv Operation (cancel s) with
           | Next (_, c) =>
               Next (MkContext c (done s) ODefer (canceller s) (pc s)
                               (output s ++ [Cancelled]))
           | Blocked =>
               Next (MkContext (cancel s) (done s) (OLoop (GoInt.add i 1))
                               (canceller s) (pc s)
                               (output s ++ [Working (GoInt.add i 1)]))
           | Panic => Panic
           end
      else Next (MkContext (cancel s) (done s) ODefer (canceller s) (pc s)
                           (output s ++ [Completed]))
  | ODefer =>
      match pc s with
      | MRecv =>
          match chan_sync Operation Main (done s) 1 with
          | Next c => Next (MkContext (cancel s) c OExit (canceller s) MPrint (output s))
          | Blocked => Blocked
          | Panic => Panic
          end
      | _ => Blocked
      end
  | OExit => Blocked
  end.

(** [time.Sleep(1 * time.Second); close(cancel)] *)
Definition step_canceller (s : context) : outcome context :=
  match canceller s with
  | CClose =>
      match chan_close Canceller (cancel s) with
      | Next c => Next (MkContext c (done s) (op s) CExit (pc s) (output s))
      | Blocked => Blocked
      | Panic => Panic
      end
  | CExit => Blocked
  end.

(** The receive from [done] completes through the send of the operation. *)
Definition step_main (s : context) : outcome context :=
  match pc s with
  | MRecv => Blocked
  | MPrint =>
      Next (MkContext (cancel s) (done s) (op s) (canceller s) MDone
                      (output s ++ [Finished]))
  | MDone => Blocked
  end.

Definition step (g : goroutine) (s : context) : outcome context :=
  match g with
  | Main => step_main s
  | Worker 0 => step_operation s
  | Worker 1 => step_canceller s
  | _ => Blocked
  end.

Fixpoint run (sched : list goroutine) (s : context) : option context :=
  match sched with
  | [] => Some s
  | g :: rest =>
      match step g s with
      | Next s' => run rest s'
      | _ => None
      end
  end.

Inductive reachable : context → Prop :=
  | reach_init : reachable context_init
  | reach_step s g s' : reachable s → step g s = Next s' → reachable s'.

Definition enabled (s : context) (g : goroutine) : bool :=
  match step g s with Next _ => true | _ => false end.

Definition stuck (s : context) : Prop := ∀ g, enabled s g = false.

End Machine.

(** The "Working... step" lines 1..k. *)
Definition workings (k : Z) : list line := Working <$> seqZ 1 k.

Definition is_working (l : line) : bool :=
  match l with Working _ => true | _ => false end.

(** What the operation has printed when it leaves its loop: some steps,
    then that it was cancelled (before the last step, [cancel] being
    closed), or every step, then that it completed. *)
Definition ended (steps : Z) (closed : bool) (o : list line) : Prop :=
  ∃ k, 0 ≤ k ≤ Z.max steps 0
       ∧ ((o = workings k ++ [Cancelled] ∧ k < steps ∧ closed = true)
          ∨ (o = workings k ++ [Completed] ∧ k = Z.max steps 0)).

Definition op_left (steps : Z) (p : op_pc) : Z :=
  match p with
  | OLoop i => Z.max (steps - i) 0 + 2
  | ODefer => 1
  | OExit => 0
  end.

Definition measure (steps : Z) (s : context) : Z :=
  op_left steps (op s)
  + match canceller s with CClose => 1 | CExit => 0 end
  + match pc s with MDone => 0 | _ => 1 end.

Record Inv (steps : Z) (s : context) : Prop := MkInv {
  inv_cancel_buf : chan_buf (cancel s) = [];
  inv_cancel_closed :
    chan_closed (cancel s) = match canceller s with CExit => true | CClose => false end;
  inv_cancel_log :
    writes (chan_log (cancel s))
    = if chan_closed (cancel s) then [(Canceller, OpClose)] else [];
  inv_done_open : chan_closed (done s) = false;
  (* [done] carries one value: the send of the returning operation *)
  inv_done_log :
    chan_log (done s)
    = match op s with
      | OExit => [(Operation, OpSend 1); (Main, OpRecv 1)]
      | _ => []
      end;
  inv_op :
    match op s with
    | OLoop i => 0 ≤ i ≤ Z.max steps 0 ∧ output s = workings i ∧ pc s = MRecv
    | ODefer => ended steps (chan_closed (cancel s)) (output s) ∧ pc s = MRecv
    | OExit =>
        match pc s with
        | MRecv => False
        | MPrint => ended steps (chan_closed (cancel s)) (output s)
        | MDone =>
            ∃ o, output s = o ++ [Finished] ∧ ended steps (chan_closed (cancel s)) o
        end
    end
}.

(** [demonstrateContext] as written: ten steps. *)
Definition demonstrateContext (sched : list goroutine) : option context :=
  run 10 sched context_init.

End Context.

(** ** The cancelable operation, statement by statement

    In [Context] a pass through the loop of the operation is one step.  For
    what can happen between the [select] and the [Printf] of its [default]
    branch the operation is taken here one statement at a time; the
    canceller and [demonstrateContext] itself are as in [Context]. *)

Module ContextSteps.
Import Context.

(** Program counter of the operation: at the [select] of its loop, in the
    [default] branch before its [Printf], in the [cancel] branch before its
    [Println], at the deferred [done <- true], or returned. *)
Inductive op_pc : Type :=
  | OSelect (i : Z)
  | OWork (i : Z)
  | OCancelled
  | ODefer
  | OExit.

Global Instance op_pc_eq_dec : EqDecision op_pc.
Proof. solve_decision. Defined.

Record context : Type := MkContext {
  cancel : chan;
  done : chan;
  op : op_pc;
  canceller : cancel_pc;
  pc : main_pc;
  output : list line
}.

Definition context_init : context :=
  MkContext (make_chan 0) (make_chan 0) (OSelect 0) CClose MRecv [].

Section Machine.
Variable steps : Z.

Definition step_operation (s : context) : outcome context :=
  match op s with
  | OSelect i =>
      if decide (i < steps)
      then match chan_recv Operation (cancel s) with
           | Next (_, c) =>
               Next (MkContext c (done s) OCancelled (canceller s) (pc s) (output s))
           | Blocked =>
               Next (MkContext (cancel s) (done s) (OWork i) (canceller s) (pc s)
                               (output s))
           | Panic => Panic
           end
      else Next (MkContext (cancel s) (done s) ODefer (canceller s) (pc s)
                           (output s ++ [Completed]))
  | OWork i =>
      Next (MkContext (cancel s) (done s) (OSelect (GoInt.add i 1)) (canceller s)
                      (pc s) (output s ++ [Working (GoInt.add i 1)]))
  | OCancelled =>
      Next (MkContext (cancel s) (done s) ODefer (canceller s) (pc s)
                      (output s ++ [Cancelled]))
  | ODefer =>
      match pc s with
      | MRecv =>
          match chan_sync Operation Main (done s) 1 with
          | Next c => Next (MkContext (cancel s) c OExit (canceller s) MPrint (output s))
          | Blocked => Blocked
          | Panic => Panic
          end
      | _ => Blocked
      end
  | OExit => Blocked
  end.

Definition step_canceller (s : context) : outcome context :=
  match canceller s with
  | CClose =>
      match chan_close Canceller (cancel s) with
      | Next c => Next (MkContext c (done s) (op s) CExit (pc s) (output s))
      | Blocked => Blocked
      | Panic => Panic
      end
  | CExit => Blocked
  end.

Definition step_main (s : context) : outcome context :=
  match pc s with
  | MRecv => Blocked
  | MPrint =>
      Next (MkContext (cancel s) (done s) (op s) (canceller s) MDone
                      (output s ++ [Finished]))
  | MDone => Blocked
  end.

Definition step (g : goroutine) (s : context) : outcome context :=
  match g with
  | Main => step_main s
  | Worker 0 => step_operation s
  | Worker 1 => step_canceller s
  | _ => Blocked
  end.

Fixpoint run (sched : list goroutine) (s : context) : option context :=
  match sched with
  | [] => Some s
  | g :: rest =>
      match step g s with
      | Next s' => run rest s'
      | _ => None
      end
  end.

End Machine.

(** The "Working... step" lines printed so far, and the one the operation
    is about to print when its [select] has taken the [default] branch. *)
Definition worked (s : context) : list line :=
  filter (λ l, is_working l = true) (output s).

Definition pending (p : op_pc) : list line :=
  match p with
  | OWork i => [Working (GoInt.add i 1)]
  | _ => []
  end.

End ContextSteps.

(** ** Stored users and the validation of [createUser] *)

Module Validity.
Import Rest.

(** The request that would create a user with the name, email and age of
    [u]. *)
Definition as_request (u : User) : CreateUserRequest :=
  MkCreateUserRequest (Name u) (Email u) (Age u).

(** Every stored user would pass [validateCreateUserRequest]. *)
Definition store_valid (st : store) : Prop :=
  ∀ k u, users st !! k = Some u → validateCreateUserRequest (as_request u) = [].

(** The name, email and age of [u] after the fields of [req] that are not
    [nil] have been written over them. *)
Definition overwritten (u : User) (req : UpdateUserRequest) : CreateUserRequest :=
  MkCreateUserRequest (default (Name u) (update_Name req))
                      (default (Email u) (update_Email req))
                      (default (Age u) (update_Age req)).

End Validity.

(** ** The functions of lesson 03 ([divide], [sum], [factorial]) *)

Module Functions.

(** Go's [/] and [%] on [int]: the quotient truncated toward zero (it wraps
    around in the one case where it does not fit), the remainder with the
    sign of the dividend; a zero divisor is the run-time panic "integer
    divide by zero", here [None]. *)
Definition quo (a b : Z) : option Z :=
  if decide (b = 0) then None else Some (GoInt.wrap (a ÷ b)).

Definition rem (a b : Z) : option Z :=
  if decide (b = 0) then None else Some (Z.rem a b).

Definition divide (dividend divisor : Z) : option (Z * Z) :=
  quotient ← quo dividend divisor;
  remainder ← rem dividend divisor;
  Some (quotient, remainder).

(** [for _, num := range numbers { total += num }] *)
Definition sum (numbers : list Z) : Z :=
  foldl (λ total num, GoInt.add total num) 0 numbers.

(** [factorial]: [depth] bounds the nesting of the calls, and [None] is a
    call that would nest deeper. *)
Fixpoint factorial (depth : nat) (n : Z) : option Z :=
  match depth with
  | O => None
  | S depth' =>
      if decide (n ≤ 1) then Some 1
      else r ← factorial depth' (GoInt.wrap (n - 1)); Some (GoInt.mul n r)
  end.

(** The product of a list, to state what [factorial] computes. *)
Definition prodZ (l : list Z) : Z := foldr Z.mul 1 l.

End Functions.

(** * Proofs *)

(** ** Arithmetic of [int] *)

Module GoIntFacts.
Import GoInt.

Lemma wrap_small z : in_range z → wrap z = z.
Proof.
  unfold in_range, int_min, int_max, wrap. intros Hz.
  rewrite Z.mod_small by lia. lia.
Qed.

Lemma wrap_in_range z : in_range (wrap z).
Proof.
  unfold in_range, int_min, int_max, wrap.
  pose proof (Z.mod_pos_bound (z + 2 ^ 63) (2 ^ 64)). lia.
Qed.

Lemma succ_small a : 0 ≤ a → a < int_max → add a 1 = a + 1.
Proof.
  intros ??. apply wrap_small. unfold in_range, int_min, int_max in *. lia.
Qed.

Lemma succ_le_max a : add a 1 ≤ int_max.
Proof. apply wrap_in_range. Qed.

Lemma square_small a : 0 ≤ a → a ≤ 3037000499 → mul a a = a * a.
Proof.
  intros ??. apply wrap_small. unfold in_range, int_min, int_max. nia.
Qed.

End GoIntFacts.

(** ** Channel operations and channel histories *)

Lemma chan_send_Next g c v c' :
  chan_send g c v = Next c' →
  chan_closed c = false ∧ (length (chan_buf c) < chan_cap c)%nat
  ∧ c' = Chan (chan_cap c) (chan_buf c ++ [v]) false (chan_log c ++ [(g, OpSend v)]).
Proof.
  unfold chan_send. destruct (chan_closed c); [done|].
  case_decide; [|done]. by intros [= <-].
Qed.

Lemma chan_recv_Some g c v c' :
  chan_recv g c = Next (Some v, c') →
  ∃ rest, chan_buf c = v :: rest
  ∧ c' = Chan (chan_cap c) rest (chan_closed c) (chan_log c ++ [(g, OpRecv v)]).
Proof.
  unfold chan_recv. destruct (chan_buf c) as [|x rest].
  - destruct (chan_closed c); done.
  - intros [= -> <-]. eauto.
Qed.

Lemma chan_recv_None g c c' :
  chan_recv g c = Next (None, c') →
  chan_buf c = [] ∧ chan_closed c = true ∧ c' = c.
Proof.
  unfold chan_recv. destruct (chan_buf c) as [|x rest]; [|done].
  destruct (chan_closed c); [|done]. by intros [= <-].
Qed.

Lemma chan_recv_Panic g c : chan_recv g c ≠ Panic.
Proof.
  unfold chan_recv. destruct (chan_buf c); [|done]. by destruct (chan_closed c).
Qed.

Lemma chan_close_Next g c c' :
  chan_close g c = Next c' →
  chan_closed c = false
  ∧ c' = Chan (chan_cap c) (chan_buf c) true (chan_log c ++ [(g, OpClose)]).
Proof. unfold chan_close. destruct (chan_closed c); [done|]. by intros [= <-]. Qed.

Lemma writes_snoc log e :
  writes (log ++ [e]) = writes log ++ (if is_write e then [e] else []).
Proof.
  unfold writes. rewrite filter_app. f_equal.
  rewrite filter_cons, filter_nil. destruct (is_write e); by case_decide.
Qed.

Lemma dequeued_snoc log g op :
  dequeued (log ++ [(g, op)])
  = dequeued log ++ match op with OpRecv v => [v] | _ => [] end.
Proof. unfold dequeued. rewrite omap_app. by destruct op. Qed.

Lemma closes_snoc log g op :
  closes (log ++ [(g, op)])
  = closes log ++ match op with OpClose => [g] | _ => [] end.
Proof. unfold closes. rewrite omap_app. by destruct op. Qed.

Lemma sumZ_Permutation l k : l ≡ₚ k → sumZ l = sumZ k.
Proof. induction 1; simpl; lia. Qed.

(** ** Facts shared by the two machines *)

Lemma seqZ_snoc j : 1 ≤ j → seqZ 1 j = seqZ 1 (j - 1) ++ [j].
Proof.
  intros Hj. replace j with ((j - 1) + 1) at 1 by lia.
  rewrite seqZ_app by lia. f_equal.
  replace (1 + (j - 1)) with j by lia.
  rewrite seqZ_cons by lia. by rewrite seqZ_nil by lia.
Qed.

Lemma seqZ_prefix k N : k ≤ N ∨ k = 0 → seqZ 1 k `prefix_of` seqZ 1 N.
Proof.
  intros Hk. destruct (decide (0 ≤ k)) as [Hk0|Hk0].
  - destruct (decide (k ≤ N)) as [Hle|Hle].
    + exists (seqZ (1 + k) (N - k)).
      replace N with (k + (N - k)) at 1 by lia. by rewrite seqZ_app by lia.
    + replace k with 0 by lia. rewrite (seqZ_nil 1 0) by lia. apply prefix_nil.
  - rewrite seqZ_nil by lia. apply prefix_nil.
Qed.

Lemma script_prefix g (l full : list Z) (b : bool) :
  l `prefix_of` full → (b = true → l = full) →
  ((λ v, (g, OpSend v)) <$> l) ++ (if b then [(g, OpClose)] else [])
  `prefix_of` source_script g full.
Proof.
  intros Hpre Hb. unfold source_script. destruct b.
  - by rewrite (Hb eq_refl).
  - destruct Hpre as [rest ->].
    rewrite app_nil_r, fmap_app, <-(assoc_L (++)). by apply prefix_app_r.
Qed.

(** ** The worker pool *)

Module PoolProofs.
Import Pool.

(** The transformation doubles every job that is not close to the top of
    [int]. *)
Lemma transform_doubles job : 0 ≤ job → job < 2 ^ 62 → transform job = 2 * job.
Proof.
  intros ??. unfold transform, GoInt.mul.
  rewrite GoIntFacts.wrap_small; [lia|].
  unfold GoInt.in_range, GoInt.int_min, GoInt.int_max. lia.
Qed.

(** Distinct jobs have distinct results, also where the doubling wraps. *)
Lemma transform_inj a b :
  1 ≤ a → a ≤ GoInt.int_max → 1 ≤ b → b ≤ GoInt.int_max →
  transform a = transform b → a = b.
Proof.
  unfold transform, GoInt.mul, GoInt.wrap, GoInt.int_max. intros ???? Heq.
  assert ((a * 2 + 2 ^ 63) `mod` 2 ^ 64 = (b * 2 + 2 ^ 63) `mod` 2 ^ 64) as Hm by lia.
  clear Heq. Z.div_mod_to_equations. lia.
Qed.

Lemma results_distinct N : N ≤ GoInt.int_max → NoDup (transform <$> seqZ 1 N).
Proof.
  intros HN. apply NoDup_fmap_2_strong; [|apply NoDup_seqZ].
  intros a b Ha%elem_of_seqZ Hb%elem_of_seqZ. apply transform_inj; lia.
Qed.

(** *** The worker list under the update of one worker *)

Lemma held_snoc ws w p :
  held (ws ++ [(w, p)]) = held ws ++ match p with WWork job => [job] | _ => [] end.
Proof. unfold held. rewrite omap_app. by destruct p. Qed.

Lemma held_insert ws i id p q :
  ws !! i = Some (id, p) →
  held (<[i := (id, q)]> ws)
  = held (take i ws) ++ match q with WWork job => [job] | _ => [] end
    ++ held (drop (S i) ws).
Proof.
  intros Hi. rewrite insert_take_drop by eauto using lookup_lt_Some.
  unfold held. rewrite omap_app. by destruct q.
Qed.

Lemma held_lookup ws i id p :
  ws !! i = Some (id, p) →
  held ws
  = held (take i ws) ++ match p with WWork job => [job] | _ => [] end
    ++ held (drop (S i) ws).
Proof.
  intros Hi. rewrite <-(take_drop_middle ws i (id, p)) at 1 by done.
  unfold held. rewrite omap_app. by destruct p.
Qed.

Lemma held_cons id p ws :
  held ((id, p) :: ws)
  = match p with WWork job => job :: held ws | _ => held ws end.
Proof. by destruct p. Qed.

Lemma held_length ws : (length (held ws) ≤ length ws)%nat.
Proof.
  induction ws as [|[id p] ws IH]; [done|].
  rewrite held_cons. destruct p; simpl; lia.
Qed.

Lemma held_all_working ws :
  Forall (λ w, ∃ job, w.2 = WWork job) ws → length (held ws) = length ws.
Proof.
  induction 1 as [|[id p] ws [job Hp] _ IH]; [done|].
  simpl in Hp. subst p. rewrite held_cons. simpl. by rewrite IH.
Qed.

Lemma held_none_working ws :
  Forall (λ w, ∀ job, w.2 ≠ WWork job) ws → held ws = [].
Proof.
  induction 1 as [|[id p] ws Hp _ IH]; [done|].
  rewrite held_cons. simpl in Hp. destruct p; [done| |done].
  by destruct (Hp job).
Qed.

Lemma live_snoc ws w p :
  live (ws ++ [(w, p)]) = (live ws + if decide (p = WExit) then 0 else 1)%nat.
Proof.
  unfold live. rewrite filter_app, length_app, filter_cons, filter_nil. simpl.
  destruct (decide (p = WExit)) as [->|Hp].
  - rewrite decide_False by (intros H; by apply H). simpl. lia.
  - rewrite decide_True by done. simpl. lia.
Qed.

Lemma live_split ws i id p :
  ws !! i = Some (id, p) →
  live ws = (live (take i ws) + (if decide (p = WExit) then 0 else 1)
             + live (drop (S i) ws))%nat.
Proof.
  intros Hi. rewrite <-(take_drop_middle ws i (id, p)) at 1 by done.
  unfold live. rewrite filter_app, length_app, filter_cons. simpl.
  destruct (decide (p = WExit)) as [->|Hp].
  - rewrite decide_False by (intros H; by apply H). lia.
  - rewrite decide_True by done. simpl. lia.
Qed.

Lemma live_insert ws i id p q :
  ws !! i = Some (id, p) →
  live (<[i := (id, q)]> ws)
  = (live (take i ws) + (if decide (q = WExit) then 0 else 1)
     + live (drop (S i) ws))%nat.
Proof.
  intros Hi. rewrite insert_take_drop by eauto using lookup_lt_Some.
  unfold live. rewrite filter_app, length_app, filter_cons. simpl.
  destruct (decide (q = WExit)) as [->|Hp].
  - rewrite decide_False by (intros H; by apply H). lia.
  - rewrite decide_True by done. simpl. lia.
Qed.


Lemma held_insert_perm ws i id p q :
  ws !! i = Some (id, p) →
  held (<[i := (id, q)]> ws) ++ match p with WWork job => [job] | _ => [] end
  ≡ₚ held ws ++ match q with WWork job => [job] | _ => [] end.
Proof.
  intros Hi. rewrite (held_insert _ _ _ _ _ Hi), (held_lookup _ _ _ _ Hi).
  rewrite <-!(assoc_L (++)).
  apply Permutation_app_head.
  rewrite (Permutation_app_comm (held (drop (S i) ws))
             (match q with WWork job => [job] | _ => [] end)).
  rewrite !(assoc_L (++)).
  rewrite (Permutation_app_comm (_ ++ held (drop (S i) ws))
             (match p with WWork job => [job] | _ => [] end)).
  by rewrite !(assoc_L (++)).
Qed.

(** *** The invariant *)

Section Invariant.
Variables W N : Z.
Hypothesis HW : W < GoInt.int_max.
Hypothesis HN : N < GoInt.int_max.

Lemma inv_init : Inv W N pool_init.
Proof.
  constructor; simpl; try done; try lia.
  repeat split; try done; lia.
Qed.

Lemma sent_exit_loop j :
  1 ≤ j → j ≤ Z.max N 0 + 1 → ¬ j ≤ N → seqZ 1 (j - 1) = seqZ 1 N.
Proof.
  intros ???. destruct (decide (0 ≤ N)).
  - replace j with (N + 1) by lia. f_equal. lia.
  - by rewrite !seqZ_nil by lia.
Qed.

Lemma no_exit_while_open (closed closed' : bool) (buf buf' : list Z) ws :
  closed = false ∨ buf ≠ [] →
  Forall (λ w : Z * worker_pc, w.2 = WExit → closed = true ∧ buf = []) ws →
  Forall (λ w : Z * worker_pc, w.2 = WExit → closed' = true ∧ buf' = []) ws.
Proof.
  intros Hopen HF. eapply Forall_impl; [done|]. intros w Hw Hx.
  destruct (Hw Hx) as [-> ->]. by destruct Hopen.
Qed.

Lemma inv_step_main s s' : Inv W N s → step_main W N s = Next s' → Inv W N s'.
Proof.
  intros [Hcj Hcr Hlj Hlr Hro Hrl Hwr Hfifo Hflow Hexit Hpc].
  unfold step_main. destruct (pc s) as [w|j| |r|] eqn:Epc.
  - (* spawning *)
    destruct Hpc as (Hw1 & Hw2 & Hlen & Hopen & Hpr).
    case_decide as Hle; intros [= <-].
    + constructor; simpl; try done.
      * rewrite held_snoc. by rewrite app_nil_r.
      * apply Forall_app. split; [done|]. by repeat constructor.
      * rewrite GoIntFacts.succ_small by lia.
        rewrite length_app. simpl. repeat split; try done; lia.
    + constructor; simpl; try done.
      repeat split; try done; lia.
  - (* sending the jobs *)
    destruct Hpc as (Hj1 & Hj2 & Hlen & Hopen & Hpr).
    case_decide as Hle.
    + destruct (chan_send Main (jobs s) j) as [c| |] eqn:Esend; [|done..].
      intros [= <-].
      apply chan_send_Next in Esend as (_ & Hlt & ->).
      rewrite GoIntFacts.succ_small by lia.
      constructor; simpl; try done.
      * rewrite length_app. simpl. lia.
      * rewrite writes_snoc. simpl. rewrite Hwr, Hopen. simpl.
        replace (j + 1 - 1) with j by lia.
        rewrite (seqZ_snoc j) by lia. rewrite fmap_app. simpl.
        by rewrite !app_nil_r.
      * rewrite dequeued_snoc, app_nil_r.
        replace (j + 1 - 1) with j by lia.
        rewrite (seqZ_snoc j) by lia. rewrite (assoc_L (++)). by rewrite Hfifo.
      * by rewrite dequeued_snoc, app_nil_r.
      * eapply no_exit_while_open; [|done]. by left.
      * repeat split; try done; lia.
    + intros [= <-]. constructor; simpl; try done.
      * rewrite Hwr. simpl. by rewrite sent_exit_loop.
      * rewrite Hfifo. simpl. by rewrite sent_exit_loop.
  - (* closing *)
    destruct Hpc as (Hlen & Hopen & Hpr).
    destruct (chan_close Main (jobs s)) as [c| |] eqn:Eclose; [|done..].
    intros [= <-]. apply chan_close_Next in Eclose as (_ & ->).
    constructor; simpl; try done.
    + rewrite writes_snoc. simpl. rewrite Hwr, Hopen. simpl.
      by rewrite app_nil_r.
    + by rewrite dequeued_snoc, app_nil_r.
    + by rewrite dequeued_snoc, app_nil_r.
    + eapply no_exit_while_open; [|done]. by left.
    + rewrite Hpr. simpl. repeat split; try done; lia.
  - (* collecting *)
    destruct Hpc as (Hr1 & Hr2 & Hlen & Hcl & Hpr).
    case_decide as Hle.
    + destruct (chan_recv Main (results s)) as [[[v|] c]| |] eqn:Erecv; [| |done..].
      * intros [= <-].
        apply chan_recv_Some in Erecv as (rest & Hbuf & ->).
        rewrite GoIntFacts.succ_small by lia.
        constructor; simpl; try done.
        -- rewrite Hbuf in Hlr. simpl in Hlr. lia.
        -- by rewrite closes_snoc, app_nil_r.
        -- rewrite Hflow, Hbuf. apply Permutation_app_head.
           simpl. rewrite (assoc_L (++)). apply Permutation_cons_append.
        -- rewrite length_app. simpl. repeat split; try done; lia.
      * apply chan_recv_None in Erecv as (_ & Hcl' & _). congruence.
    + intros [= <-]. constructor; simpl; try done.
      repeat split; try done; lia.
  - done.
Qed.

Lemma inv_step_worker i s s' :
  Inv W N s → step_worker i s = Next s' → Inv W N s'.
Proof.
  intros [Hcj Hcr Hlj Hlr Hro Hrl Hwr Hfifo Hflow Hexit Hpc].
  unfold step_worker.
  destruct (workers s !! i) as [[id [|job|]]|] eqn:Hi; [| |done..].
  - (* at the receive *)
    destruct (chan_recv (Worker i) (jobs s)) as [[[job|] c]| |] eqn:Erecv;
      [| |done..]; intros [= <-].
    + apply chan_recv_Some in Erecv as (rest & Hbuf & ->).
      constructor; simpl; try done.
      * rewrite Hbuf in Hlj. simpl in Hlj. lia.
      * rewrite writes_snoc. simpl. by rewrite app_nil_r.
      * rewrite dequeued_snoc, <-(assoc_L (++)). simpl. by rewrite <-Hbuf.
      * rewrite dequeued_snoc, fmap_app, Hflow. simpl.
        pose proof (held_insert_perm _ _ _ _ (WWork job) Hi) as Hp.
        simpl in Hp. rewrite app_nil_r in Hp. rewrite Hp, fmap_app. simpl.
        rewrite <-!(assoc_L (++)). apply Permutation_app_head.
        simpl. rewrite (assoc_L (++)). symmetry. apply Permutation_cons_append.
      * apply Forall_insert; [|done].
        eapply no_exit_while_open; [|done]. right. by rewrite Hbuf.
      * rewrite length_insert. by destruct (pc s).
    + apply chan_recv_None in Erecv as (Hbuf & Hcl & ->).
      constructor; simpl; try done.
      * pose proof (held_insert_perm _ _ _ _ WExit Hi) as Hp.
        simpl in Hp. rewrite !app_nil_r in Hp. by rewrite Hp.
      * by apply Forall_insert.
      * rewrite length_insert. by destruct (pc s).
  - (* holding a job *)
    destruct (chan_send (Worker i) (results s) (transform job)) as [c| |] eqn:Esend;
      [|done..]; intros [= <-].
    apply chan_send_Next in Esend as (_ & Hlt & ->).
    constructor; simpl; try done.
    + rewrite length_app. simpl. lia.
    + by rewrite closes_snoc, app_nil_r.
    + rewrite Hflow.
      pose proof (held_insert_perm _ _ _ _ WRecv Hi) as Hp.
      simpl in Hp. rewrite app_nil_r in Hp. rewrite <-Hp, fmap_app. simpl.
      rewrite <-!(assoc_L (++)). apply Permutation_app_head.
      rewrite !(assoc_L (++)). apply Permutation_app_tail, Permutation_app_comm.
    + by apply Forall_insert.
    + rewrite length_insert. by destruct (pc s).
Qed.

Lemma inv_step g s s' : Inv W N s → step W N g s = Next s' → Inv W N s'.
Proof.
  destruct g; simpl; eauto using inv_step_main, inv_step_worker; done.
Qed.

Lemma inv_reachable s : reachable W N s → Inv W N s.
Proof. induction 1; eauto using inv_init, inv_step. Qed.

Lemma run_reachable sched s0 s :
  reachable W N s0 → run W N sched s0 = Some s → reachable W N s.
Proof.
  revert s0. induction sched as [|g sched IH]; simpl; intros s0 H0.
  - by intros [= <-].
  - destruct (step W N g s0) as [s1| |] eqn:E; [|done..].
    apply IH. by eapply reach_step.
Qed.

Lemma reachable_run s : reachable W N s → ∃ sched, run W N sched pool_init = Some s.
Proof.
  assert (Hsnoc : ∀ sched s0 s1 g s2,
    run W N sched s0 = Some s1 → step W N g s1 = Next s2 →
    run W N (sched ++ [g]) s0 = Some s2).
  { induction sched as [|g' sched IH]; simpl; intros s0 s1 g s2.
    - intros [= ->] ->. done.
    - destruct (step W N g' s0); [|done..]. apply IH. }
  induction 1 as [|s g s' _ [sched IH] Hstep].
  - by exists [].
  - exists (sched ++ [g]). eauto.
Qed.

(** *** Every step lowers the measure *)

Lemma measure_step_main s s' :
  Inv W N s → step_main W N s = Next s' → (measure W N s' < measure W N s)%nat.
Proof.
  intros [_ _ _ _ _ _ _ _ _ _ Hpc]. unfold step_main, measure.
  destruct (pc s) as [w|j| |r|] eqn:Epc.
  - destruct Hpc as (Hw1 & Hw2 & _). case_decide as Hle; intros [= <-]; simpl.
    + rewrite GoIntFacts.succ_small by lia.
      rewrite held_snoc, live_snoc, app_nil_r. simpl. lia.
    + lia.
  - destruct Hpc as (Hj1 & Hj2 & _). case_decide as Hle.
    + destruct (chan_send Main (jobs s) j) as [c| |] eqn:Esend; [|done..].
      intros [= <-]. apply chan_send_Next in Esend as (_ & _ & ->). simpl.
      rewrite GoIntFacts.succ_small by lia. rewrite length_app. simpl. lia.
    + intros [= <-]. simpl. lia.
  - destruct (chan_close Main (jobs s)) as [c| |] eqn:Eclose; [|done..].
    intros [= <-]. apply chan_close_Next in Eclose as (_ & ->). simpl. lia.
  - destruct Hpc as (Hr1 & Hr2 & _). case_decide as Hle.
    + destruct (chan_recv Main (results s)) as [[v c]| |] eqn:Erecv; [|done..].
      intros [= <-]. simpl. rewrite GoIntFacts.succ_small by lia. lia.
    + intros [= <-]. simpl. lia.
  - done.
Qed.

Lemma measure_step_worker i s s' :
  step_worker i s = Next s' → (measure W N s' < measure W N s)%nat.
Proof.
  unfold step_worker, measure.
  destruct (workers s !! i) as [[id [|job|]]|] eqn:Hi; [| |done..].
  - destruct (chan_recv (Worker i) (jobs s)) as [[[job|] c]| |] eqn:Erecv;
      [| |done..]; intros [= <-]; simpl.
    + apply chan_recv_Some in Erecv as (rest & Hbuf & ->). simpl.
      rewrite (held_insert _ _ _ _ (WWork job) Hi), (held_lookup _ _ _ _ Hi).
      rewrite (live_insert _ _ _ _ (WWork job) Hi), (live_split _ _ _ _ Hi).
      rewrite Hbuf, !length_app. simpl. lia.
    + apply chan_recv_None in Erecv as (_ & _ & ->).
      rewrite (held_insert _ _ _ _ WExit Hi), (held_lookup _ _ _ _ Hi).
      rewrite (live_insert _ _ _ _ WExit Hi), (live_split _ _ _ _ Hi).
      rewrite !length_app. simpl. lia.
  - destruct (chan_send (Worker i) (results s) (transform job)) as [c| |] eqn:Esend;
      [|done..]; intros [= <-]; simpl.
    rewrite (held_insert _ _ _ _ WRecv Hi), (held_lookup _ _ _ _ Hi).
    rewrite (live_insert _ _ _ _ WRecv Hi), (live_split _ _ _ _ Hi).
    rewrite !length_app. simpl. lia.
Qed.

Lemma measure_step g s s' :
  Inv W N s → step W N g s = Next s' → (measure W N s' < measure W N s)%nat.
Proof.
  destruct g; simpl; eauto using measure_step_main, measure_step_worker; done.
Qed.

(** A schedule that runs is no longer than the measure of its first state. *)
Lemma run_length sched s0 s :
  Inv W N s0 → run W N sched s0 = Some s →
  (length sched + measure W N s ≤ measure W N s0)%nat.
Proof.
  revert s0. induction sched as [|g sched IH]; simpl; intros s0 H0.
  - intros [= <-]. lia.
  - destruct (step W N g s0) as [s1| |] eqn:E; [|done..]. intros Hrun.
    pose proof (measure_step _ _ _ H0 E).
    pose proof (IH s1 (inv_step _ _ _ H0 E) Hrun). lia.
Qed.

(** *** Where the pool can stop *)

Lemma held_working ws i id job :
  ws !! i = Some (id, WWork job) → (1 ≤ length (held ws))%nat.
Proof.
  intros Hi. rewrite (held_lookup _ _ _ _ Hi), !length_app. simpl. lia.
Qed.

Lemma flow_length s :
  Inv W N s →
  length (dequeued (chan_log (jobs s)))
  = (length (held (workers s)) + length (chan_buf (results s))
     + length (printed s))%nat.
Proof.
  intros HI. pose proof (Permutation_length (inv_flow _ _ _ HI)) as H.
  rewrite !length_app, !length_fmap in H. lia.
Qed.

Lemma fifo_length s :
  Inv W N s →
  (length (dequeued (chan_log (jobs s))) + length (chan_buf (jobs s)))%nat
  = length (sent N (pc s)).
Proof. intros HI. by rewrite <-(inv_fifo _ _ _ HI), length_app. Qed.

(** What a blocked worker waits for. *)
Lemma stuck_worker s i id p :
  Inv W N s → stuck W N s → workers s !! i = Some (id, p) →
  match p with
  | WRecv => chan_buf (jobs s) = [] ∧ chan_closed (jobs s) = false
  | WWork _ => (100 ≤ length (chan_buf (results s)))%nat
  | WExit => True
  end.
Proof.
  intros HI Hst Hi. specialize (Hst (Worker i)).
  unfold enabled in Hst. simpl in Hst. unfold step_worker in Hst.
  rewrite Hi in Hst. destruct p as [|job|]; [| |done].
  - unfold chan_recv in Hst. destruct (chan_buf (jobs s)); [|done].
    by destruct (chan_closed (jobs s)).
  - unfold chan_send in Hst. rewrite (inv_results_open _ _ _ HI) in Hst.
    rewrite (inv_cap_results _ _ _ HI) in Hst. case_decide; [done|lia].
Qed.

Lemma stuck_done s :
  1 ≤ W → N ≤ 200 + W → Inv W N s → stuck W N s →
  pc s = MDone ∧ all_exited s.
Proof.
  intros HW1 HNW HI Hst.
  pose proof (stuck_worker s) as Hwk.
  pose proof (flow_length s HI) as Hflow.
  pose proof (fifo_length s HI) as Hfifo.
  pose proof (inv_pc _ _ _ HI) as Hpc.
  pose proof (inv_exit _ _ _ HI) as Hexit.
  pose proof (Hst Main) as Hmain.
  unfold enabled in Hmain. simpl in Hmain. unfold step_main in Hmain.
  destruct (pc s) as [w|j| |r|] eqn:Epc.
  - by case_decide.
  - destruct Hpc as (Hj1 & Hj2 & Hlen & Hopen & Hpr).
    case_decide as Hle; [|done]. exfalso.
    unfold chan_send in Hmain. rewrite Hopen, (inv_cap_jobs _ _ _ HI) in Hmain.
    case_decide as Hfull; [done|].
    assert (Hall : Forall (λ w, ∃ job, w.2 = WWork job) (workers s)).
    { apply Forall_lookup. intros i [id p] Hi.
      pose proof (Hwk i id p HI Hst Hi) as Hp.
      destruct p as [|job|]; simpl.
      - destruct Hp as [Hp _]. rewrite Hp in Hfull. simpl in Hfull. lia.
      - eauto.
      - pose proof (Forall_lookup_1 _ _ _ _ Hexit Hi) as Hx.
        destruct Hx as [Hx _]; [done|]. congruence. }
    pose proof (held_all_working _ Hall) as Hheld.
    destruct (lookup_lt_is_Some_2 (workers s) 0) as [[id p] Hi]; [lia|].
    pose proof (Forall_lookup_1 _ _ _ _ Hall Hi) as [job Hp]. simpl in Hp. subst p.
    pose proof (Hwk 0%nat id _ HI Hst Hi) as Hres. simpl in Hres.
    simpl in Hfifo. rewrite length_seqZ in Hfifo. rewrite Hpr in Hflow.
    simpl in Hflow. lia.
  - unfold chan_close in Hmain. destruct Hpc as (_ & Hopen & _).
    by rewrite Hopen in Hmain.
  - destruct Hpc as (Hr1 & Hr2 & Hlen & Hcl & Hpr).
    case_decide as Hle; [|done]. exfalso.
    unfold chan_recv in Hmain.
    destruct (chan_buf (results s)) as [|v rest] eqn:Hbuf; [|done].
    assert (Hnone : Forall (λ w, ∀ job, w.2 ≠ WWork job) (workers s)).
    { apply Forall_lookup. intros i [id p] Hi job' Hp'. simpl in Hp'. subst p.
      pose proof (Hwk i id _ HI Hst Hi) as Hp. simpl in Hp. lia. }
    rewrite (held_none_working _ Hnone) in Hflow.
    simpl in Hfifo, Hflow. rewrite length_seqZ in Hfifo.
    destruct (lookup_lt_is_Some_2 (workers s) 0) as [[id p] Hi]; [lia|].
    pose proof (Hwk 0%nat id p HI Hst Hi) as Hp.
    destruct p as [|job|].
    + destruct Hp as [Hp _]. rewrite Hp in Hfifo. simpl in Hfifo. lia.
    + simpl in Hp. lia.
    + pose proof (Forall_lookup_1 _ _ _ _ Hexit Hi) as Hx.
      destruct Hx as [_ Hx]; [done|]. rewrite Hx in Hfifo. simpl in Hfifo. lia.
  - split; [done|]. destruct Hpc as (Hlen & Hcl & Hpr).
    apply Forall_lookup. intros i [id p] Hi. simpl.
    pose proof (Hwk i id p HI Hst Hi) as Hp.
    destruct p as [|job|]; [| |done].
    + destruct Hp as [_ Hp]. congruence.
    + pose proof (held_working _ _ _ _ Hi).
      simpl in Hfifo. rewrite length_seqZ in Hfifo. lia.
Qed.

(** *** The first-enabled scheduler reaches a state where nothing moves *)

Lemma enabled_goroutine s g : enabled W N s g = true → g ∈ goroutines s.
Proof.
  unfold enabled, goroutines. destruct g as [|i| |]; simpl; [|  |done..].
  - intros _. apply list_elem_of_here.
  - unfold step_worker. destruct (workers s !! i) as [x|] eqn:Hi; [|done].
    intros _. apply list_elem_of_further, list_elem_of_fmap.
    exists i. split; [done|]. apply elem_of_seq.
    pose proof (lookup_lt_Some _ _ _ Hi). lia.
Qed.

Lemma find_none_stuck s :
  list_find (λ g, enabled W N s g = true) (goroutines s) = None → stuck W N s.
Proof.
  intros Hnone g. apply list_find_None in Hnone.
  destruct (enabled W N s g) eqn:E; [|done].
  apply enabled_goroutine in E as Hin.
  rewrite Forall_forall in Hnone. by destruct (Hnone g Hin).
Qed.

Lemma stuckb_stuck s : stuckb W N s = true ↔ stuck W N s.
Proof.
  unfold stuckb. rewrite forallb_forall. split.
  - intros Hall g. destruct (enabled W N s g) eqn:E; [|done].
    pose proof (enabled_goroutine _ _ E) as Hin.
    apply list_elem_of_In, Hall in Hin. by rewrite E in Hin.
  - intros Hst g _. by rewrite Hst.
Qed.

Lemma run_first_stuck fuel s :
  Inv W N s → (measure W N s ≤ fuel)%nat →
  stuck W N (run_first W N fuel s)
  ∧ ∃ sched, run W N sched s = Some (run_first W N fuel s).
Proof.
  revert s. induction fuel as [|fuel IH]; intros s HI Hfuel; cbn [run_first].
  - split; [|by exists []]. intros g.
    destruct (enabled W N s g) eqn:E; [|done]. unfold enabled in E.
    destruct (step W N g s) as [s'| |] eqn:Es; [|done..].
    pose proof (measure_step _ _ _ HI Es). lia.
  - destruct (list_find _ _) as [[k g]|] eqn:Efind.
    + apply list_find_Some in Efind as (_ & Hen & _). unfold enabled in Hen.
      destruct (step W N g s) as [s'| |] eqn:Es; [|done..].
      pose proof (measure_step _ _ _ HI Es).
      destruct (IH s' (inv_step _ _ _ HI Es)) as [Hst [sched Hrun]]; [lia|].
      split; [done|]. exists (g :: sched). cbn [run]. by rewrite Es.
    + split; [by apply find_none_stuck|by exists []].
Qed.

(** *** The results of a finished pool *)

Lemma done_drained s :
  Inv W N s → pc s = MDone →
  dequeued (chan_log (jobs s)) = seqZ 1 N
  ∧ chan_buf (jobs s) = [] ∧ held (workers s) = [] ∧ chan_buf (results s) = []
  ∧ length (printed s) = Z.to_nat N.
Proof.
  intros HI Epc.
  pose proof (flow_length s HI) as Hflow.
  pose proof (fifo_length s HI) as Hfifo.
  pose proof (inv_pc _ _ _ HI) as Hpc.
  pose proof (inv_fifo _ _ _ HI) as Hq.
  rewrite Epc in *. simpl in *. destruct Hpc as (_ & _ & Hpr).
  rewrite length_seqZ in Hfifo.
  assert (chan_buf (jobs s) = []) as Hb by (apply length_zero_iff_nil; lia).
  rewrite Hb, app_nil_r in Hq.
  repeat split; try done; try (apply length_zero_iff_nil; lia). lia.
Qed.

Lemma done_results s :
  Inv W N s → pc s = MDone → printed s ≡ₚ transform <$> seqZ 1 N.
Proof.
  intros HI Epc. destruct (done_drained s HI Epc) as (Hd & _ & Hh & Hr & _).
  pose proof (inv_flow _ _ _ HI) as Hflow.
  by rewrite Hd, Hh, Hr in Hflow.
Qed.

(** *** A single worker keeps the order of the jobs *)






End Invariant.

(** *** Counts at the top of [int] *)

Lemma step_worker_pc i s s' : step_worker i s = Next s' → pc s' = pc s.
Proof.
  unfold step_worker. destruct (workers s !! i) as [[id [|job|]]|]; [| |done..].
  - destruct (chan_recv _ _) as [[[job|] c]| |]; [| |done..]; by intros [= <-].
  - destruct (chan_send _ _ _); [|done..]. by intros [= <-].
Qed.

(** When a count is [int_max] or more its loop never ends: the counter
    wraps around before it can exceed the count. *)
Lemma loops_forever W N s :
  GoInt.int_max ≤ W ∨ GoInt.int_max ≤ N → reachable W N s →
  match pc s with
  | MSpawn w => w ≤ GoInt.int_max
  | MSend j => j ≤ GoInt.int_max ∧ GoInt.int_max ≤ N
  | _ => False
  end.
Proof.
  intros Hmax. induction 1 as [|s g s' Hreach IH Hstep]; [done|].
  destruct g as [|i| |]; simpl in Hstep; [| |done..].
  - unfold step_main in Hstep. destruct (pc s) as [w|j| |r|]; [| |done..].
    + case_decide; injection Hstep as <-; simpl.
      * apply GoIntFacts.succ_le_max.
      * split; [done|lia].
    + destruct IH as [Hj HN]. rewrite decide_True in Hstep by lia.
      destruct (chan_send Main (jobs s) j); [|done..].
      injection Hstep as <-. simpl. split; [apply GoIntFacts.succ_le_max|done].
  - by rewrite (step_worker_pc _ _ _ Hstep).
Qed.

(** The invariant at every state from which the main goroutine has returned. *)
Lemma done_inv W N s : reachable W N s → pc s = MDone → Inv W N s.
Proof.
  intros Hreach Epc.
  destruct (decide (W < GoInt.int_max)) as [HW|HW];
    [destruct (decide (N < GoInt.int_max)) as [HN|HN]|].
  - by apply inv_reachable.
  - pose proof (loops_forever W N s ltac:(lia) Hreach) as H. by rewrite Epc in H.
  - pose proof (loops_forever W N s ltac:(lia) Hreach) as H. by rewrite Epc in H.
Qed.

(** *** No goroutine of the pool panics *)

Lemma no_panic W N g s : Inv W N s → step W N g s ≠ Panic.
Proof.
  intros HI. pose proof (inv_pc _ _ _ HI) as Hpc.
  destruct g as [|i| |]; simpl; [| |done..].
  - unfold step_main. destruct (pc s) as [w|j| |r|]; [| | | |done].
    + by case_decide.
    + destruct Hpc as (_ & _ & _ & Hopen & _). case_decide; [|done].
      unfold chan_send. rewrite Hopen. by case_decide.
    + destruct Hpc as (_ & Hopen & _). unfold chan_close. by rewrite Hopen.
    + case_decide; [|done].
      pose proof (chan_recv_Panic Main (results s)).
      by destruct (chan_recv Main (results s)) as [[? ?]| |].
  - unfold step_worker. destruct (workers s !! i) as [[id [|job|]]|]; [| |done..].
    + pose proof (chan_recv_Panic (Worker i) (jobs s)).
      by destruct (chan_recv (Worker i) (jobs s)) as [[[?|] ?]| |].
    + unfold chan_send. rewrite (inv_results_open _ _ _ HI). by case_decide.
Qed.

(** *** The writes to the jobs channel *)

Lemma closes_cons g op log :
  closes ((g, op) :: log)
  = match op with OpClose => g :: closes log | _ => closes log end.
Proof. by destruct op. Qed.

Lemma closes_script g (l : list Z) (b : bool) :
  closes (((λ v, (g, OpSend v)) <$> l) ++ (if b then [(g, OpClose)] else []))
  = if b then [g] else [].
Proof.
  induction l as [|x l IH].
  - by destruct b.
  - by rewrite fmap_cons, <-app_comm_cons, closes_cons.
Qed.

Lemma sent_prefix W N s :
  Inv W N s → ∃ k, sent N (pc s) = seqZ 1 k ∧ (k ≤ N ∨ k = 0).
Proof.
  intros HI. pose proof (inv_pc _ _ _ HI) as Hpc.
  destruct (pc s) as [w|j| |r|]; simpl.
  - exists 0. split; [done|lia].
  - exists (j - 1). split; [done|lia].
  - exists (Z.max N 0). split; [|lia].
    destruct (decide (0 ≤ N)); [f_equal; lia|]. by rewrite !seqZ_nil by lia.
  - exists (Z.max N 0). split; [|lia].
    destruct (decide (0 ≤ N)); [f_equal; lia|]. by rewrite !seqZ_nil by lia.
  - exists (Z.max N 0). split; [|lia].
    destruct (decide (0 ≤ N)); [f_equal; lia|]. by rewrite !seqZ_nil by lia.
Qed.

Lemma sent_closed W N s :
  Inv W N s → chan_closed (jobs s) = true → sent N (pc s) = seqZ 1 N.
Proof.
  intros HI Hcl. pose proof (inv_pc _ _ _ HI) as Hpc.
  destruct (pc s); try done; destruct Hpc as (?&?&?&?&?) || destruct Hpc as (?&?&?);
    congruence.
Qed.

(** *** What a step of a worker leaves alone *)

Lemma step_worker_frame i s s' :
  step_worker i s = Next s' →
  chan_closed (jobs s') = chan_closed (jobs s)
  ∧ writes (chan_log (jobs s')) = writes (chan_log (jobs s))
  ∧ chan_buf (jobs s') `suffix_of` chan_buf (jobs s)
  ∧ printed s' = printed s.
Proof.
  unfold step_worker. destruct (workers s !! i) as [[id [|job|]]|]; [| |done..].
  - destruct (chan_recv _ _) as [[[job|] c]| |] eqn:Erecv; [| |done..];
      intros [= <-]; simpl.
    + apply chan_recv_Some in Erecv as (rest & Hbuf & ->). simpl.
      rewrite writes_snoc, app_nil_r, Hbuf. repeat split; try done.
      by apply suffix_cons_r.
    + by apply chan_recv_None in Erecv as (_ & _ & ->).
  - destruct (chan_send _ _ _); [|done..]. by intros [= <-].
Qed.

Lemma step_worker_exit i s s' :
  step_worker i s = Next s' →
  (snd <$> workers s' !! i) = Some WExit
  ↔ (snd <$> workers s !! i) = Some WRecv
    ∧ chan_closed (jobs s) = true ∧ chan_buf (jobs s) = [].
Proof.
  unfold step_worker. destruct (workers s !! i) as [[id p]|] eqn:Hi; [|done].
  pose proof (lookup_lt_Some _ _ _ Hi) as Hlt.
  destruct p as [|job|]; [| |done].
  - destruct (chan_recv _ _) as [[[job|] c]| |] eqn:Erecv; [| |done..];
      intros [= <-]; simpl; rewrite list_lookup_insert_eq by done; simpl.
    + apply chan_recv_Some in Erecv as (rest & Hbuf & _). rewrite Hbuf.
      split; [done|]. by intros (_ & _ & ?).
    + by apply chan_recv_None in Erecv as (-> & -> & _).
  - destruct (chan_send _ _ _); [|done..]. intros [= <-]. simpl.
    rewrite list_lookup_insert_eq by done. simpl. split; [done|]. by intros [? _].
Qed.

Lemma step_worker_returns i id s :
  workers s !! i = Some (id, WRecv) →
  chan_closed (jobs s) = true → chan_buf (jobs s) = [] →
  ∃ s', step_worker i s = Next s' ∧ workers s' !! i = Some (id, WExit).
Proof.
  intros Hi Hcl Hbuf. unfold step_worker, chan_recv. rewrite Hi, Hbuf, Hcl.
  eexists. split; [done|]. simpl. apply list_lookup_insert_eq.
  by eapply lookup_lt_Some.
Qed.

(** Every write to the jobs channel is a write of [Main]. *)
Lemma writes_by_main W N s :
  reachable W N s → Forall (λ e, e.1 = Main) (writes (chan_log (jobs s))).
Proof.
  induction 1 as [|s g s' Hreach IH Hstep]; [by constructor|].
  destruct g as [|i| |]; simpl in Hstep; [| |done..].
  - unfold step_main in Hstep. destruct (pc s) as [w|j| |r|]; [| | | |done].
    + by case_decide; injection Hstep as <-.
    + case_decide; [|by injection Hstep as <-].
      destruct (chan_send Main (jobs s) j) as [c| |] eqn:Esend; [|done..].
      injection Hstep as <-. apply chan_send_Next in Esend as (_ & _ & ->).
      simpl. rewrite writes_snoc. apply Forall_app. split; [done|].
      by repeat constructor.
    + destruct (chan_close Main (jobs s)) as [c| |] eqn:Eclose; [|done..].
      injection Hstep as <-. apply chan_close_Next in Eclose as (_ & ->).
      simpl. rewrite writes_snoc. apply Forall_app. split; [done|].
      by repeat constructor.
    + case_decide; [|by injection Hstep as <-].
      destruct (chan_recv Main (results s)) as [[v c]| |]; [|done..].
      by injection Hstep as <-.
  - apply step_worker_frame in Hstep as (_ & -> & _). done.
Qed.



End PoolProofs.

(** ** The pipeline *)

Module PipelineProofs.
Import Pipeline.

Lemma writes_sync log g r v :
  writes (log ++ [(g, OpSend v); (r, OpRecv v)]) = writes log ++ [(g, OpSend v)].
Proof.
  rewrite (cons_middle (g, OpSend v) log [(r, OpRecv v)]), (assoc_L (++)).
  rewrite !writes_snoc. simpl. by rewrite !app_nil_r.
Qed.

Lemma dequeued_sync log g r v :
  dequeued (log ++ [(g, OpSend v); (r, OpRecv v)]) = dequeued log ++ [v].
Proof.
  rewrite (cons_middle (g, OpSend v) log [(r, OpRecv v)]), (assoc_L (++)).
  rewrite !dequeued_snoc. by rewrite !app_nil_r.
Qed.

Section Invariant.
Variable count : Z.
Hypothesis Hcount : count < GoInt.int_max.

Lemma pipeline_inv_init : Inv count pipeline_init.
Proof. constructor; simpl; try done. repeat split; try done; lia. Qed.

Lemma pipeline_inv_step g s s' : Inv count s → step count g s = Next s' → Inv count s'.
Proof.
  intros [[Hbn Hbs] Hnw Hnr Hsw Hsr Hout Hgen Hsq Hprn].
  destruct g as [|i| |]; simpl; [|done| |].
  - (* the printer *)
    unfold step_printer. destruct (prn s) eqn:Eprn; [|done].
    unfold chan_recv. rewrite Hbs.
    destruct (chan_closed (squares s)) eqn:Ecl; [|done].
    intros [= <-]. constructor; simpl; rewrite ?Ecl; done.
  - (* the generator *)
    unfold step_generator. destruct (gen s) as [i|] eqn:Egen; [|done].
    destruct Hgen as (Hi1 & Hi2 & Hopen). case_decide as Hle.
    + destruct (sq s) eqn:Esq; [|done..].
      unfold chan_sync. rewrite Hopen. intros [= <-].
      rewrite GoIntFacts.succ_small by lia.
      constructor; simpl; try done.
      * rewrite writes_sync, Hnw, Hopen. simpl.
        replace (i + 1 - 1) with i by lia.
        rewrite (seqZ_snoc i) by lia. rewrite fmap_app. simpl.
        by rewrite !app_nil_r.
      * rewrite dequeued_sync, Hnr. simpl.
        replace (i + 1 - 1) with i by lia. by rewrite (seqZ_snoc i) by lia.
      * simpl in Hout. rewrite app_nil_r in Hout. rewrite Hout.
        replace (i + 1 - 1) with i by lia.
        rewrite (seqZ_snoc i) by lia. by rewrite fmap_app.
      * repeat split; try done; lia.
    + unfold chan_close. rewrite Hopen. intros [= <-].
      assert (seqZ 1 (i - 1) = seqZ 1 count) as Hseq.
      { destruct (decide (0 ≤ count)).
        - replace i with (count + 1) by lia. f_equal. lia.
        - by rewrite !seqZ_nil by lia. }
      simpl in *. rewrite Hseq in *.
      constructor; simpl; try done.
      * rewrite writes_snoc, Hnw, Hopen. simpl. by rewrite app_nil_r.
      * by rewrite dequeued_snoc, app_nil_r.
      * rewrite Hopen in Hsq. by destruct (sq s); try destruct Hsq.
  - (* the squarer *)
    unfold step_squarer. destruct (sq s) as [|num|] eqn:Esq; [| |done].
    + unfold chan_recv. rewrite Hbn.
      destruct (chan_closed (numbers s)) eqn:Ecl; [|done].
      unfold chan_close. rewrite Hsq. intros [= <-].
      constructor; simpl; rewrite ?Ecl; try done.
      * rewrite writes_snoc, Hsw, Hsq. simpl. by rewrite app_nil_r.
      * by rewrite dequeued_snoc, app_nil_r.
    + destruct (prn s) eqn:Eprn; [|done].
      unfold chan_sync. rewrite Hsq. intros [= <-].
      constructor; simpl; try done.
      * rewrite writes_sync, Hsw, Hsq. simpl.
        by rewrite fmap_app, !app_nil_r.
      * by rewrite dequeued_sync, Hsr.
      * by rewrite app_nil_r.
Qed.

Lemma pipeline_inv_reachable s : reachable count s → Inv count s.
Proof. induction 1; eauto using pipeline_inv_init, pipeline_inv_step. Qed.

Lemma pipeline_run_reachable sched s0 s :
  reachable count s0 → run count sched s0 = Some s → reachable count s.
Proof.
  revert s0. induction sched as [|g sched IH]; simpl; intros s0 H0.
  - by intros [= <-].
  - destruct (step count g s0) as [s1| |] eqn:E; [|done..].
    apply IH. by eapply reach_step.
Qed.

Lemma pipeline_measure_step g s s' :
  Inv count s → step count g s = Next s' →
  (measure count s' < measure count s)%nat.
Proof.
  intros [[Hbn Hbs] _ _ _ _ _ Hgen _ _]. unfold measure.
  destruct g as [|i| |]; simpl; [|done| |].
  - unfold step_printer. destruct (prn s); [|done].
    unfold chan_recv. rewrite Hbs. destruct (chan_closed (squares s)); [|done].
    intros [= <-]. simpl. lia.
  - unfold step_generator. destruct (gen s) as [i|]; [|done].
    destruct Hgen as (Hi1 & Hi2 & _). case_decide as Hle.
    + destruct (sq s); [|done..].
      destruct (chan_sync _ _ _ _); [|done..]. intros [= <-]. simpl.
      rewrite GoIntFacts.succ_small by lia. lia.
    + destruct (chan_close _ _); [|done..]. intros [= <-]. simpl. lia.
  - unfold step_squarer. destruct (sq s) as [|num|]; [| |done].
    + unfold chan_recv. rewrite Hbn.
      destruct (chan_closed (numbers s)); [|done].
      destruct (chan_close _ _); [|done..]. intros [= <-]. simpl. lia.
    + destruct (prn s); [|done].
      destruct (chan_sync _ _ _ _); [|done..]. intros [= <-]. simpl. lia.
Qed.

Lemma pipeline_run_length sched s0 s :
  Inv count s0 → run count sched s0 = Some s →
  (length sched + measure count s ≤ measure count s0)%nat.
Proof.
  revert s0. induction sched as [|g sched IH]; simpl; intros s0 H0.
  - intros [= <-]. lia.
  - destruct (step count g s0) as [s1| |] eqn:E; [|done..]. intros Hrun.
    pose proof (pipeline_measure_step _ _ _ H0 E).
    pose proof (IH s1 (pipeline_inv_step _ _ _ H0 E) Hrun). lia.
Qed.

(** Nothing moves only when the three goroutines have returned. *)
Lemma pipeline_stuck_done s :
  Inv count s → stuck count s → gen s = GDone ∧ sq s = SDone ∧ prn s = PDone.
Proof.
  intros [[Hbn Hbs] _ _ _ _ _ Hgen Hsq Hprn] Hst.
  pose proof (Hst Generator) as Hg. pose proof (Hst Squarer) as Hs.
  pose proof (Hst Main) as Hp. unfold enabled in *. simpl in *.
  unfold step_generator, step_squarer, step_printer in *.
  unfold chan_recv, chan_close, chan_sync in *. rewrite Hbn in Hs. rewrite Hbs in Hp.
  destruct (sq s) as [|num|] eqn:Esq.
  - rewrite Hsq in Hs. destruct (gen s) as [i|] eqn:Egen.
    + destruct Hgen as (_ & _ & Hopen). rewrite Hopen in Hg. by case_decide.
    + by rewrite Hgen in Hs.
  - rewrite Hsq in Hs. destruct (prn s) eqn:Eprn; [done|].
    rewrite Hprn in Hsq; done.
  - destruct Hsq as [Hcs Hcn]. rewrite Hcs in Hp.
    destruct (prn s); [done|]. destruct (gen s); [|done].
    destruct Hgen as (_ & _ & Hopen). congruence.
Qed.

Lemma done_out s :
  Inv count s → gen s = GDone → sq s = SDone → out s = square <$> seqZ 1 count.
Proof.
  intros HI Eg Es. pose proof (inv_out _ _ HI) as Hout.
  rewrite Eg, Es in Hout. simpl in Hout. by rewrite app_nil_r in Hout.
Qed.

Lemma pipeline_find_none_stuck s :
  list_find (λ g, enabled count s g = true) goroutines = None → stuck count s.
Proof.
  intros Hnone g. apply list_find_None in Hnone.
  destruct (enabled count s g) eqn:E; [|done].
  rewrite Forall_forall in Hnone.
  destruct g; [|done|..];
    (exfalso; eapply Hnone; [|exact E]; unfold goroutines; repeat constructor).
Qed.

Lemma pipeline_run_first_stuck fuel s :
  Inv count s → (measure count s ≤ fuel)%nat →
  stuck count (run_first count fuel s)
  ∧ ∃ sched, run count sched s = Some (run_first count fuel s).
Proof.
  revert s. induction fuel as [|fuel IH]; intros s HI Hfuel; cbn [run_first].
  - split; [|by exists []]. intros g.
    destruct (enabled count s g) eqn:E; [|done]. unfold enabled in E.
    destruct (step count g s) as [s'| |] eqn:Es; [|done..].
    pose proof (pipeline_measure_step _ _ _ HI Es). lia.
  - destruct (list_find _ _) as [[k g]|] eqn:Efind.
    + apply list_find_Some in Efind as (_ & Hen & _). unfold enabled in Hen.
      destruct (step count g s) as [s'| |] eqn:Es; [|done..].
      pose proof (pipeline_measure_step _ _ _ HI Es).
      destruct (IH s' (pipeline_inv_step _ _ _ HI Es)) as [Hst [sched Hrun]]; [lia|].
      split; [done|]. exists (g :: sched). cbn [run]. by rewrite Es.
    + split; [by apply pipeline_find_none_stuck|by exists []].
Qed.

End Invariant.

Lemma generated_prefix count s :
  Inv count s → generated count (gen s) `prefix_of` seqZ 1 count.
Proof.
  intros HI. pose proof (inv_gen _ _ HI) as Hgen.
  destruct (gen s) as [i|]; simpl; [|done].
  apply seqZ_prefix. lia.
Qed.

Lemma out_prefix count s :
  Inv count s → out s `prefix_of` square <$> seqZ 1 count.
Proof.
  intros HI. destruct (generated_prefix count s HI) as [rest Hrest].
  rewrite Hrest, fmap_app, <-(inv_out _ _ HI), <-(assoc_L (++)).
  by apply prefix_app_r.
Qed.

Lemma numbers_closed count s :
  Inv count s → chan_closed (numbers s) = true →
  generated count (gen s) = seqZ 1 count.
Proof.
  intros HI Hcl. pose proof (inv_gen _ _ HI) as Hgen.
  destruct (gen s) as [i|]; [|done]. destruct Hgen as (_ & _ & ?). congruence.
Qed.

Lemma pipeline_no_panic count g s : Inv count s → step count g s ≠ Panic.
Proof.
  intros [[Hbn Hbs] _ _ _ _ _ Hgen Hsq Hprn].
  destruct g as [|i| |]; simpl; [|done| |].
  - unfold step_printer. destruct (prn s); [|done].
    pose proof (chan_recv_Panic Main (squares s)).
    by destruct (chan_recv Main (squares s)) as [[[?|] ?]| |].
  - unfold step_generator. destruct (gen s) as [i|]; [|done].
    destruct Hgen as (_ & _ & Hopen). unfold chan_sync, chan_close. rewrite Hopen.
    case_decide; [|done]. by destruct (sq s).
  - unfold step_squarer, chan_recv, chan_close, chan_sync. rewrite Hbn.
    destruct (sq s) as [|num|]; [| |done]; rewrite Hsq.
    + by destruct (chan_closed (numbers s)).
    + by destruct (prn s).
Qed.

(** Squaring does not overflow on the numbers up to 3037000499. *)
Lemma square_exact count :
  count ≤ 3037000499 → square <$> seqZ 1 count = (λ i, i * i) <$> seqZ 1 count.
Proof.
  intros Hc. apply Forall_fmap_ext, Forall_seqZ. intros i Hi.
  apply GoIntFacts.square_small; lia.
Qed.

End PipelineProofs.

(** ** The REST handlers *)

Module RestProofs.
Import Rest.

(** An invalid request gets at least one validation error. *)
Lemma validate_invalid req :
  invalid_create req → (0 < length (validateCreateUserRequest req))%nat.
Proof.
  unfold invalid_create, validateCreateUserRequest. intros Hbad. cbv zeta.
  destruct (decide (TrimSpace (create_Name req) = [])) as [Hn|Hn];
    destruct (decide (TrimSpace (create_Email req) = [])) as [He|He];
    destruct (Contains (create_Email req) at_sign) eqn:Hat;
    destruct (bool_decide (create_Age req < 0) || bool_decide (create_Age req > 150))
      eqn:Hage;
    simpl; try lia.
  exfalso. apply orb_false_iff in Hage as [Hlo Hhi].
  apply bool_decide_eq_false in Hlo, Hhi.
  destruct Hbad as [Hname|[Hemail|[Hc|Hrange]]].
  - by rewrite Hname in Hn.
  - by rewrite Hemail in He.
  - done.
  - lia.
Qed.

Lemma validate_valid req :
  TrimSpace (create_Name req) ≠ [] → TrimSpace (create_Email req) ≠ [] →
  Contains (create_Email req) at_sign = true → 0 ≤ create_Age req ≤ 150 →
  validateCreateUserRequest req = [].
Proof.
  intros Hn He Hat Hage. unfold validateCreateUserRequest.
  rewrite !decide_False by done. rewrite Hat. simpl.
  rewrite !bool_decide_eq_false_2 by lia. done.
Qed.

(** A valid request is stored under the next identifier. *)
Lemma createUser_creates unmarshalCreate st r now body req :
  Body r = Some body → unmarshalCreate body = Some req →
  validateCreateUserRequest req = [] →
  (createUser unmarshalCreate st r now).2
  = MkStore (<[nextUserID st :=
                 MkUser (nextUserID st) (create_Name req) (create_Email req)
                        (create_Age req) now now]> (users st))
            (GoInt.add (nextUserID st) 1)
  ∧ statusCode (createUser unmarshalCreate st r now).1 = StatusCreated.
Proof.
  intros Hbody Hjson Hok. unfold createUser. rewrite Hbody, Hjson, Hok.
  by rewrite decide_False by (simpl; lia).
Qed.

End RestProofs.

(** ** The routing of the REST lesson *)

Module RoutingProofs.
Import Rest.

(** *** [strings.Trim] and [strings.Split] on a path *)

Lemma trimLeftIn_app cutset x y :
  trimLeftIn cutset (x ++ y)
  = match trimLeftIn cutset x with
    | [] => trimLeftIn cutset y
    | t => t ++ y
    end.
Proof.
  induction x as [|c x IH]; simpl.
  - by destruct (trimLeftIn cutset y).
  - by case_bool_decide.
Qed.

Lemma trimLeftIn_suffix cutset s : trimLeftIn cutset s `suffix_of` s.
Proof.
  induction s as [|c s IH]; simpl; [done|].
  case_bool_decide; [by apply suffix_cons_r|done].
Qed.

(** Trimming on the right stops at a code point outside the cutset. *)
Lemma trimRight_app cutset a c b :
  c ∉ cutset →
  reverse (trimLeftIn cutset (reverse ((a ++ [c]) ++ b)))
  = (a ++ [c]) ++ reverse (trimLeftIn cutset (reverse b)).
Proof.
  intros Hc. rewrite (reverse_app (a ++ [c]) b), trimLeftIn_app.
  assert (trimLeftIn cutset (reverse (a ++ [c])) = reverse (a ++ [c])) as Ha.
  { rewrite reverse_app. simpl. by rewrite bool_decide_eq_false_2. }
  destruct (trimLeftIn cutset (reverse b)) as [|t ts] eqn:Hb.
  - rewrite Ha, reverse_involutive. simpl. by rewrite app_nil_r.
  - by rewrite reverse_app, reverse_involutive.
Qed.

Lemma trimRight_prefix cutset b :
  reverse (trimLeftIn cutset (reverse b)) `prefix_of` b.
Proof.
  destruct (trimLeftIn_suffix cutset (reverse b)) as [k Hk].
  exists (reverse k). apply (inj reverse).
  by rewrite reverse_app, !reverse_involutive.
Qed.

Lemma HasPrefix_nil s : HasPrefix s [] = true.
Proof. by destruct s. Qed.

(** A piece without the separator is read up to the separator. *)
Lemma splitFrom_piece c cur a s :
  c ∉ a →
  splitFrom [c] 0 cur (a ++ c :: s) = (reverse cur ++ a) :: splitFrom [c] 0 [] s.
Proof.
  revert cur. induction a as [|d a IH]; intros cur Hc; simpl.
  - rewrite bool_decide_eq_true_2 by done. simpl.
    by rewrite HasPrefix_nil, app_nil_r.
  - apply not_elem_of_cons in Hc as [Hcd Hc].
    rewrite bool_decide_eq_false_2 by done. simpl.
    rewrite IH by done. by rewrite reverse_cons, <-(assoc_L (++)).
Qed.

Lemma splitFrom_last c cur a :
  c ∉ a → splitFrom [c] 0 cur a = [reverse cur ++ a].
Proof.
  revert cur. induction a as [|d a IH]; intros cur Hc; simpl.
  - by rewrite app_nil_r.
  - apply not_elem_of_cons in Hc as [Hcd Hc].
    rewrite bool_decide_eq_false_2 by done. simpl.
    rewrite IH by done. by rewrite reverse_cons, <-(assoc_L (++)).
Qed.

Lemma path_third_segment seg rest :
  seg ≠ [] → 47 ∉ seg → rest = [] ∨ head rest = Some 47 →
  ∃ more, Split (Trim (runes "/api/users/" ++ seg ++ rest) slash) slash
          = runes "api" :: runes "users" :: seg :: more.
Proof.
  intros Hne Hseg Hrest.
  destruct (exists_last Hne) as (seg' & c & ->).
  assert (c ∉ slash) as Hc.
  { intros Hin. apply list_elem_of_singleton in Hin as ->.
    apply Hseg, elem_of_app. right. by left. }
  change (runes "/api/users/") with (47 :: runes "api/users/").
  unfold Trim. cbn [app trimLeftIn]. rewrite bool_decide_eq_true_2 by by left.
  change (runes "api/users/" ++ (seg' ++ [c]) ++ rest)
    with (97 :: (runes "pi/users/" ++ (seg' ++ [c]) ++ rest)).
  cbn [trimLeftIn]. rewrite bool_decide_eq_false_2
    by (intros Hin; by apply list_elem_of_singleton in Hin).
  change (97 :: (runes "pi/users/" ++ (seg' ++ [c]) ++ rest))
    with (runes "api/users/" ++ (seg' ++ [c]) ++ rest).
  rewrite (assoc_L (++) (runes "api/users/")), (assoc_L (++) (runes "api/users/")).
  rewrite trimRight_app by done.
  destruct (trimRight_prefix slash rest) as [k Hk].
  set (rest' := reverse (trimLeftIn slash (reverse rest))) in *.
  assert (rest' = [] ∨ ∃ r, rest' = 47 :: r) as Hr'.
  { destruct rest' as [|x r]; [by left|right].
    destruct Hrest as [->|Hh]; [done|]. rewrite Hk in Hh. simpl in Hh.
    injection Hh as ->. eauto. }
  unfold Split, slash.
  change (runes "api/users/") with (runes "api" ++ 47 :: runes "users" ++ [47]).
  rewrite <-!(assoc_L (++)). cbn [app].
  rewrite splitFrom_piece by compute_done.
  rewrite <-(assoc_L (++) (runes "users")). cbn [app].
  rewrite splitFrom_piece by compute_done.
  replace (seg' ++ c :: rest') with ((seg' ++ [c]) ++ rest')
    by (by rewrite <-(assoc_L (++))).
  destruct Hr' as [->|[r ->]].
  - rewrite app_nil_r, splitFrom_last by done. by exists [].
  - rewrite splitFrom_piece by done. eauto.
Qed.

(** *** [strconv.Atoi] on a decimal numeral *)

Lemma parseUint_app n xs ys :
  parseUint n (xs ++ ys)
  = match parseUint n xs with
    | (v, None) => parseUint v ys
    | e => e
    end.
Proof.
  revert n. induction xs as [|c xs IH]; intros n; simpl; [done|].
  repeat case_bool_decide; auto.
Qed.

Lemma decimalFrom_acc fuel n acc :
  decimalFrom fuel n acc = decimalFrom fuel n [] ++ acc.
Proof.
  revert n acc. induction fuel as [|fuel IH]; intros n acc; simpl; [done|].
  case_decide; [done|].
  rewrite (IH _ (_ :: acc)), (IH _ [_]). by rewrite <-(assoc_L (++)).
Qed.

Lemma parseUint_decimalFrom fuel n :
  0 ≤ n → n < 10 ^ Z.of_nat fuel → n ≤ 2 ^ 64 - 1 →
  parseUint 0 (decimalFrom fuel n []) = (n, None).
Proof.
  revert n. induction fuel as [|fuel IH]; intros n Hn Hlt Hmax.
  - simpl in *. f_equal. lia.
  - rewrite Nat2Z.inj_succ, Z.pow_succ_r in Hlt by lia. simpl.
    case_decide as Hd.
    + simpl. rewrite bool_decide_eq_true_2 by lia.
      rewrite bool_decide_eq_false_2 by lia. f_equal. lia.
    + rewrite decimalFrom_acc, parseUint_app.
      pose proof (Z.div_mod n 10 ltac:(lia)) as Hdm.
      pose proof (Z.mod_pos_bound n 10 ltac:(lia)) as Hmod.
      rewrite IH by (try apply Z.div_pos; try apply Z.div_lt_upper_bound; lia).
      simpl. rewrite bool_decide_eq_true_2 by lia.
      rewrite bool_decide_eq_false_2 by lia. f_equal. lia.
Qed.

Lemma decimalFrom_head fuel n acc :
  0 ≤ n →
  ∃ d l, decimalFrom (S fuel) n acc = d :: l ∧ 48 ≤ d ≤ 57.
Proof.
  revert n acc. induction fuel as [|fuel IH]; intros n acc Hn.
  - simpl. pose proof (Z.mod_pos_bound n 10 ltac:(lia)).
    case_decide; eexists _, _; (split; [done|lia]).
  - cbn [decimalFrom]. case_decide as Hd.
    + eexists _, _. split; [done|lia].
    + apply (IH (n `div` 10)). apply Z.div_pos; lia.
Qed.

Lemma Atoi_decimal n : 0 ≤ n ≤ GoInt.int_max → Atoi (decimal n) = (n, None).
Proof.
  unfold GoInt.int_max. intros Hn. unfold Atoi, decimal.
  destruct (decimalFrom_head 19 n [] ltac:(lia)) as (d & l & Hdl & Hd).
  pose proof (parseUint_decimalFrom 20 n ltac:(lia) ltac:(simpl; lia) ltac:(lia))
    as Hparse.
  rewrite Hdl in *. cbn [head tail].
  rewrite !bool_decide_eq_false_2 by (intros [= ?]; lia).
  cbn [orb negb andb]. rewrite Hparse.
  by rewrite bool_decide_eq_false_2 by lia.
Qed.

(** *** The handlers and the store *)

Section Handlers.
Variable unmarshalCreate : list Byte.byte → option CreateUserRequest.
Variable unmarshalUpdate : list Byte.byte → option UpdateUserRequest.

Lemma createUser_store st r now :
  (createUser unmarshalCreate st r now).2 = st
  ∨ ∃ user,
      (createUser unmarshalCreate st r now)
      = (respondWithJSON StatusCreated
           (APIResponse true (Some user) "User created successfully"),
         MkStore (<[nextUserID st := user]> (users st))
                 (GoInt.add (nextUserID st) 1))
      ∧ ID user = nextUserID st.
Proof.
  unfold createUser. destruct (Body r) as [body|]; [|by left].
  destruct (unmarshalCreate body) as [req|]; [|by left].
  case_decide; [by left|]. right. eexists. by split.
Qed.

Lemma updateUser_store st r userID now :
  (updateUser unmarshalUpdate st r userID now).2 = st
  ∨ ∃ old user,
      users st !! userID = Some old
      ∧ (updateUser unmarshalUpdate st r userID now)
        = (respondWithJSON StatusOK
             (APIResponse true (Some user) "User updated successfully"),
           MkStore (<[userID := user]> (users st)) (nextUserID st))
      ∧ ID user = ID old.
Proof.
  unfold updateUser. destruct (users st !! userID) as [old|]; [|by left].
  destruct (Body r) as [body|]; [|by left].
  destruct (unmarshalUpdate body) as [req|]; [|by left].
  right. eexists old, _. split; [done|]. split; [done|].
  by destruct req as [[?|] [?|] [?|]].
Qed.

Lemma deleteUser_store st userID :
  (deleteUser st userID).2 = st
  ∨ (is_Some (users st !! userID)
     ∧ deleteUser st userID
       = (respondWithJSON StatusOK (APIResponse true None "User deleted successfully"),
          MkStore (delete userID (users st)) (nextUserID st))).
Proof.
  unfold deleteUser. destruct (users st !! userID) as [old|]; [|by left].
  right. by split.
Qed.

(** One call keeps the invariant of the store and moves the next
    identifier up by at most one. *)
Lemma serve1_store_ok st c :
  store_ok st → nextUserID st < GoInt.int_max →
  store_ok (serve1 unmarshalCreate unmarshalUpdate st c).2
  ∧ nextUserID st ≤ nextUserID (serve1 unmarshalCreate unmarshalUpdate st c).2
  ∧ nextUserID (serve1 unmarshalCreate unmarshalUpdate st c).2 ≤ nextUserID st + 1.
Proof.
  intros [Hnext Hok] Hmax.
  assert (Hsame : store_ok st ∧ nextUserID st ≤ nextUserID st
                  ∧ nextUserID st ≤ nextUserID st + 1)
    by (split; [by split|lia]).
  destruct c as [r now|r now]; simpl.
  - unfold handleUsers. case_decide; [done|]. case_decide; [|done].
    destruct (createUser_store st (Req r) now) as [Hst|(user & Hc & Hid)].
    + destruct (createUser _ _ _ _) as [resp st']. simpl in *. by subst.
    + rewrite Hc. unfold store_ok. simpl. rewrite GoIntFacts.succ_small by lia.
      split; [split; [lia|]|lia]. intros k u Hk.
      apply lookup_insert_Some in Hk as [[<- <-]|[Hne Hk]]; [lia|].
      destruct (Hok k u Hk). lia.
  - unfold handleUser. destruct (extractUserID (Path r)) as [userID [e|]]; [done|].
    case_decide; [done|]. case_decide.
    + destruct (updateUser_store st (Req r) userID now)
        as [Hst|(old & user & Hold & Hu & Hid)].
      * destruct (updateUser _ _ _ _ _) as [resp st']. simpl in *. by subst.
      * rewrite Hu. unfold store_ok. simpl.
        split; [split; [done|]|lia]. intros k u Hk.
        apply lookup_insert_Some in Hk as [[<- <-]|[Hne Hk]]; [|by apply Hok].
        destruct (Hok userID old Hold). split; [congruence|lia].
    + case_decide; [|done].
      destruct (deleteUser_store st userID) as [Hst|[_ Hd]].
      * destruct (deleteUser _ _) as [resp st']. simpl in *. by subst.
      * rewrite Hd. unfold store_ok. simpl.
        split; [split; [done|]|lia]. intros k u Hk.
        apply lookup_delete_Some in Hk as [_ Hk]. by apply Hok.
Qed.

Lemma serve_snoc st cs c :
  serve unmarshalCreate unmarshalUpdate st (cs ++ [c])
  = (serve1 unmarshalCreate unmarshalUpdate
       (serve unmarshalCreate unmarshalUpdate st cs) c).2.
Proof. unfold serve. by rewrite foldl_app. Qed.

Lemma serve_store_ok st cs :
  store_ok st → nextUserID st + Z.of_nat (length cs) ≤ GoInt.int_max →
  store_ok (serve unmarshalCreate unmarshalUpdate st cs)
  ∧ nextUserID st ≤ nextUserID (serve unmarshalCreate unmarshalUpdate st cs)
  ∧ nextUserID (serve unmarshalCreate unmarshalUpdate st cs)
    ≤ nextUserID st + Z.of_nat (length cs).
Proof.
  intros Hok. induction cs as [|c cs IH] using rev_ind; intros Hlen.
  - simpl. split; [done|lia].
  - rewrite length_app in Hlen. simpl in Hlen.
    destruct IH as (IH1 & IH2 & IH3); [lia|].
    rewrite serve_snoc, length_app. simpl.
    destruct (serve1_store_ok (serve unmarshalCreate unmarshalUpdate st cs) c IH1)
      as (H1 & H2 & H3); [lia|].
    split; [done|lia].
Qed.

End Handlers.

Lemma initializeData_ok t1 t2 t3 t4 :
  store_ok (initializeData store_init t1 t2 t3 t4).
Proof.
  split; [done|]. intros k u Hk. simpl in Hk.
  apply lookup_insert_Some in Hk as [[<- <-]|[_ Hk]]; [done|].
  apply lookup_insert_Some in Hk as [[<- <-]|[_ Hk]]; [done|].
  by rewrite lookup_empty in Hk.
Qed.

(** The numeral of a number has digits only. *)
Lemma decimalFrom_digits fuel n acc :
  0 ≤ n → 47 ∉ acc → 47 ∉ decimalFrom fuel n acc.
Proof.
  revert n acc. induction fuel as [|fuel IH]; intros n acc Hn Hacc; simpl; [done|].
  pose proof (Z.mod_pos_bound n 10 ltac:(lia)).
  case_decide.
  - apply not_elem_of_cons. split; [lia|done].
  - apply IH; [apply Z.div_pos; lia|]. apply not_elem_of_cons. split; [lia|done].
Qed.

Lemma decimal_digits n : 0 ≤ n → 47 ∉ Rest.decimal n.
Proof. intros Hn. apply decimalFrom_digits; [done|]. apply not_elem_of_nil. Qed.

End RoutingProofs.

(** ** More on the two machines *)

Module ConcurrencyFacts.

(** *** Channel histories *)

Lemma writes_cons g op log :
  writes ((g, op) :: log)
  = match op with OpRecv _ => writes log | _ => (g, op) :: writes log end.
Proof. unfold writes. rewrite filter_cons. by destruct op. Qed.

Lemma enqueued_cons g op log :
  enqueued ((g, op) :: log)
  = match op with OpSend v => v :: enqueued log | _ => enqueued log end.
Proof. by destruct op. Qed.

(** The sends and the closes of a history are those of its writes. *)
Lemma enqueued_writes log : enqueued (writes log) = enqueued log.
Proof.
  induction log as [|[g op] log IH]; [done|].
  rewrite writes_cons. destruct op; rewrite ?enqueued_cons; by rewrite IH.
Qed.

Lemma closes_writes log : closes (writes log) = closes log.
Proof.
  induction log as [|[g op] log IH]; [done|].
  rewrite writes_cons.
  destruct op; rewrite ?PoolProofs.closes_cons; by rewrite IH.
Qed.

Lemma enqueued_script g (l : list Z) (b : bool) :
  enqueued (((λ v, (g, OpSend v)) <$> l) ++ (if b then [(g, OpClose)] else [])) = l.
Proof.
  induction l as [|x l IH].
  - by destruct b.
  - rewrite fmap_cons, <-app_comm_cons, enqueued_cons. by rewrite IH.
Qed.

(** *** The worker pool *)

(** What [Main] has printed is what it has received from the results
    channel, which nobody closes. *)
Lemma printed_received W N s :
  Pool.reachable W N s →
  chan_closed (Pool.results s) = false
  ∧ Pool.printed s = dequeued (chan_log (Pool.results s)).
Proof.
  induction 1 as [|s g s' Hreach [Hopen IH] Hstep]; [done|].
  destruct g as [|i| |]; simpl in Hstep; [| |done..].
  - unfold Pool.step_main in Hstep. destruct (Pool.pc s) as [w|j| |r|]; [| | | |done].
    + case_decide; by injection Hstep as <-.
    + case_decide; [|by injection Hstep as <-].
      destruct (chan_send Main (Pool.jobs s) j); [|done..]. by injection Hstep as <-.
    + destruct (chan_close Main (Pool.jobs s)); [|done..]. by injection Hstep as <-.
    + case_decide; [|by injection Hstep as <-].
      destruct (chan_recv Main (Pool.results s)) as [[[v|] c]| |] eqn:Erecv; [| |done..].
      * apply chan_recv_Some in Erecv as (rest & Hbuf & ->).
        injection Hstep as <-. simpl. split; [done|].
        by rewrite dequeued_snoc, IH.
      * apply chan_recv_None in Erecv as (_ & Hcl & _). congruence.
  - unfold Pool.step_worker in Hstep.
    destruct (Pool.workers s !! i) as [[id [|job|]]|]; [| | |done].
    + destruct (chan_recv (Worker i) (Pool.jobs s)) as [[[job|] c]| |]; [| |done..];
        by injection Hstep as <-.
    + destruct (chan_send (Worker i) (Pool.results s) (Pool.transform job))
        as [c| |] eqn:Esend; [|done..].
      apply chan_send_Next in Esend as (_ & _ & ->).
      injection Hstep as <-. simpl. split; [done|].
      rewrite dequeued_snoc, IH. by rewrite app_nil_r.
    + done.
Qed.

(** At every moment the printed results are results of received jobs. *)
Lemma printed_of_received W N s :
  Pool.Inv W N s →
  Pool.printed s ⊆+ Pool.transform <$> dequeued (chan_log (Pool.jobs s)).
Proof.
  intros HI. rewrite (Pool.inv_flow _ _ _ HI).
  rewrite (assoc_L (++)). apply submseteq_inserts_l. done.
Qed.

Lemma received_prefix W N s :
  Pool.Inv W N s → dequeued (chan_log (Pool.jobs s)) `prefix_of` seqZ 1 N.
Proof.
  intros HI. destruct (PoolProofs.sent_prefix W N s HI) as (k & Hk & Hle).
  transitivity (Pool.sent N (Pool.pc s)).
  - rewrite <-(Pool.inv_fifo _ _ _ HI). by apply prefix_app_r.
  - rewrite Hk. by apply seqZ_prefix.
Qed.

Lemma NoDup_prefix {A} (l k : list A) : l `prefix_of` k → NoDup k → NoDup l.
Proof. intros [m ->] Hk. by apply NoDup_app in Hk as [? _]. Qed.

Lemma NoDup_submseteq_inv {A} (l k : list A) : NoDup k → l ⊆+ k → NoDup l.
Proof.
  intros Hk [m Hm]%submseteq_Permutation. rewrite Hm in Hk.
  by apply NoDup_app in Hk as [? _].
Qed.

End ConcurrencyFacts.

(** ** The guarded counter *)

Module CounterProofs.
Import GoInt Counter.

Lemma wrap_succ x : add (wrap x) 1 = wrap (x + 1).
Proof.
  unfold add, wrap.
  replace ((x + 2 ^ 63) `mod` 2 ^ 64 - 2 ^ 63 + 1 + 2 ^ 63)
    with ((x + 2 ^ 63) `mod` 2 ^ 64 + 1) by lia.
  rewrite Z.add_mod_idemp_l by lia. f_equal. f_equal. lia.
Qed.

Lemma wrap32_small z : - 2 ^ 31 ≤ z < 2 ^ 31 → wrap32 z = z.
Proof. unfold wrap32. intros Hz. rewrite Z.mod_small by lia. lia. Qed.

Lemma Add_small wg delta :
  0 ≤ wg + delta < 2 ^ 31 → Add wg delta = Next (wg + delta).
Proof.
  intros Hz. unfold Add. rewrite wrap32_small by lia. by rewrite decide_False by lia.
Qed.

Lemma lookup_split {A} (l : list A) (k : nat) (x : A) :
  l !! k = Some x →
  ∃ l1 l2, l = l1 ++ x :: l2 ∧ length l1 = k ∧ ∀ y, <[k := y]> l = l1 ++ y :: l2.
Proof.
  intros Hk. pose proof (lookup_lt_Some _ _ _ Hk) as Hlt.
  exists (take k l), (drop (S k) l). split; [by rewrite take_drop_middle|].
  split; [rewrite length_take; lia|]. intros y. by apply insert_take_drop.
Qed.

Lemma total_nil f : total f [] = 0.
Proof. done. Qed.

Lemma total_cons f w l : total f (w :: l) = f w.2 + total f l.
Proof. done. Qed.

Lemma total_app f l k : total f (l ++ k) = total f l + total f k.
Proof.
  induction l as [|w l IH]; simpl; [by rewrite total_nil|].
  rewrite !total_cons, IH. lia.
Qed.

Lemma total_nonneg f l : (∀ p, 0 ≤ f p) → 0 ≤ total f l.
Proof.
  intros Hf. induction l as [|w l IH]; [by rewrite total_nil|].
  rewrite total_cons. specialize (Hf w.2). lia.
Qed.

Lemma total_zero f l :
  (∀ p, 0 ≤ f p) → total f l ≤ 0 → Forall (λ w, f w.2 = 0) l.
Proof.
  intros Hf. induction l as [|w l IH]; intros Hl; [constructor|].
  rewrite total_cons in Hl. pose proof (total_nonneg f l Hf). pose proof (Hf w.2).
  constructor; [lia|]. apply IH. lia.
Qed.

Lemma in_cs_nonneg p : 0 ≤ in_cs p.
Proof. destruct p; simpl; lia. Qed.

Lemma alive_nonneg p : 0 ≤ alive p.
Proof. destruct p; simpl; lia. Qed.

Lemma quiet_read (v : Z) l :
  Forall (λ w : Z * inc_pc, in_cs w.2 = 0) l →
  Forall (λ w : Z * inc_pc, match w.2 with IWrite _ u => u = v | _ => True end) l.
Proof.
  intros HF; eapply Forall_impl; [done|]. intros [n p]; simpl. by destruct p.
Qed.

Lemma total_exited K l :
  total alive l = 0 →
  Forall (λ w : Z * inc_pc, w.2 = IExit) l
  ∧ total (increments K) l = Z.of_nat (length l) * Z.max K 0
  ∧ total in_cs l = 0 ∧ total (inc_left K) l = 0.
Proof.
  induction l as [|[n p] l IH]; intros Hl.
  - rewrite !total_nil. split; [constructor|]. simpl. lia.
  - rewrite total_cons in Hl. simpl in Hl.
    pose proof (total_nonneg alive l alive_nonneg).
    pose proof (alive_nonneg p).
    assert (p = IExit) as -> by (destruct p; simpl in *; (done || lia)).
    destruct IH as (IH1 & IH2 & IH3 & IH4); [simpl in Hl; lia|].
    split; [by constructor|]. rewrite !total_cons, IH2, IH3, IH4. simpl length.
    simpl. lia.
Qed.

Lemma seqZ_0_snoc (n : nat) :
  seqZ 0 (Z.of_nat (S n)) = seqZ 0 (Z.of_nat n) ++ [Z.of_nat n].
Proof.
  replace (Z.of_nat (S n)) with (Z.of_nat n + 1) by lia.
  rewrite seqZ_app by lia. f_equal.
Qed.

Local Ltac inv_field :=
  repeat match goal with H : _ ∧ _ |- _ => destruct H end;
  unfold holders; simpl;
  rewrite ?total_app, ?total_cons, ?total_nil; simpl;
  repeat split; try done; try lia.

Local Ltac inc_fields :=
  constructor; simpl;
  [ inv_field
  | rewrite total_app, total_cons; simpl;
    try (match goal with H : _ = wrap _ |- _ => rewrite H end; f_equal; lia)
  | try (apply Forall_app; split; [done|]; constructor; [simpl; done|done])
  | inv_field
  | rewrite fmap_app, length_app; simpl; done
  | rewrite omap_app; simpl; try done
  | apply Forall_app; split; [done|]; constructor; [simpl; try lia|done]
  | rewrite length_app, ?total_app, ?total_cons; simpl;
    match goal with |- context [match ?p with MAdd _ => _ | _ => _ end] =>
      destruct p; simpl in *; done
    end ].

Section Invariant.
Variables G K : Z.
Hypothesis HG : G < 2 ^ 31.
Hypothesis HK : K ≤ int_max.

Lemma counter_inv_init : Inv G K state_init.
Proof.
  constructor; unfold holders; simpl; rewrite ?total_nil; try done; try lia.
  split; [lia|done].
Qed.

Lemma total_alive_le l : total alive l ≤ Z.of_nat (length l).
Proof.
  induction l as [|[n p] l IH]; [by rewrite total_nil|].
  rewrite total_cons. simpl length. destruct p; simpl; lia.
Qed.

Lemma counter_inv_step_main s s' : Inv G K s → step_main G s = Next s' → Inv G K s'.
Proof.
  intros [Hmu Hval Hrd Hwg Hids Hfin Hloop Hpc] Hstep.
  destruct s as [[m v] w p l fin fi]. unfold holders in Hmu. simpl in *.
  unfold step_main in Hstep; simpl in Hstep.
  destruct p as [i|i| | | |u|]; simpl in *.
  - destruct Hpc as (Hi0 & Hlen & Hfi). case_decide as Hi.
    + pose proof (total_alive_le l). pose proof (total_nonneg alive l alive_nonneg).
      rewrite Add_small in Hstep by lia. injection Hstep as <-.
      constructor; inv_field.
    + injection Hstep as <-. constructor; inv_field.
  - injection Hstep as <-. destruct Hpc as (Hi0 & Hlen & Hfi).
    assert (add i 1 = i + 1) as Hadd.
    { apply GoIntFacts.succ_small; unfold int_max; lia. }
    constructor; simpl.
    + inv_field.
    + rewrite total_app, total_cons, total_nil, Hval. simpl. f_equal. lia.
    + apply Forall_app. split; [done|]. by repeat constructor.
    + inv_field.
    + rewrite fmap_app, length_app, Nat.add_1_r, seqZ_0_snoc, Hids. simpl.
      by rewrite Hlen.
    + rewrite omap_app. simpl. by rewrite app_nil_r.
    + apply Forall_app. split; [done|]. repeat constructor; simpl; lia.
    + rewrite Hadd, length_app. inv_field.
  - case_decide as Hw; [|done]. injection Hstep as <-. destruct Hpc as (Hlen & Hfi).
    constructor; inv_field.
  - unfold Lock in Hstep; simpl in Hstep. destruct m; [done|].
    injection Hstep as <-. constructor; inv_field.
  - injection Hstep as <-. destruct Hpc as (Hlen & Hal & Hfi).
    constructor; inv_field.
  - unfold Unlock in Hstep; simpl in Hstep. destruct m; [|done].
    injection Hstep as <-. destruct Hpc as (Hlen & Hal & Hfi & ->).
    constructor; inv_field.
  - done.
Qed.

Lemma counter_inv_step_inc k s s' : Inv G K s → step_inc K k s = Next s' → Inv G K s'.
Proof.
  intros [Hmu Hval Hrd Hwg Hids Hfin Hloop Hpc] Hstep.
  unfold step_inc in Hstep.
  destruct (incs s !! k) as [[n q]|] eqn:Hk; [|done].
  apply lookup_split in Hk as (l1 & l2 & Hl & Hlen & Hins).
  destruct s as [[m v] w p l fin fi]. unfold holders in Hmu. simpl in *. subst l.
  rewrite Forall_app, Forall_cons in Hrd, Hloop. simpl in Hrd, Hloop.
  destruct Hrd as (Hrd1 & Hrdq & Hrd2). destruct Hloop as (Hlp1 & Hlpq & Hlp2).
  rewrite total_app, total_cons in Hmu, Hval, Hwg. simpl in Hmu, Hval, Hwg.
  rewrite omap_app in Hfin. rewrite fmap_app, length_app in Hids.
  rewrite length_app in Hpc. simpl in Hids, Hpc.
  pose proof (total_nonneg in_cs l1 in_cs_nonneg) as Hc1.
  pose proof (total_nonneg in_cs l2 in_cs_nonneg) as Hc2.
  pose proof (total_nonneg alive l1 alive_nonneg) as Ha1.
  pose proof (total_nonneg alive l2 alive_nonneg) as Ha2.
  pose proof (total_alive_le l1) as Hb1. pose proof (total_alive_le l2) as Hb2.
  assert (alive q = 1 → match p with MAdd _ | MGo _ | MWait => True | _ => False end)
    as Hp.
  { intros Hq. destruct p; try done; rewrite total_app, total_cons in Hpc;
      simpl in Hpc; lia. }
  destruct q as [j|j|j u|j| |]; simpl in *; [specialize (Hp eq_refl)..|done].
  - case_decide as Hj.
    + unfold Lock in Hstep; simpl in Hstep. destruct m; [done|].
      injection Hstep as <-. rewrite !Hins. inc_fields.
    + injection Hstep as <-. rewrite !Hins. inc_fields.
      rewrite Hfin, <-Permutation_cons_append. apply Permutation_middle.
  - injection Hstep as <-. rewrite !Hins. inc_fields.
  - injection Hstep as <-. rewrite !Hins. subst u. inc_fields.
    + rewrite Hval, wrap_succ. f_equal. lia.
    + apply Forall_app. split; [|constructor; [done|]].
      * apply quiet_read, total_zero; [apply in_cs_nonneg|].
        destruct m, p; simpl in *; lia.
      * apply quiet_read, total_zero; [apply in_cs_nonneg|].
        destruct m, p; simpl in *; lia.
  - unfold Unlock in Hstep; simpl in Hstep. destruct m; [|done].
    injection Hstep as <-. rewrite !Hins.
    assert (add j 1 = j + 1) as ->.
    { apply GoIntFacts.succ_small; unfold int_max in *; lia. }
    inc_fields.
  - assert (Done w = Next (w - 1)) as Hd.
    { apply Add_small. destruct p; simpl in *; (done || lia). }
    rewrite Hd in Hstep. injection Hstep as <-. rewrite !Hins. inc_fields.
Qed.

Lemma counter_inv_step g s s' : Inv G K s → step G K g s = Next s' → Inv G K s'.
Proof.
  destruct g; simpl; [apply counter_inv_step_main|apply counter_inv_step_inc|done..].
Qed.

Lemma counter_inv_reachable s : reachable G K s → Inv G K s.
Proof. induction 1; [apply counter_inv_init|by eapply counter_inv_step]. Qed.

Lemma counter_run_reachable sched s s' :
  reachable G K s → run G K sched s = Some s' → reachable G K s'.
Proof.
  revert s. induction sched as [|g sched IH]; intros s Hr; simpl.
  - by intros [= <-].
  - destruct (step G K g s) as [s1| |] eqn:Hs; [|done..].
    apply IH. by eapply reach_step.
Qed.

(** *** No fatal error *)

Lemma counter_no_panic g s : Inv G K s → step G K g s ≠ Panic.
Proof.
  intros [Hmu Hval Hrd Hwg Hids Hfin Hloop Hpc].
  destruct s as [[m v] w p l fin fi]. unfold holders in Hmu. simpl in *.
  pose proof (total_nonneg in_cs l in_cs_nonneg) as Hc.
  pose proof (total_nonneg alive l alive_nonneg) as Ha.
  pose proof (total_alive_le l) as Hb.
  destruct g as [|k| |]; simpl; [| |done..].
  - unfold step_main; simpl. destruct p as [i|i| | | |u|]; simpl in *; try done.
    + case_decide; [|done]. rewrite Add_small by lia. done.
    + by case_decide.
    + unfold Lock; simpl. by destruct m.
    + unfold Unlock; simpl. destruct m; [done|lia].
  - unfold step_inc; simpl. destruct (l !! k) as [[n q]|] eqn:Hk; [|done].
    apply lookup_split in Hk as (l1 & l2 & -> & _ & _).
    rewrite total_app, total_cons in Hmu, Hwg, Hc, Ha. simpl in Hmu, Hwg, Hc, Ha.
    rewrite length_app in Hb, Hpc. simpl in Hb, Hpc.
    pose proof (total_nonneg in_cs l1 in_cs_nonneg).
    pose proof (total_nonneg in_cs l2 in_cs_nonneg).
    pose proof (total_nonneg alive l1 alive_nonneg).
    pose proof (total_nonneg alive l2 alive_nonneg).
    pose proof (total_alive_le l1). pose proof (total_alive_le l2).
    destruct q as [j|j|j u|j| |]; simpl in *; try done.
    + case_decide; [|done]. unfold Lock; simpl. by destruct m.
    + unfold Unlock; simpl. destruct m; [done|]. destruct p; simpl in *; lia.
    + unfold Done. rewrite (Add_small w (-1)); [done|].
      rewrite total_app, total_cons in Hpc. destruct p; simpl in *; lia.
Qed.

(** *** Every step lowers the measure *)

Lemma inc_left_nonneg l :
  Forall (λ w : Z * inc_pc,
            match w.2 with
            | ILoop j => 0 ≤ j ≤ Z.max K 0
            | IRead j | IWrite j _ | IUnlock j => 0 ≤ j < K
            | _ => True
            end) l →
  0 ≤ total (inc_left K) l.
Proof.
  induction 1 as [|[n p] l Hp _ IH]; [by rewrite total_nil|].
  rewrite total_cons. destruct p; simpl in *; lia.
Qed.

Lemma counter_measure_nonneg s : Inv G K s → 0 ≤ measure G K s.
Proof.
  intros HI. unfold measure. pose proof (inc_left_nonneg _ (inv_loop _ _ _ HI)).
  destruct (pc s); simpl; nia.
Qed.

Lemma counter_measure_step g s s' :
  Inv G K s → step G K g s = Next s' → measure G K s' < measure G K s.
Proof.
  intros HI Hstep. pose proof (counter_no_panic g s HI) as Hnp.
  destruct HI as [Hmu Hval Hrd Hwg Hids Hfin Hloop Hpc].
  destruct s as [[m v] w p l fin fi]. unfold measure. simpl in *.
  destruct g as [|k| |]; simpl in *; [| |done..].
  - unfold step_main in Hstep; simpl in Hstep.
    destruct p as [i|i| | | |u|]; simpl in *.
    + case_decide.
      * destruct (Add w 1); [|done..]. injection Hstep as <-. simpl. lia.
      * injection Hstep as <-. simpl. nia.
    + injection Hstep as <-. simpl. rewrite total_app, total_cons, total_nil. simpl.
      destruct Hpc as (Hi & _).
      assert (add i 1 = i + 1) as ->.
      { apply GoIntFacts.succ_small; unfold int_max; lia. }
      rewrite (Z.max_l (G - i)), (Z.max_l (G - (i + 1))) by lia.
      replace (K - 0) with K by lia. generalize (Z.max K 0). intros. lia.
    + case_decide; [|done]. injection Hstep as <-. simpl. lia.
    + destruct (Lock _); [|done..]. injection Hstep as <-. simpl. lia.
    + injection Hstep as <-. simpl. lia.
    + destruct (Unlock _); [|done..]. injection Hstep as <-. simpl. lia.
    + done.
  - unfold step_inc in Hstep; simpl in Hstep.
    destruct (l !! k) as [[n q]|] eqn:Hk; [|done].
    apply lookup_split in Hk as (l1 & l2 & -> & _ & Hins).
    rewrite Forall_app, Forall_cons in Hloop. simpl in Hloop.
    destruct Hloop as (_ & Hq & _).
    destruct q as [j|j|j u|j| |]; simpl in *.
    + case_decide.
      * destruct (Lock _); [|done..]. injection Hstep as <-. simpl.
        rewrite Hins, !total_app, !total_cons. simpl. lia.
      * injection Hstep as <-. simpl.
        rewrite Hins, !total_app, !total_cons. simpl. lia.
    + injection Hstep as <-. simpl.
      rewrite Hins, !total_app, !total_cons. simpl. lia.
    + injection Hstep as <-. simpl.
      rewrite Hins, !total_app, !total_cons. simpl. lia.
    + destruct (Unlock _); [|done..]. injection Hstep as <-. simpl.
      assert (add j 1 = j + 1) as ->.
      { apply GoIntFacts.succ_small; unfold int_max in *; lia. }
      rewrite Hins, !total_app, !total_cons. simpl. lia.
    + destruct (Done _); [|done..]. injection Hstep as <-. simpl.
      rewrite Hins, !total_app, !total_cons. simpl. lia.
    + done.
Qed.

(** A schedule that runs is no longer than the measure of its first state. *)
Lemma counter_run_length sched s0 s :
  Inv G K s0 → run G K sched s0 = Some s →
  Z.of_nat (length sched) + measure G K s ≤ measure G K s0.
Proof.
  revert s0. induction sched as [|g sched IH]; simpl; intros s0 H0.
  - intros [= <-]. lia.
  - destruct (step G K g s0) as [s1| |] eqn:E; [|done..]. intros Hrun.
    pose proof (counter_measure_step _ _ _ H0 E).
    pose proof (IH s1 (counter_inv_step _ _ _ H0 E) Hrun). lia.
Qed.

(** *** Where the program can stop *)

Lemma total_pos f l :
  (∀ p, 0 ≤ f p) → 0 < total f l →
  ∃ k n q, l !! k = Some (n, q) ∧ 0 < f q.
Proof.
  intros Hf. induction l as [|[n q] l IH]; [rewrite total_nil; lia|].
  rewrite total_cons. simpl. intros Hpos.
  destruct (decide (0 < f q)) as [Hq|Hq].
  - by exists 0%nat, n, q.
  - destruct IH as (k & n' & q' & Hk & Hq'); [lia|]. by exists (S k), n', q'.
Qed.

Lemma counter_stuck_done s : Inv G K s → stuck G K s → pc s = MDone.
Proof.
  intros HI Hst. pose proof (Hst Main) as HM.
  pose proof (counter_no_panic Main s HI) as HnpM.
  assert (∀ k, step_inc K k s ≠ Panic) as Hnp
    by (intros k; apply (counter_no_panic (Worker k) s HI)).
  assert (∀ k, ¬ ∃ s', step_inc K k s = Next s') as Hno.
  { intros k [s' Hs]. specialize (Hst (Worker k)). unfold enabled in Hst.
    simpl in Hst. by rewrite Hs in Hst. }
  destruct HI as [Hmu Hval Hrd Hwg Hids Hfin Hloop Hpc].
  destruct s as [[m v] w p l fin fi]. unfold holders, enabled in *. simpl in *.
  pose proof (total_nonneg in_cs l in_cs_nonneg) as Hc.
  pose proof (total_nonneg alive l alive_nonneg) as Ha.
  unfold step_main in HM, HnpM; simpl in HM, HnpM.
  destruct p as [i|i| | | |u|]; simpl in *; try done.
  - pose proof (total_alive_le l). case_decide; simpl in *; [|done].
    rewrite Add_small in HM by lia. done.
  - case_decide as Hw; simpl in *; [done|]. exfalso.
    pose proof (total_alive_le l) as Hle.
    assert (0 < total alive l) as Hal by lia.
    destruct (total_pos alive l alive_nonneg Hal) as (k & n & q & Hk & Hq).
    destruct (decide (0 < total in_cs l)) as [Hin|Hin].
    + clear k n q Hk Hq.
      destruct (total_pos in_cs l in_cs_nonneg Hin) as (k & n & q & Hk & Hq).
      assert (m = true) as -> by (destruct m; [done|lia]).
      apply (Hno k). unfold step_inc; simpl. rewrite Hk.
      destruct q; simpl in Hq; try lia; eauto.
    + assert (m = false) as -> by (destruct m; [lia|done]).
      apply (Hno k). unfold step_inc; simpl. rewrite Hk.
      destruct (lookup_split _ _ _ Hk) as (l1 & l2 & Hl & _ & _).
      rewrite Hl, total_app, total_cons in Hin.
      pose proof (total_nonneg in_cs l1 in_cs_nonneg).
      pose proof (total_nonneg in_cs l2 in_cs_nonneg).
      destruct q; simpl in *; try lia; eauto.
      * case_decide; eauto.
      * unfold Done. rewrite Add_small by lia. eauto.
  - destruct (total_exited K l) as (_ & _ & Hcs & _); [tauto|].
    unfold Lock in HM; simpl in HM. destruct m; [lia|done].
  - unfold Unlock in *; simpl in *. by destruct m.
Qed.

Lemma counter_enabled_goroutine s g : enabled G K s g = true → g ∈ goroutines s.
Proof.
  unfold enabled, goroutines. destruct g as [|i| |]; simpl; [|  |done..].
  - intros _. apply list_elem_of_here.
  - unfold step_inc. destruct (incs s !! i) as [x|] eqn:Hi; [|done].
    intros _. apply list_elem_of_further, list_elem_of_fmap.
    exists i. split; [done|]. apply elem_of_seq.
    pose proof (lookup_lt_Some _ _ _ Hi). lia.
Qed.

Lemma counter_find_none_stuck s :
  list_find (λ g, enabled G K s g = true) (goroutines s) = None → stuck G K s.
Proof.
  intros Hnone g. apply list_find_None in Hnone.
  destruct (enabled G K s g) eqn:E; [|done].
  apply counter_enabled_goroutine in E as Hin.
  rewrite Forall_forall in Hnone. by destruct (Hnone g Hin).
Qed.

Lemma counter_run_first_stuck fuel s :
  Inv G K s → measure G K s ≤ Z.of_nat fuel →
  stuck G K (run_first G K fuel s)
  ∧ ∃ sched, run G K sched s = Some (run_first G K fuel s).
Proof.
  revert s. induction fuel as [|fuel IH]; intros s HI Hfuel; cbn [run_first].
  - split; [|by exists []]. intros g.
    destruct (enabled G K s g) eqn:E; [|done]. unfold enabled in E.
    destruct (step G K g s) as [s'| |] eqn:Es; [|done..].
    pose proof (counter_measure_step _ _ _ HI Es).
    pose proof (counter_measure_nonneg s' (counter_inv_step _ _ _ HI Es)). lia.
  - destruct (list_find _ _) as [[k g]|] eqn:Efind.
    + apply list_find_Some in Efind as (_ & Hen & _). unfold enabled in Hen.
      destruct (step G K g s) as [s'| |] eqn:Es; [|done..].
      pose proof (counter_measure_step _ _ _ HI Es).
      destruct (IH s' (counter_inv_step _ _ _ HI Es)) as [Hst [sched Hrun]]; [lia|].
      split; [done|]. exists (g :: sched). cbn [run]. by rewrite Es.
    + split; [by apply counter_find_none_stuck|by exists []].
Qed.

(** *** The finished program *)

Lemma counter_done s :
  Inv G K s → pc s = MDone →
  final s = Some (wrap (Z.max G 0 * Z.max K 0))
  ∧ mu (counter s) = false
  ∧ Forall (λ w, w.2 = IExit) (incs s)
  ∧ finished s ≡ₚ seqZ 0 G.
Proof.
  intros [Hmu Hval Hrd Hwg Hids Hfin Hloop Hpc] Hdone.
  destruct s as [[m v] w p l fin fi]. unfold holders in *. simpl in *. subst p.
  destruct Hpc as (Hlen & Hal & ->).
  destruct (total_exited K l Hal) as (Hex & Hinc & Hcs & _).
  simpl in Hmu. split; [by rewrite Hval, Hinc, Hlen|].
  split; [destruct m; [lia|done]|]. split; [done|].
  rewrite Hfin.
  assert (omap returned l = l.*1) as ->.
  { clear -Hex. induction Hex as [|[n q] l Hq _ IH]; [done|].
    simpl in Hq. subst q. simpl. f_equal. exact IH. }
  rewrite Hids, Hlen. destruct (decide (0 ≤ G)).
  - by rewrite Z.max_l by lia.
  - rewrite Z.max_r by lia. by rewrite !seqZ_nil by lia.
Qed.

End Invariant.
End CounterProofs.

(** ** Cancellation through a closed channel *)

Module ContextProofs.
Import GoInt Context.

Lemma workings_snoc i : 0 ≤ i → workings (i + 1) = workings i ++ [Working (i + 1)].
Proof.
  intros Hi. unfold workings. rewrite (seqZ_snoc (i + 1)) by lia.
  rewrite fmap_app. simpl. by replace (i + 1 - 1) with i by lia.
Qed.

Lemma filter_workings k : filter (λ l, is_working l = true) (workings k) = workings k.
Proof.
  unfold workings. induction (seqZ 1 k) as [|x l IH]; [done|].
  rewrite fmap_cons, filter_cons_True by done. by rewrite IH.
Qed.

Section Invariant.
Variable steps : Z.
Hypothesis Hsteps : steps ≤ int_max.

Lemma context_inv_init : Inv steps context_init.
Proof.
  constructor; simpl; try done. split; [lia|]. split; [|done].
  unfold workings. by rewrite seqZ_nil by lia.
Qed.

Lemma ended_closed o : ended steps false o → ended steps true o.
Proof.
  intros (k & Hk & [(? & ? & ?)|(? & ?)]); [done|].
  exists k. split; [done|]. by right.
Qed.

Lemma context_inv_step g s s' : Inv steps s → step steps g s = Next s' → Inv steps s'.
Proof.
  intros [Hbuf Hcl Hlog Hopen Hdone Hop] Hstep.
  destruct s as [cn dn o c p out]. simpl in *.
  destruct g as [|[|[|k]]| |]; simpl in Hstep; try done.
  - unfold step_main in Hstep; simpl in Hstep.
    destruct p; [done| |done]. injection Hstep as <-.
    constructor; simpl; try done. destruct o; simpl in *; try done.
    + destruct Hop as (_ & _ & ?). done.
    + destruct Hop as (_ & ?). done.
    + by exists out.
  - unfold step_operation in Hstep; simpl in Hstep.
    destruct o as [i| |]; simpl in *; [| |done].
    + destruct Hop as (Hi & Hout & ->). case_decide as Hlt.
      * unfold chan_recv in Hstep. rewrite Hbuf in Hstep.
        destruct (chan_closed cn) eqn:Ecl.
        -- injection Hstep as <-. constructor; simpl; rewrite ?Ecl; try done.
           split; [|done]. exists i. split; [done|]. left. by rewrite Hout.
        -- injection Hstep as <-.
           assert (add i 1 = i + 1) as ->.
           { apply GoIntFacts.succ_small; unfold int_max in *; lia. }
           constructor; simpl; rewrite ?Ecl; try done.
           split; [lia|]. split; [|done]. by rewrite Hout, workings_snoc by lia.
      * injection Hstep as <-. constructor; simpl; try done.
        split; [|done]. exists i. split; [done|]. right. rewrite Hout. split; [done|lia].
    + destruct Hop as (Hend & ->). unfold chan_sync in Hstep. rewrite Hopen in Hstep.
      injection Hstep as <-. constructor; simpl; try done. by rewrite Hdone.
  - unfold step_canceller in Hstep; simpl in Hstep. destruct c; [|done].
    unfold chan_close in Hstep. rewrite Hcl in Hstep. injection Hstep as <-.
    rewrite Hcl in Hlog. constructor; simpl; try done.
    + by rewrite writes_snoc, Hlog.
    + rewrite Hcl in Hop. destruct o; simpl in *.
      * done.
      * destruct Hop as (Hend & ?). split; [by apply ended_closed|done].
      * destruct p; [done|by apply ended_closed|].
        destruct Hop as (o' & ? & ?). exists o'. split; [done|by apply ended_closed].
Qed.

Lemma context_inv_reachable s : reachable steps s → Inv steps s.
Proof. induction 1; [apply context_inv_init|by eapply context_inv_step]. Qed.

Lemma context_run_reachable sched s s' :
  reachable steps s → run steps sched s = Some s' → reachable steps s'.
Proof.
  revert s. induction sched as [|g sched IH]; intros s Hr; simpl.
  - by intros [= <-].
  - destruct (step steps g s) as [s1| |] eqn:Hs; [|done..].
    apply IH. by eapply reach_step.
Qed.

Lemma context_no_panic g s : Inv steps s → step steps g s ≠ Panic.
Proof.
  intros [Hbuf Hcl Hlog Hopen Hdone Hop].
  destruct s as [cn dn o c p out]. simpl in *.
  destruct g as [|[|[|k]]| |]; simpl; try done.
  - unfold step_main; simpl. by destruct p.
  - unfold step_operation; simpl. destruct o as [i| |]; simpl in *; [| |done].
    + case_decide; [|done]. unfold chan_recv. rewrite Hbuf.
      by destruct (chan_closed cn).
    + destruct p; try done. unfold chan_sync. by rewrite Hopen.
  - unfold step_canceller; simpl. destruct c; [|done].
    unfold chan_close. by rewrite Hcl.
Qed.

Lemma context_measure_nonneg s : 0 ≤ measure steps s.
Proof.
  unfold measure. destruct (op s), (canceller s), (pc s); simpl; lia.
Qed.

Lemma context_measure_step g s s' :
  Inv steps s → step steps g s = Next s' → measure steps s' < measure steps s.
Proof.
  intros [Hbuf Hcl Hlog Hopen Hdone Hop] Hstep.
  destruct s as [cn dn o c p out]. unfold measure. simpl in *.
  destruct g as [|[|[|k]]| |]; simpl in Hstep; try done.
  - unfold step_main in Hstep; simpl in Hstep.
    destruct p; [done| |done]. injection Hstep as <-. simpl. lia.
  - unfold step_operation in Hstep; simpl in Hstep.
    destruct o as [i| |]; simpl in *; [| |done].
    + destruct Hop as (Hi & Hout & ->). case_decide as Hlt.
      * destruct (chan_recv _ _) as [[? ?]| |]; [| |done]; injection Hstep as <-; simpl.
        -- lia.
        -- assert (add i 1 = i + 1) as ->.
           { apply GoIntFacts.succ_small; unfold int_max in *; lia. }
           lia.
      * injection Hstep as <-. simpl. lia.
    + destruct Hop as (Hend & ->). destruct (chan_sync _ _ _ _); [|done..].
      injection Hstep as <-. simpl. lia.
  - unfold step_canceller in Hstep; simpl in Hstep. destruct c; [|done].
    destruct (chan_close _ _); [|done..]. injection Hstep as <-. simpl. lia.
Qed.

Lemma context_run_length sched s0 s :
  Inv steps s0 → run steps sched s0 = Some s →
  Z.of_nat (length sched) + measure steps s ≤ measure steps s0.
Proof.
  revert s0. induction sched as [|g sched IH]; simpl; intros s0 H0.
  - intros [= <-]. lia.
  - destruct (step steps g s0) as [s1| |] eqn:E; [|done..]. intros Hrun.
    pose proof (context_measure_step _ _ _ H0 E).
    pose proof (IH s1 (context_inv_step _ _ _ H0 E) Hrun). lia.
Qed.

Lemma context_stuck_done s :
  Inv steps s → stuck steps s →
  pc s = MDone ∧ op s = OExit ∧ canceller s = CExit.
Proof.
  intros [Hbuf Hcl Hlog Hopen Hdone Hop] Hst.
  pose proof (Hst Main) as HM. pose proof (Hst Operation) as HO.
  pose proof (Hst Canceller) as HC.
  destruct s as [cn dn o c p out]. unfold enabled in *. simpl in *.
  unfold step_main, step_operation, step_canceller in *. simpl in *.
  destruct c; simpl in *.
  { unfold chan_close in HC. by rewrite Hcl in HC. }
  destruct o as [i| |]; simpl in *.
  - unfold chan_recv in HO. rewrite Hbuf, Hcl in HO. by case_decide.
  - destruct Hop as (_ & ->). unfold chan_sync in HO. by rewrite Hopen in HO.
  - by destruct p.
Qed.

End Invariant.

Lemma context_run_app steps l1 l2 s :
  run steps (l1 ++ l2) s = run steps l1 s ≫= run steps l2.
Proof.
  revert s. induction l1 as [|g l1 IH1]; intros s; simpl; [done|].
  by destruct (step steps g s).
Qed.

(** The operation alone, while [cancel] is open, prints step after step. *)
Lemma run_working steps (k : nat) :
  steps ≤ int_max → Z.of_nat k ≤ steps →
  run steps (replicate k Operation) context_init
  = Some (MkContext (make_chan 0) (make_chan 0) (OLoop (Z.of_nat k)) CClose MRecv
                    (workings (Z.of_nat k))).
Proof.
  intros Hs. induction k as [|k IH]; intros Hk.
  - simpl. unfold workings. by rewrite seqZ_nil by lia.
  - replace (S k) with (k + 1)%nat by lia. rewrite replicate_add.
    rewrite context_run_app, IH by lia. simpl. unfold step_operation; simpl.
    rewrite decide_True by lia.
    assert (add (Z.of_nat k) 1 = Z.of_nat (k + 1)) as ->.
    { rewrite GoIntFacts.succ_small; unfold int_max in *; lia. }
    replace (Z.of_nat (k + 1)) with (Z.of_nat k + 1) by lia.
    by rewrite workings_snoc by lia.
Qed.

End ContextProofs.

(** ** The functions of lesson 03 *)

Module FunctionsProofs.
Import GoInt Functions.

Lemma wrap_mod x : wrap x `mod` 2 ^ 64 = x `mod` 2 ^ 64.
Proof.
  unfold wrap. rewrite Zminus_mod_idemp_l. f_equal. lia.
Qed.

Lemma wrap_cong x y : x `mod` 2 ^ 64 = y `mod` 2 ^ 64 → wrap x = wrap y.
Proof.
  intros Hxy. unfold wrap.
  rewrite <-(Z.add_mod_idemp_l x), <-(Z.add_mod_idemp_l y) by lia. by rewrite Hxy.
Qed.

Lemma wrap_add_l a b : wrap (wrap a + b) = wrap (a + b).
Proof.
  apply wrap_cong. rewrite <-Z.add_mod_idemp_l, wrap_mod by lia.
  by rewrite Z.add_mod_idemp_l by lia.
Qed.

Lemma wrap_mul_r a b : wrap (a * wrap b) = wrap (a * b).
Proof.
  apply wrap_cong. rewrite <-Z.mul_mod_idemp_r, wrap_mod by lia.
  by rewrite Z.mul_mod_idemp_r by lia.
Qed.

Lemma wrap_multiple k : wrap (2 ^ 64 * k) = 0.
Proof.
  rewrite <-(GoIntFacts.wrap_small 0) by (unfold in_range, int_min, int_max; lia).
  apply wrap_cong. rewrite Z.mul_comm, Z.mod_mul by lia. done.
Qed.

(** *** [sum] *)

Lemma foldl_add acc l :
  foldl (λ total num, add total num) (wrap acc) l = wrap (acc + sumZ l).
Proof.
  revert acc. induction l as [|x l IH]; intros acc; simpl.
  - f_equal. lia.
  - unfold add at 2. rewrite wrap_add_l, IH. f_equal. lia.
Qed.

Lemma sum_wrap l : sum l = wrap (sumZ l).
Proof.
  unfold sum. rewrite <-(GoIntFacts.wrap_small 0) at 1
    by (unfold in_range, int_min, int_max; lia).
  by rewrite foldl_add.
Qed.

Lemma sumZ_app l k : sumZ (l ++ k) = sumZ l + sumZ k.
Proof. induction l as [|x l IH]; simpl; lia. Qed.

(** *** [factorial] *)

Lemma prodZ_app l k : prodZ (l ++ k) = prodZ l * prodZ k.
Proof. induction l as [|x l IH]; simpl; [lia|]. rewrite IH. lia. Qed.

Lemma prodZ_snoc n : 1 ≤ n → prodZ (seqZ 1 n) = n * prodZ (seqZ 1 (n - 1)).
Proof.
  intros Hn. rewrite (seqZ_snoc n) by done. rewrite prodZ_app. simpl. lia.
Qed.

Lemma factorial_spec depth n :
  in_range n → (Z.to_nat n ≤ depth)%nat → (1 ≤ depth)%nat →
  factorial depth n = Some (wrap (prodZ (seqZ 1 n))).
Proof.
  revert n. induction depth as [|depth IH]; intros n Hn Hd H1; [lia|].
  simpl. case_decide as Hle.
  - f_equal. destruct (decide (n = 1)) as [->|].
    + done.
    + rewrite seqZ_nil by lia. done.
  - assert (wrap (n - 1) = n - 1) as ->.
    { apply GoIntFacts.wrap_small. unfold in_range, int_min, int_max in *. lia. }
    rewrite IH; [|unfold in_range, int_min, int_max in *; lia|lia|lia].
    simpl. f_equal. unfold mul. rewrite wrap_mul_r. f_equal.
    by rewrite (prodZ_snoc n) by lia.
Qed.

Lemma factorial_shallow depth n :
  in_range n → (depth < Z.to_nat n)%nat → factorial depth n = None.
Proof.
  revert n. induction depth as [|depth IH]; intros n Hn Hd; [done|].
  simpl. rewrite decide_False by lia.
  assert (wrap (n - 1) = n - 1) as ->.
  { apply GoIntFacts.wrap_small. unfold in_range, int_min, int_max in *. lia. }
  rewrite IH; [done| |lia]. unfold in_range, int_min, int_max in *. lia.
Qed.

Lemma prodZ_ge_1 l : Forall (λ x, 1 ≤ x) l → 1 ≤ prodZ l.
Proof. induction 1 as [|x l Hx _ IH]; simpl; [lia|nia]. Qed.

Lemma seqZ_ge m n : 1 ≤ m → Forall (λ x, 1 ≤ x) (seqZ m n).
Proof.
  intros Hm. apply Forall_forall. intros x Hx. apply elem_of_seqZ in Hx. lia.
Qed.

(** Up to 20 the product fits an [int]; from 21 on it does not. *)
Lemma factorial_fits n : n ≤ 20 → in_range (prodZ (seqZ 1 n)).
Proof.
  intros Hn. destruct (decide (n ≤ 0)) as [Hle|Hgt].
  { rewrite seqZ_nil by lia. by vm_compute. }
  assert (n = 1 ∨ n = 2 ∨ n = 3 ∨ n = 4 ∨ n = 5 ∨ n = 6 ∨ n = 7 ∨ n = 8 ∨ n = 9
          ∨ n = 10 ∨ n = 11 ∨ n = 12 ∨ n = 13 ∨ n = 14 ∨ n = 15 ∨ n = 16
          ∨ n = 17 ∨ n = 18 ∨ n = 19 ∨ n = 20) as Hcases by lia.
  repeat (destruct Hcases as [->|Hcases]); try subst n; by vm_compute.
Qed.

Lemma factorial_exceeds n : 20 < n → int_max < prodZ (seqZ 1 n).
Proof.
  intros Hn. replace n with (21 + (n - 21)) by lia.
  rewrite seqZ_app, prodZ_app by lia.
  pose proof (prodZ_ge_1 _ (seqZ_ge (1 + 21) (n - 21) ltac:(lia))) as Hrest.
  assert (int_max < prodZ (seqZ 1 21)) as H21 by (by vm_compute).
  revert Hrest H21. generalize (prodZ (seqZ (1 + 21) (n - 21))).
  generalize (prodZ (seqZ 1 21)). unfold int_max. intros. nia.
Qed.

(** From 66 on the product is a multiple of 2^64. *)
Lemma factorial_vanishes n : 66 ≤ n → wrap (prodZ (seqZ 1 n)) = 0.
Proof.
  intros Hn. replace n with (66 + (n - 66)) by lia.
  rewrite seqZ_app, prodZ_app by lia.
  assert (prodZ (seqZ 1 66) = 2 ^ 64 * (prodZ (seqZ 1 66) `div` 2 ^ 64)) as ->
    by (vm_compute; reflexivity).
  rewrite <-Z.mul_assoc. apply wrap_multiple.
Qed.

(** *** [divide] *)

Lemma quot_in_range a b :
  in_range a → in_range b → b ≠ 0 → ¬ (a = int_min ∧ b = -1) →
  in_range (a ÷ b) ∧ Z.abs (a ÷ b) ≤ Z.abs a.
Proof.
  unfold in_range, int_min, int_max. intros Ha Hb Hb0 Hov.
  assert (Z.abs (a ÷ b) ≤ Z.abs a) as Habs.
  { rewrite <-Z.quot_abs by done. apply Z.quot_le_upper_bound; nia. }
  split; [|done].
  destruct (decide (b = -1)) as [->|Hb1].
  { replace (a ÷ -1) with (- a); [lia|].
    change (a ÷ -1) with (a ÷ Z.opp 1).
    rewrite Z.quot_opp_r by lia. by rewrite Z.quot_1_r. }
  destruct (decide (b = 1)) as [->|Hb2].
  { rewrite Z.quot_1_r. lia. }
  assert (Z.abs (a ÷ b) ≤ 2 ^ 62); [|lia].
  rewrite <-Z.quot_abs by done. apply Z.quot_le_upper_bound; lia.
Qed.

End FunctionsProofs.

(** ** [generateNumbers] at the largest [int] *)

Module MaxCountFacts.
Import GoInt Pipeline.

(** With [count] the largest [int], [i <= count] holds of every [int]: the
    generator never leaves its loop, so nothing is ever closed. *)
Lemma max_count_open s :
  reachable int_max s →
  chan_closed (numbers s) = false ∧ chan_closed (squares s) = false
  ∧ chan_buf (numbers s) = [] ∧ chan_buf (squares s) = []
  ∧ closes (chan_log (numbers s)) = []
  ∧ (∃ i, gen s = GLoop i ∧ i ≤ int_max) ∧ sq s ≠ SDone ∧ prn s = PRecv.
Proof.
  induction 1 as [|s g s' Hreach IH Hstep].
  { repeat split; try done. exists 1. split; [done|]. unfold int_max. lia. }
  destruct IH as (Hn & Hs & Hbn & Hbs & Hcl & (i & Hg & Hi) & Hsq & Hp).
  destruct g as [|k| |]; simpl in Hstep; [|done| |].
  - unfold step_printer in Hstep. rewrite Hp in Hstep.
    unfold chan_recv in Hstep. by rewrite Hbs, Hs in Hstep.
  - unfold step_generator in Hstep. rewrite Hg in Hstep.
    rewrite decide_True in Hstep by done.
    destruct (sq s); [|done..]. unfold chan_sync in Hstep. rewrite Hn in Hstep.
    injection Hstep as <-. simpl. repeat split; try done.
    + unfold closes in *. by rewrite omap_app, Hcl.
    + exists (add i 1). split; [done|]. apply GoIntFacts.succ_le_max.
  - unfold step_squarer in Hstep. destruct (sq s) as [|num|]; [| |done].
    + unfold chan_recv in Hstep. by rewrite Hbn, Hn in Hstep.
    + rewrite Hp in Hstep. unfold chan_sync in Hstep. rewrite Hs in Hstep.
      injection Hstep as <-. simpl. repeat split; try done. by exists i.
Qed.

Lemma max_count_moves s :
  reachable int_max s → ∃ g, enabled int_max s g = true.
Proof.
  intros Hr.
  destruct (max_count_open s Hr) as (Hn & Hs & Hbn & Hbs & _ & (i & Hg & Hi) & Hsq & Hp).
  destruct (sq s) as [|num|] eqn:Esq; [| |done].
  - exists Generator. unfold enabled. simpl. unfold step_generator.
    rewrite Hg, decide_True, Esq by done. unfold chan_sync. by rewrite Hn.
  - exists Squarer. unfold enabled. simpl. unfold step_squarer.
    rewrite Esq, Hp. unfold chan_sync. by rewrite Hs.
Qed.

Lemma pipeline_run_app count l1 l2 s :
  run count (l1 ++ l2) s = run count l1 s ≫= run count l2.
Proof.
  revert s. induction l1 as [|g l1 IH]; intros s; simpl; [done|].
  by destruct (step count g s).
Qed.

(** The generator and the squarer taking turns: after [k] rounds the numbers
    1..k have been sent. *)
Lemma max_count_rounds (k : nat) :
  Z.of_nat k < int_max →
  ∃ sched s, run int_max sched pipeline_init = Some s
             ∧ gen s = GLoop (Z.of_nat k + 1) ∧ sq s = SRecv ∧ prn s = PRecv
             ∧ chan_closed (numbers s) = false ∧ chan_closed (squares s) = false
             ∧ enqueued (chan_log (numbers s)) = seqZ 1 (Z.of_nat k).
Proof.
  induction k as [|k IH]; intros Hk.
  { exists [], pipeline_init. by repeat split. }
  destruct IH as (sched & s & Hrun & Hg & Hsq & Hp & Hn & Hs & Hen); [lia|].
  destruct s as [cn cs g q p o]. simpl in *. subst g q p.
  eexists (sched ++ [Generator; Squarer]), _.
  rewrite pipeline_run_app, Hrun. cbn [mbind option_bind run step].
  unfold step_generator. cbn [gen sq numbers squares prn out].
  rewrite decide_True by (unfold int_max in *; lia). unfold chan_sync. rewrite Hn.
  cbn [run step]. unfold step_squarer. cbn [sq prn squares].
  unfold chan_sync. rewrite Hs. cbn [run].
  split; [reflexivity|]. cbn [gen sq prn numbers squares chan_closed chan_log].
  assert (add (Z.of_nat k + 1) 1 = Z.of_nat (S k) + 1) as ->.
  { rewrite GoIntFacts.succ_small by (unfold int_max in *; lia). lia. }
  repeat split; try done.
  unfold enqueued in *. rewrite omap_app, Hen. cbn [omap list_omap snd].
  rewrite (seqZ_snoc (Z.of_nat (S k))) by lia.
  replace (Z.of_nat (S k) - 1) with (Z.of_nat k) by lia.
  do 2 f_equal. lia.
Qed.

(** After the number [int_max] the generator sends [int_min]. *)
Lemma max_count_wraps :
  ∃ sched s, run int_max sched pipeline_init = Some s
             ∧ enqueued (chan_log (numbers s)) = seqZ 1 int_max ++ [int_min].
Proof.
  assert (∃ k : nat, Z.of_nat k = int_max - 1) as [k Hk].
  { exists (Z.to_nat (int_max - 1)). apply Z2Nat.id. unfold int_max. lia. }
  assert (1 ≤ int_max) as Hpos by (unfold int_max; lia).
  assert (add int_max 1 = int_min) as Hwrap by (by vm_compute).
  assert (int_min ≤ int_max) as Hle by (unfold int_min, int_max; lia).
  destruct (max_count_rounds k) as (sched & s & Hrun & Hg & Hsq & Hp & Hn & Hs & Hen).
  { rewrite Hk. lia. }
  rewrite Hk in Hg, Hen.
  replace (int_max - 1 + 1) with int_max in Hg by lia.
  destruct s as [cn cs g q p o]. simpl in Hg, Hsq, Hp, Hn, Hs, Hen. subst g q p.
  eexists (sched ++ [Generator; Squarer; Generator]), _.
  rewrite pipeline_run_app, Hrun. cbn [mbind option_bind run step].
  unfold step_generator. cbn [gen sq numbers squares prn out].
  rewrite decide_True by lia. unfold chan_sync. rewrite Hn.
  cbn [run step]. unfold step_squarer. cbn [sq prn squares].
  unfold chan_sync. rewrite Hs. cbn [run step].
  unfold step_generator. cbn [gen sq numbers chan_closed]. rewrite Hwrap.
  rewrite decide_True by done.
  unfold chan_sync. cbn [chan_closed run].
  split; [reflexivity|]. cbn [numbers chan_log].
  unfold enqueued in *. rewrite !omap_app, Hen. cbn [omap list_omap snd].
  rewrite (seqZ_snoc int_max) by done. reflexivity.
Qed.

End MaxCountFacts.

(** ** The cancelable operation, statement by statement *)

Module ContextStepsProofs.
Import Context ContextSteps.

Lemma worked_snoc out l :
  filter (λ l, is_working l = true) (out ++ [l])
  = filter (λ l, is_working l = true) out ++ (if is_working l then [l] else []).
Proof.
  rewrite filter_app. f_equal. rewrite filter_cons, filter_nil.
  destruct (is_working l); by case_decide.
Qed.

(** Once [cancel] is closed it stays closed, and the lines printed and
    pending stay what they are. *)
Lemma closed_step steps g s s' :
  step steps g s = Next s' → chan_closed (cancel s) = true →
  chan_closed (cancel s') = true
  ∧ worked s' ++ pending (op s') = worked s ++ pending (op s).
Proof.
  intros Hstep Hcl. destruct s as [cn dn o c p out]. unfold worked. simpl in *.
  destruct g as [|[|[|k]]| |]; simpl in Hstep; try done.
  - unfold step_main in Hstep; simpl in Hstep.
    destruct p; [done| |done]. injection Hstep as <-. simpl.
    split; [done|]. by rewrite worked_snoc, app_nil_r.
  - unfold step_operation in Hstep; simpl in Hstep.
    destruct o as [i|i| | |]; simpl in *; [| | | |done].
    + case_decide.
      * unfold chan_recv in Hstep. rewrite Hcl in Hstep.
        by destruct (chan_buf cn); injection Hstep as <-.
      * injection Hstep as <-. simpl.
        split; [done|]. by rewrite worked_snoc, app_nil_r.
    + injection Hstep as <-. simpl. split; [done|].
      by rewrite worked_snoc, app_nil_r.
    + injection Hstep as <-. simpl. split; [done|].
      by rewrite worked_snoc, app_nil_r.
    + destruct p; try done. destruct (chan_sync _ _ _ _); [|done..].
      by injection Hstep as <-.
  - unfold step_canceller in Hstep; simpl in Hstep. destruct c; [|done].
    unfold chan_close in Hstep. by rewrite Hcl in Hstep.
Qed.

Lemma closed_run steps sched s s' :
  run steps sched s = Some s' → chan_closed (cancel s) = true →
  chan_closed (cancel s') = true
  ∧ worked s' ++ pending (op s') = worked s ++ pending (op s).
Proof.
  revert s. induction sched as [|g sched IH]; simpl; intros s.
  - by intros [= <-].
  - destruct (step steps g s) as [s1| |] eqn:E; [|done..]. intros Hrun Hcl.
    destruct (closed_step _ _ _ _ E Hcl) as [Hcl1 Hw1].
    destruct (IH s1 Hrun Hcl1) as [Hcl2 Hw2]. split; [done|congruence].
Qed.

(** The output only grows. *)
Lemma output_step steps g s s' :
  step steps g s = Next s' → output s `prefix_of` output s'.
Proof.
  intros Hstep. destruct s as [cn dn o c p out]. simpl in *.
  destruct g as [|[|[|k]]| |]; simpl in Hstep; try done.
  - unfold step_main in Hstep; simpl in Hstep.
    destruct p; [done| |done]. injection Hstep as <-. by apply prefix_app_r.
  - unfold step_operation in Hstep; simpl in Hstep.
    destruct o as [i|i| | |]; simpl in *; [| | | |done].
    + case_decide.
      * by destruct (chan_recv _ _) as [[? ?]| |]; [injection Hstep as <-
                                                    |injection Hstep as <-|].
      * injection Hstep as <-. by apply prefix_app_r.
    + injection Hstep as <-. by apply prefix_app_r.
    + injection Hstep as <-. by apply prefix_app_r.
    + destruct p; try done. destruct (chan_sync _ _ _ _); [|done..].
      by injection Hstep as <-.
  - unfold step_canceller in Hstep; simpl in Hstep. destruct c; [|done].
    destruct (chan_close _ _); [|done..]. by injection Hstep as <-.
Qed.

Lemma output_run steps sched s s' :
  run steps sched s = Some s' → output s `prefix_of` output s'.
Proof.
  revert s. induction sched as [|g sched IH]; simpl; intros s.
  - by intros [= <-].
  - destruct (step steps g s) as [s1| |] eqn:E; [|done..]. intros Hrun.
    etrans; [by eapply output_step|by apply IH].
Qed.

End ContextStepsProofs.

(** * The properties of the specification *)

(** ** The worker pool *)



(** C2.  [demonstrateWorkerPool] (3 workers, the jobs 1..9, every job
    doubled): every schedule has at most 47 steps and stops only when the
    function has returned; the nine printed results are then a permutation
    of 2, 4, ..., 18, as a set they are {2, 4, ..., 18}, and their sum is
    90. *)
Theorem demonstrateWorkerPool_results (sched : list goroutine) (s : Pool.pool) :
  Pool.demonstrateWorkerPool sched = Some s →
  (length sched ≤ 47)%nat
  ∧ (Pool.stuck Pool.numWorkers Pool.numJobs s → Pool.pc s = Pool.MDone)
  ∧ (Pool.pc s = Pool.MDone →
       Pool.printed s ≡ₚ [2; 4; 6; 8; 10; 12; 14; 16; 18]
       ∧ list_to_set (Pool.printed s) =@{gset Z} list_to_set [2; 4; 6; 8; 10; 12; 14; 16; 18]
       ∧ sumZ (Pool.printed s) = 90).
Proof.
  unfold Pool.demonstrateWorkerPool. intros Hrun.
  assert (HW : Pool.numWorkers < GoInt.int_max) by reflexivity.
  assert (HN : Pool.numJobs < GoInt.int_max) by reflexivity.
  pose proof (PoolProofs.inv_init Pool.numWorkers Pool.numJobs) as H0.
  pose proof (PoolProofs.run_length _ _ HW HN sched _ s H0 Hrun) as Hlen.
  pose proof (PoolProofs.run_reachable _ _ sched _ s (Pool.reach_init _ _) Hrun)
    as Hreach.
  pose proof (PoolProofs.inv_reachable _ _ HW HN s Hreach) as HI.
  split; [change (Pool.measure _ _ Pool.pool_init) with 47%nat in Hlen; lia|].
  split; [intros Hst; by apply (PoolProofs.stuck_done Pool.numWorkers Pool.numJobs s)|].
  intros Epc. pose proof (PoolProofs.done_results _ _ s HI Epc) as Hperm.
  change (Pool.transform <$> seqZ 1 Pool.numJobs)
    with [2; 4; 6; 8; 10; 12; 14; 16; 18] in Hperm.
  split; [done|]. split.
  - by rewrite Hperm.
  - by rewrite (sumZ_Permutation _ _ Hperm).
Qed.

Lemma demonstrateWorkerPool_results_witness :
  ∃ s, Pool.demonstrateWorkerPool Pool.racing_schedule = Some s
       ∧ Pool.printed s = [6; 4; 2; 12; 10; 8; 14; 16; 18]
       ∧ (length Pool.racing_schedule ≤ 47)%nat
       ∧ (Pool.stuck Pool.numWorkers Pool.numJobs s → Pool.pc s = Pool.MDone)
       ∧ (Pool.pc s = Pool.MDone →
            Pool.printed s ≡ₚ [2; 4; 6; 8; 10; 12; 14; 16; 18]
            ∧ list_to_set (Pool.printed s) =@{gset Z} list_to_set [2; 4; 6; 8; 10; 12; 14; 16; 18]
            ∧ sumZ (Pool.printed s) = 90).
Proof.
  eexists. split; [vm_compute; reflexivity|]. split; [reflexivity|].
  apply (demonstrateWorkerPool_results Pool.racing_schedule).
  vm_compute. reflexivity.
Defined.

(** C4.  A worker returns exactly from the receive on the closed and
    drained jobs channel: there its step exists and is its return, and no
    other step of a worker is a return.  No step of a worker sends on the
    jobs channel or closes it (the closed flag and the writes in the history
    are unchanged, the buffer only loses its head), so in every execution
    every write to the jobs channel is a write of [Main]. *)
Theorem worker_exit_discipline (W N : Z) (i : nat) (s : Pool.pool) :
  (∀ id, Pool.workers s !! i = Some (id, Pool.WRecv) →
         chan_closed (Pool.jobs s) = true → chan_buf (Pool.jobs s) = [] →
         ∃ s', Pool.step W N (Worker i) s = Next s'
               ∧ Pool.workers s' !! i = Some (id, Pool.WExit))
  ∧ (∀ s', Pool.step W N (Worker i) s = Next s' →
       ((snd <$> Pool.workers s' !! i) = Some Pool.WExit
        ↔ (snd <$> Pool.workers s !! i) = Some Pool.WRecv
          ∧ chan_closed (Pool.jobs s) = true ∧ chan_buf (Pool.jobs s) = [])
       ∧ chan_closed (Pool.jobs s') = chan_closed (Pool.jobs s)
       ∧ writes (chan_log (Pool.jobs s')) = writes (chan_log (Pool.jobs s))
       ∧ chan_buf (Pool.jobs s') `suffix_of` chan_buf (Pool.jobs s))
  ∧ (∀ sched t, Pool.run W N sched Pool.pool_init = Some t →
       Forall (λ e, e.1 = Main) (writes (chan_log (Pool.jobs t)))).
Proof.
  split; [|split].
  - intros id Hi Hcl Hbuf. simpl. by apply PoolProofs.step_worker_returns.
  - intros s' Hstep. simpl in Hstep. split.
    + by apply PoolProofs.step_worker_exit.
    + apply PoolProofs.step_worker_frame in Hstep as (? & ? & ? & _). done.
  - intros sched t Hrun. apply (PoolProofs.writes_by_main W N).
    by apply (PoolProofs.run_reachable W N sched _ t (Pool.reach_init W N)).
Qed.

Lemma worker_exit_discipline_witness :
  ∃ s s', Pool.run 3 9 (take 43 Pool.fifo_schedule) Pool.pool_init = Some s
          ∧ Pool.step 3 9 (Worker 0) s = Next s'
          ∧ Pool.workers s' !! 0%nat = Some (1, Pool.WExit).
Proof.
  eexists.
  match goal with |- ∃ s', _ = Some ?s ∧ _ =>
    assert (Hrun : Pool.run 3 9 (take 43 Pool.fifo_schedule) Pool.pool_init = Some s);
      [vm_compute; reflexivity|];
    destruct (proj1 (worker_exit_discipline 3 9 0 s) 1) as (s' & Hstep & Hexit);
      [vm_compute; reflexivity..|]
  end.
  exists s'. split; [exact Hrun|]. split; [exact Hstep|exact Hexit].
Defined.

(** C5.  The result a worker sends is a function of the job it holds, so two
    runs of the pool on the same input that return print the same results up
    to order, whatever their schedules. *)
Theorem pool_runs_agree (W N : Z) (sched1 sched2 : list goroutine) (s1 s2 : Pool.pool) :
  Pool.run W N sched1 Pool.pool_init = Some s1 → Pool.pc s1 = Pool.MDone →
  Pool.run W N sched2 Pool.pool_init = Some s2 → Pool.pc s2 = Pool.MDone →
  Pool.printed s1 ≡ₚ Pool.printed s2
  ∧ list_to_set (Pool.printed s1) =@{gset Z} list_to_set (Pool.printed s2)
  ∧ ∀ i id job t t',
      Pool.workers t !! i = Some (id, Pool.WWork job) →
      Pool.step W N (Worker i) t = Next t' →
      chan_buf (Pool.results t') = chan_buf (Pool.results t) ++ [Pool.transform job].
Proof.
  intros Hrun1 Epc1 Hrun2 Epc2.
  pose proof (PoolProofs.run_reachable W N _ _ _ (Pool.reach_init W N) Hrun1) as Hr1.
  pose proof (PoolProofs.run_reachable W N _ _ _ (Pool.reach_init W N) Hrun2) as Hr2.
  pose proof (PoolProofs.done_results W N s1 (PoolProofs.done_inv W N s1 Hr1 Epc1) Epc1)
    as Hp1.
  pose proof (PoolProofs.done_results W N s2 (PoolProofs.done_inv W N s2 Hr2 Epc2) Epc2)
    as Hp2.
  assert (Pool.printed s1 ≡ₚ Pool.printed s2) as Hperm by (by rewrite Hp1, Hp2).
  split; [done|]. split; [by rewrite Hperm|].
  intros i id job t t' Hi. simpl. unfold Pool.step_worker. rewrite Hi.
  destruct (chan_send _ _ _) as [c| |] eqn:Esend; [|done..].
  intros [= <-]. by apply chan_send_Next in Esend as (_ & _ & ->).
Qed.

Lemma pool_runs_agree_witness :
  ∃ s1 s2,
    Pool.run 3 9 Pool.fifo_schedule Pool.pool_init = Some s1
    ∧ Pool.run 3 9 Pool.racing_schedule Pool.pool_init = Some s2
    ∧ Pool.printed s1 = [2; 4; 6; 8; 10; 12; 14; 16; 18]
    ∧ Pool.printed s2 = [6; 4; 2; 12; 10; 8; 14; 16; 18]
    ∧ Pool.printed s1 ≡ₚ Pool.printed s2.
Proof.
  eexists _, _.
  split; [vm_compute; reflexivity|]. split; [vm_compute; reflexivity|].
  split; [reflexivity|]. split; [reflexivity|].
  apply (pool_runs_agree 3 9 Pool.fifo_schedule Pool.racing_schedule);
    vm_compute; reflexivity.
Defined.

(** C6.  The sum of the transformed jobs does not depend on the order in
    which the jobs are taken: it is the same over every permutation of a
    list of jobs, and the sum of what the pool prints is the same for every
    schedule that returns. *)
Theorem aggregate_order_insensitive :
  (∀ jobs picked : list Z,
     picked ≡ₚ jobs →
     sumZ (Pool.transform <$> picked) = sumZ (Pool.transform <$> jobs))
  ∧ (∀ W N sched s,
       Pool.run W N sched Pool.pool_init = Some s → Pool.pc s = Pool.MDone →
       sumZ (Pool.printed s) = sumZ (Pool.transform <$> seqZ 1 N)).
Proof.
  split.
  - intros jobs picked Hperm. apply sumZ_Permutation. by rewrite Hperm.
  - intros W N sched s Hrun Epc. apply sumZ_Permutation.
    pose proof (PoolProofs.run_reachable W N _ _ _ (Pool.reach_init W N) Hrun) as Hr.
    apply (PoolProofs.done_results W N s); [|done].
    by apply PoolProofs.done_inv.
Qed.

Lemma aggregate_order_insensitive_witness :
  sumZ (Pool.transform <$> [3; 1; 2]) = sumZ (Pool.transform <$> [1; 2; 3])
  ∧ ∃ s, Pool.run 3 9 Pool.racing_schedule Pool.pool_init = Some s
         ∧ Pool.printed s = [6; 4; 2; 12; 10; 8; 14; 16; 18]
         ∧ sumZ (Pool.printed s) = sumZ (Pool.transform <$> seqZ 1 9).
Proof.
  split.
  - apply (proj1 aggregate_order_insensitive [1; 2; 3] [3; 1; 2]).
    apply (Permutation_cons_append [1; 2] 3).
  - eexists. split; [vm_compute; reflexivity|]. split; [reflexivity|].
    apply (proj2 aggregate_order_insensitive 3 9 Pool.racing_schedule);
      vm_compute; reflexivity.
Defined.



(** ** The job source and the pipeline *)

(** C3 (as amended).  For every [count] below the largest [int] the writes
    of [generateNumbers(count)] to its channel are, at every moment, a
    prefix of "send 1, ..., send count, close", all of them by the
    generator; the channel is closed exactly when the whole sequence has
    been written, no step of the generator panics, every schedule is finite,
    some execution runs until nothing can move, and every such execution
    has closed the channel.  The same holds of the send loop of
    [demonstrateWorkerPool] with its 9 jobs, whose writes are those of
    [Main]. *)
Theorem job_source_sends_then_closes (count : Z) :
  count < GoInt.int_max →
  ((∀ sched s, Pipeline.run count sched Pipeline.pipeline_init = Some s →
      (length sched ≤ Pipeline.measure count Pipeline.pipeline_init)%nat
      ∧ writes (chan_log (Pipeline.numbers s))
        `prefix_of` source_script Generator (seqZ 1 count)
      ∧ (chan_closed (Pipeline.numbers s) = true
         ↔ writes (chan_log (Pipeline.numbers s))
           = source_script Generator (seqZ 1 count))
      ∧ Pipeline.step count Generator s ≠ Panic
      ∧ (Pipeline.stuck count s → chan_closed (Pipeline.numbers s) = true))
   ∧ ∃ sched s, Pipeline.run count sched Pipeline.pipeline_init = Some s
                ∧ Pipeline.stuck count s)
  ∧ ((∀ sched s, Pool.demonstrateWorkerPool sched = Some s →
        (length sched ≤ 47)%nat
        ∧ writes (chan_log (Pool.jobs s))
          `prefix_of` source_script Main (seqZ 1 Pool.numJobs)
        ∧ (chan_closed (Pool.jobs s) = true
           ↔ writes (chan_log (Pool.jobs s))
             = source_script Main (seqZ 1 Pool.numJobs))
        ∧ Pool.step Pool.numWorkers Pool.numJobs Main s ≠ Panic
        ∧ (Pool.stuck Pool.numWorkers Pool.numJobs s →
           chan_closed (Pool.jobs s) = true))
     ∧ ∃ sched s, Pool.demonstrateWorkerPool sched = Some s
                  ∧ Pool.stuck Pool.numWorkers Pool.numJobs s).
Proof.
  intros HN.
  assert (Hopen : ∀ g (l full : list Z),
    ((λ v, (g, OpSend v)) <$> l) ++ [] ≠ source_script g full).
  { intros g l full Heq. apply (f_equal closes) in Heq.
    rewrite (PoolProofs.closes_script g l false) in Heq.
    unfold source_script in Heq.
    by rewrite (PoolProofs.closes_script g full true) in Heq. }
  split; split.
  - intros sched s Hrun.
    pose proof (PipelineProofs.pipeline_run_reachable count _ _ _
                  (Pipeline.reach_init count) Hrun) as Hr.
    pose proof (PipelineProofs.pipeline_inv_reachable count HN s Hr) as HI.
    pose proof (Pipeline.inv_numbers_writes _ _ HI) as Hwr.
    pose proof (PipelineProofs.generated_prefix count s HI) as Hpre.
    pose proof (PipelineProofs.numbers_closed count s HI) as Hcl.
    rewrite Hwr. split; [|split; [|split; [|split]]].
    + pose proof (PipelineProofs.pipeline_run_length count HN sched _ s
                    (PipelineProofs.pipeline_inv_init count) Hrun). lia.
    + by apply script_prefix.
    + destruct (chan_closed (Pipeline.numbers s)).
      * split; [intros _|done]. unfold source_script. by rewrite Hcl.
      * split; [done|]. intros Heq. by apply Hopen in Heq.
    + by apply PipelineProofs.pipeline_no_panic.
    + intros Hst.
      destruct (PipelineProofs.pipeline_stuck_done count s HI Hst) as (Eg & _).
      pose proof (Pipeline.inv_gen _ _ HI) as Hgen. by rewrite Eg in Hgen.
  - destruct (PipelineProofs.pipeline_run_first_stuck count HN
                (Pipeline.measure count Pipeline.pipeline_init) Pipeline.pipeline_init)
      as [Hst [sched Hrun]]; [apply PipelineProofs.pipeline_inv_init|done|eauto].
  - unfold Pool.demonstrateWorkerPool. intros sched s Hrun.
    assert (HW9 : Pool.numWorkers < GoInt.int_max) by reflexivity.
    assert (HN9 : Pool.numJobs < GoInt.int_max) by reflexivity.
    pose proof (PoolProofs.run_reachable _ _ _ _ _ (Pool.reach_init _ _) Hrun) as Hr.
    pose proof (PoolProofs.inv_reachable _ _ HW9 HN9 s Hr) as HI.
    pose proof (Pool.inv_writes _ _ _ HI) as Hwr.
    destruct (PoolProofs.sent_prefix _ _ s HI) as (k & Hk & Hle).
    pose proof (PoolProofs.sent_closed _ _ s HI) as Hcl.
    rewrite Hwr. split; [|split; [|split; [|split]]].
    + pose proof (PoolProofs.run_length _ _ HW9 HN9 sched _ s
                    (PoolProofs.inv_init _ _) Hrun) as Hlen.
      assert (Hm : Pool.measure Pool.numWorkers Pool.numJobs Pool.pool_init = 47%nat)
        by reflexivity.
      rewrite Hm in Hlen. lia.
    + apply script_prefix; [|done]. rewrite Hk. by apply seqZ_prefix.
    + destruct (chan_closed (Pool.jobs s)).
      * split; [intros _|done]. unfold source_script. by rewrite Hcl.
      * split; [done|]. intros Heq. by apply Hopen in Heq.
    + by apply PoolProofs.no_panic.
    + intros Hst.
      assert (H1 : 1 ≤ Pool.numWorkers) by (unfold Pool.numWorkers; lia).
      assert (H2 : Pool.numJobs ≤ 200 + Pool.numWorkers)
        by (unfold Pool.numWorkers, Pool.numJobs; lia).
      destruct (PoolProofs.stuck_done _ _ s H1 H2 HI Hst) as [Epc _].
      pose proof (Pool.inv_pc _ _ _ HI) as Hpc. rewrite Epc in Hpc. tauto.
  - assert (HW9 : Pool.numWorkers < GoInt.int_max) by reflexivity.
    assert (HN9 : Pool.numJobs < GoInt.int_max) by reflexivity.
    destruct (PoolProofs.run_first_stuck _ _ HW9 HN9
                (Pool.measure Pool.numWorkers Pool.numJobs Pool.pool_init)
                Pool.pool_init)
      as [Hst [sched Hrun]]; [apply PoolProofs.inv_init|done|eauto].
Qed.

Lemma job_source_sends_then_closes_witness :
  ∃ s, Pipeline.demonstratePipeline
         [Generator; Squarer; Generator; Squarer; Generator; Squarer; Generator;
          Squarer; Generator; Squarer; Generator] = Some s
       ∧ writes (chan_log (Pipeline.numbers s)) = source_script Generator (seqZ 1 5)
       ∧ chan_closed (Pipeline.numbers s) = true.
Proof.
  assert (H : 5 < GoInt.int_max) by reflexivity.
  destruct (job_source_sends_then_closes 5 H) as [[Hgen _] _].
  eexists. split; [vm_compute; reflexivity|].
  match goal with |- _ = _ ∧ chan_closed (Pipeline.numbers ?s) = _ =>
    assert (Hrun : Pipeline.run 5
              [Generator; Squarer; Generator; Squarer; Generator; Squarer;
               Generator; Squarer; Generator; Squarer; Generator]
              Pipeline.pipeline_init = Some s) by (vm_compute; reflexivity);
    destruct (Hgen _ s Hrun) as (_ & _ & Hcl & _)
  end.
  split; [apply Hcl|]; vm_compute; reflexivity.
Defined.

(** C3 (as stated) fails for [generateNumbers] at the largest [int],
    [count = 2^63 - 1]: [i <= count] holds of every [int] and [i++] wraps
    around, so the loop never ends.  After the numbers 1..count the
    generator sends [-2^63]; in no execution is the channel ever closed, and
    in every state some goroutine can move. *)
Lemma generateNumbers_max_int_never_closes :
  (∃ sched s, Pipeline.run GoInt.int_max sched Pipeline.pipeline_init = Some s
              ∧ enqueued (chan_log (Pipeline.numbers s))
                = seqZ 1 GoInt.int_max ++ [GoInt.int_min])
  ∧ ∀ sched s, Pipeline.run GoInt.int_max sched Pipeline.pipeline_init = Some s →
      chan_closed (Pipeline.numbers s) = false
      ∧ closes (chan_log (Pipeline.numbers s)) = []
      ∧ Pipeline.gen s ≠ Pipeline.GDone
      ∧ ∃ g, Pipeline.enabled GoInt.int_max s g = true.
Proof.
  split; [apply MaxCountFacts.max_count_wraps|].
  intros sched s Hrun.
  pose proof (PipelineProofs.pipeline_run_reachable GoInt.int_max _ _ _
                (Pipeline.reach_init GoInt.int_max) Hrun) as Hr.
  destruct (MaxCountFacts.max_count_open s Hr)
    as (Hn & _ & _ & _ & Hcl & (i & Hg & _) & _).
  split; [done|]. split; [done|]. split; [by rewrite Hg|].
  by apply MaxCountFacts.max_count_moves.
Qed.

(** C10 (as amended).  For every [count] below the largest [int] the
    pipeline of [generateNumbers(count)] and [squareNumbers] can run to the
    end and every schedule is finite; what has been printed is at every
    moment a prefix of the products [num * num] of the numbers 1..count, in
    the order of the numbers, and where nothing can move the printer has
    returned and has printed exactly these products.  For
    [count ≤ 3037000499] no product overflows: the products are the squares
    1², 2², ..., count². *)
Theorem pipeline_squares_in_order (count : Z) :
  count < GoInt.int_max →
  (∃ sched s, Pipeline.run count sched Pipeline.pipeline_init = Some s
              ∧ Pipeline.stuck count s)
  ∧ (∀ sched s, Pipeline.run count sched Pipeline.pipeline_init = Some s →
       (length sched ≤ Pipeline.measure count Pipeline.pipeline_init)%nat
       ∧ Pipeline.out s `prefix_of` Pipeline.square <$> seqZ 1 count
       ∧ (Pipeline.stuck count s →
            Pipeline.prn s = Pipeline.PDone
            ∧ Pipeline.out s = Pipeline.square <$> seqZ 1 count))
  ∧ (count ≤ 3037000499 →
     Pipeline.square <$> seqZ 1 count = (λ i, i * i) <$> seqZ 1 count).
Proof.
  intros Hc.
  pose proof (PipelineProofs.pipeline_inv_init count) as Hinit.
  split; [|split].
  - destruct (PipelineProofs.pipeline_run_first_stuck count Hc
                (Pipeline.measure count Pipeline.pipeline_init)
                Pipeline.pipeline_init Hinit)
      as [Hst [sched Hrun]]; [done|eauto].
  - intros sched s Hrun.
    pose proof (PipelineProofs.pipeline_run_reachable count _ _ _
                  (Pipeline.reach_init count) Hrun) as Hr.
    pose proof (PipelineProofs.pipeline_inv_reachable count Hc s Hr) as HI.
    split; [|split].
    + pose proof (PipelineProofs.pipeline_run_length count Hc _ _ _ Hinit Hrun). lia.
    + by apply PipelineProofs.out_prefix.
    + intros Hst.
      destruct (PipelineProofs.pipeline_stuck_done count s HI Hst) as (Eg & Es & Ep).
      split; [done|]. by apply PipelineProofs.done_out.
  - apply PipelineProofs.square_exact.
Qed.

Lemma pipeline_squares_in_order_witness :
  ∃ s, Pipeline.demonstratePipeline
         [Generator; Squarer; Generator; Squarer; Generator; Squarer; Generator;
          Squarer; Generator; Squarer; Generator; Squarer; Main] = Some s
       ∧ Pipeline.out s = [1; 4; 9; 16; 25]
       ∧ Pipeline.prn s = Pipeline.PDone
       ∧ Pipeline.out s `prefix_of` Pipeline.square <$> seqZ 1 5.
Proof.
  assert (H : 5 < GoInt.int_max) by reflexivity.
  destruct (pipeline_squares_in_order 5 H) as (_ & Hall & _).
  eexists. split; [vm_compute; reflexivity|]. split; [vm_compute; reflexivity|].
  split; [vm_compute; reflexivity|].
  match goal with |- Pipeline.out ?s `prefix_of` _ =>
    assert (Hrun : Pipeline.run 5
              [Generator; Squarer; Generator; Squarer; Generator; Squarer;
               Generator; Squarer; Generator; Squarer; Generator; Squarer; Main]
              Pipeline.pipeline_init = Some s) by (vm_compute; reflexivity);
    destruct (Hall _ s Hrun) as (_ & Hpre & _)
  end.
  exact Hpre.
Defined.

(** C10 (as stated) fails for [count = 3037000500]: the pipeline runs to the
    end, and the last number printed is [3037000500 * 3037000500] wrapped
    around to a negative [int], which is no square. *)
Lemma pipeline_3037000500_overflows :
  ∃ sched s, Pipeline.run 3037000500 sched Pipeline.pipeline_init = Some s
             ∧ Pipeline.stuck 3037000500 s
             ∧ Pipeline.prn s = Pipeline.PDone
             ∧ -9223372036709301616 ∈ Pipeline.out s
             ∧ Pipeline.out s ≠ (λ i, i * i) <$> seqZ 1 3037000500.
Proof.
  assert (Hc : 3037000500 < GoInt.int_max) by reflexivity.
  pose proof (PipelineProofs.pipeline_inv_init 3037000500) as Hinit.
  destruct (PipelineProofs.pipeline_run_first_stuck 3037000500 Hc
              (Pipeline.measure 3037000500 Pipeline.pipeline_init)
              Pipeline.pipeline_init Hinit (le_n _))
    as [Hst [sched Hrun]].
  pose proof (PipelineProofs.pipeline_run_reachable 3037000500 _ _ _
                (Pipeline.reach_init 3037000500) Hrun) as Hr.
  pose proof (PipelineProofs.pipeline_inv_reachable 3037000500 Hc _ Hr) as HI.
  destruct (PipelineProofs.pipeline_stuck_done 3037000500 _ HI Hst) as (Eg & Es & Ep).
  pose proof (PipelineProofs.done_out 3037000500 _ HI Eg Es) as Hout.
  assert (Hin : -9223372036709301616
                ∈ Pipeline.square <$> seqZ 1 3037000500).
  { apply list_elem_of_fmap. exists 3037000500. split; [reflexivity|].
    apply elem_of_seqZ. split; [intros H; discriminate H|reflexivity]. }
  eexists _, _. split; [exact Hrun|]. split; [exact Hst|]. split; [exact Ep|].
  rewrite Hout. split; [exact Hin|].
  intros Heq. rewrite Heq in Hin.
  apply list_elem_of_fmap in Hin as (i & Hi & _). nia.
Qed.

(** ** The REST lesson *)


(** C8.  [createUser] on a request whose body decodes to an empty name, an
    empty email or one without ["@"], or an age outside 0..150 answers 400
    with the validation errors and leaves [users] and [nextUserID] as they
    were; more generally every answer of [createUser] other than 201 leaves
    the store as it was. *)
Theorem createUser_rejects_invalid
    (unmarshalCreate : list Byte.byte → option Rest.CreateUserRequest)
    (st : Rest.store) (r : Rest.request) (now : Z)
    (body : list Byte.byte) (req : Rest.CreateUserRequest) :
  Rest.Body r = Some body → unmarshalCreate body = Some req →
  Rest.invalid_create req →
  Rest.createUser unmarshalCreate st r now
  = (Rest.MkResponse Rest.StatusBadRequest
       (Rest.ErrorResponse "Validation failed" (Rest.validateCreateUserRequest req)),
     st)
  ∧ Rest.validateCreateUserRequest req ≠ []
  ∧ ∀ st' r' now',
      Rest.statusCode (Rest.createUser unmarshalCreate st' r' now').1
      ≠ Rest.StatusCreated →
      (Rest.createUser unmarshalCreate st' r' now').2 = st'.
Proof.
  intros Hbody Hjson Hbad.
  pose proof (RestProofs.validate_invalid req Hbad) as Hlen.
  split; [|split].
  - unfold Rest.createUser. rewrite Hbody, Hjson.
    by rewrite decide_True by done.
  - intros Hnil. rewrite Hnil in Hlen. simpl in Hlen. lia.
  - intros st' r' now'. unfold Rest.createUser.
    destruct (Rest.Body r') as [b|]; [|done].
    destruct (unmarshalCreate b) as [q|]; [|done].
    by case_decide.
Qed.

Lemma createUser_rejects_invalid_witness :
  Rest.createUser (λ _, Some (Rest.MkCreateUserRequest [66; 111; 98] [98; 111; 98] 30))
    (Rest.MkStore ∅ 1) (Rest.MkRequest (Some [])) 0
  = (Rest.MkResponse 400
       (Rest.ErrorResponse "Validation failed"
          [Rest.MkValidationError "email" "Invalid email format"]),
     Rest.MkStore ∅ 1).
Proof.
  apply (createUser_rejects_invalid
           (λ _, Some (Rest.MkCreateUserRequest [66; 111; 98] [98; 111; 98] 30))
           (Rest.MkStore ∅ 1) (Rest.MkRequest (Some [])) 0 []
           (Rest.MkCreateUserRequest [66; 111; 98] [98; 111; 98] 30)).
  - reflexivity.
  - reflexivity.
  - right. right. left. reflexivity.
Defined.

(** C9.  [updateUser] on an existing user keeps the user's [ID] and
    [CreatedAt] whatever the request is, changes no other entry of [users]
    and leaves [nextUserID]; when the body decodes, [Name], [Email] and
    [Age] change only where the request has the field, and [UpdatedAt]
    becomes the current time; when it does not, the user is unchanged. *)
Theorem updateUser_preserves
    (unmarshalUpdate : list Byte.byte → option Rest.UpdateUserRequest)
    (st : Rest.store) (r : Rest.request) (userID now : Z) (user : Rest.User) :
  Rest.users st !! userID = Some user →
  ∃ user',
    Rest.users (Rest.updateUser unmarshalUpdate st r userID now).2 !! userID
    = Some user'
    ∧ Rest.ID user' = Rest.ID user
    ∧ Rest.CreatedAt user' = Rest.CreatedAt user
    ∧ (∀ k, k ≠ userID →
         Rest.users (Rest.updateUser unmarshalUpdate st r userID now).2 !! k
         = Rest.users st !! k)
    ∧ Rest.nextUserID (Rest.updateUser unmarshalUpdate st r userID now).2
      = Rest.nextUserID st
    ∧ match Rest.Body r ≫= unmarshalUpdate with
      | Some req =>
          Rest.statusCode (Rest.updateUser unmarshalUpdate st r userID now).1
          = Rest.StatusOK
          ∧ Rest.Name user' = default (Rest.Name user) (Rest.update_Name req)
          ∧ Rest.Email user' = default (Rest.Email user) (Rest.update_Email req)
          ∧ Rest.Age user' = default (Rest.Age user) (Rest.update_Age req)
          ∧ Rest.UpdatedAt user' = now
      | None =>
          Rest.statusCode (Rest.updateUser unmarshalUpdate st r userID now).1
          = Rest.StatusBadRequest
          ∧ user' = user
      end.
Proof.
  intros Hu. unfold Rest.updateUser. rewrite Hu.
  destruct (Rest.Body r) as [body|]; simpl;
    [destruct (unmarshalUpdate body) as [req|]; simpl|].
  - eexists. split; [apply lookup_insert_eq|].
    destruct req as [[name|] [email|] [age|]]; simpl;
      (repeat split; [intros k Hk; by apply lookup_insert_ne]).
  - exists user. by repeat split.
  - exists user. by repeat split.
Qed.

Lemma updateUser_preserves_witness :
  ∃ user',
    Rest.users
      (Rest.updateUser (λ _, Some (Rest.MkUpdateUserRequest None None (Some 26)))
         (Rest.MkStore {[1 := Rest.MkUser 1 [74] [106; 64; 120] 25 100 100]} 2)
         (Rest.MkRequest (Some [])) 1 200).2 !! 1
    = Some user'
    ∧ Rest.ID user' = 1 ∧ Rest.CreatedAt user' = 100.
Proof.
  destruct (updateUser_preserves
              (λ _, Some (Rest.MkUpdateUserRequest None None (Some 26)))
              (Rest.MkStore {[1 := Rest.MkUser 1 [74] [106; 64; 120] 25 100 100]} 2)
              (Rest.MkRequest (Some [])) 1 200
              (Rest.MkUser 1 [74] [106; 64; 120] 25 100 100))
    as (user' & Hlook & Hid & Hcr & _).
  - apply lookup_singleton_eq.
  - exists user'. split; [exact Hlook|]. split; [exact Hid|exact Hcr].
Defined.

(** * Further properties of the code *)

(** ** The REST lesson: the other handlers and the routing *)

(** X1.  [deleteUser] on a stored user answers 200, removes that entry and
    no other, and leaves [nextUserID]; afterwards [getUser] and a second
    [deleteUser] on the same identifier answer 404.  On an identifier that
    is not stored it answers 404 and leaves the store as it was. *)
Theorem deleteUser_removes (st : Rest.store) (userID : Z) :
  match Rest.users st !! userID with
  | Some _ =>
      Rest.statusCode (Rest.deleteUser st userID).1 = Rest.StatusOK
      ∧ Rest.users (Rest.deleteUser st userID).2 !! userID = None
      ∧ (∀ k, k ≠ userID →
           Rest.users (Rest.deleteUser st userID).2 !! k = Rest.users st !! k)
      ∧ Rest.nextUserID (Rest.deleteUser st userID).2 = Rest.nextUserID st
      ∧ Rest.statusCode (Rest.getUser (Rest.deleteUser st userID).2 userID)
        = Rest.StatusNotFound
      ∧ Rest.deleteUser (Rest.deleteUser st userID).2 userID
        = (Rest.respondWithError Rest.StatusNotFound "User not found",
           (Rest.deleteUser st userID).2)
  | None =>
      Rest.deleteUser st userID
      = (Rest.respondWithError Rest.StatusNotFound "User not found", st)
  end.
Proof.
  destruct (Rest.users st !! userID) as [u|] eqn:Hu.
  - assert (Rest.deleteUser st userID
            = (Rest.respondWithJSON Rest.StatusOK
                 (Rest.APIResponse true None "User deleted successfully"),
               Rest.MkStore (delete userID (Rest.users st)) (Rest.nextUserID st)))
      as -> by (unfold Rest.deleteUser; by rewrite Hu).
    unfold Rest.getUser, Rest.deleteUser. simpl. rewrite !lookup_delete_eq.
    repeat split; try done. intros k Hk. by apply lookup_delete_ne.
  - unfold Rest.deleteUser. by rewrite Hu.
Qed.

(** X2.  What [createUser] and [updateUser] answer with is what [getUser]
    returns afterwards: when [createUser] answers with a user, [getUser] on
    the identifier it was given (the former [nextUserID]) returns that user
    with the name, email and age of the request; when [updateUser] answers
    with a user, [getUser] on the updated identifier returns that user. *)
Theorem getUser_after_write
    (unmarshalCreate : list Byte.byte → option Rest.CreateUserRequest)
    (unmarshalUpdate : list Byte.byte → option Rest.UpdateUserRequest)
    (st : Rest.store) (r : Rest.request) (userID now : Z)
    (body : list Byte.byte) (req : Rest.CreateUserRequest) :
  Rest.Body r = Some body → unmarshalCreate body = Some req →
  Rest.TrimSpace (Rest.create_Name req) ≠ [] →
  Rest.TrimSpace (Rest.create_Email req) ≠ [] →
  Rest.Contains (Rest.create_Email req) Rest.at_sign = true →
  0 ≤ Rest.create_Age req ≤ 150 →
  Rest.getUser (Rest.createUser unmarshalCreate st r now).2 (Rest.nextUserID st)
  = Rest.respondWithJSON Rest.StatusOK
      (Rest.APIResponse true
         (Some (Rest.MkUser (Rest.nextUserID st) (Rest.create_Name req)
                  (Rest.create_Email req) (Rest.create_Age req) now now)) "")
  ∧ (∀ r' user msg,
       (Rest.updateUser unmarshalUpdate st r' userID now).1
       = Rest.MkResponse Rest.StatusOK (Rest.APIResponse true (Some user) msg) →
       Rest.getUser (Rest.updateUser unmarshalUpdate st r' userID now).2 userID
       = Rest.respondWithJSON Rest.StatusOK (Rest.APIResponse true (Some user) "")).
Proof.
  intros Hbody Hjson Hname Hemail Hat Hage. split.
  - pose proof (RestProofs.validate_valid req Hname Hemail Hat Hage) as Hok.
    destruct (RestProofs.createUser_creates unmarshalCreate st r now body req
                Hbody Hjson Hok) as [Hst _].
    rewrite Hst. unfold Rest.getUser. simpl. by rewrite lookup_insert_eq.
  - intros r' user msg.
    destruct (RoutingProofs.updateUser_store unmarshalUpdate st r' userID now)
      as [Hst|(old & u & Hold & Hu & _)].
    + unfold Rest.updateUser in *.
      destruct (Rest.users st !! userID); [|done].
      destruct (Rest.Body r') as [b|]; [|done].
      destruct (unmarshalUpdate b); [|done].
      simpl. intros [= <- _]. unfold Rest.getUser. simpl.
      by rewrite lookup_insert_eq.
    + rewrite Hu. simpl. intros [= <- _]. unfold Rest.getUser. simpl.
      by rewrite lookup_insert_eq.
Qed.

Lemma getUser_after_write_witness :
  Rest.getUser
    (Rest.createUser
       (λ _, Some (Rest.MkCreateUserRequest (Rest.runes "Alice Johnson")
                     (Rest.runes "alice@example.com") 28))
       (Rest.initializeData Rest.store_init 0 0 0 0)
       (Rest.MkRequest (Some [])) 7).2 3
  = Rest.respondWithJSON 200
      (Rest.APIResponse true
         (Some (Rest.MkUser 3 (Rest.runes "Alice Johnson")
                  (Rest.runes "alice@example.com") 28 7 7)) "").
Proof.
  refine (proj1 (getUser_after_write
           (λ _, Some (Rest.MkCreateUserRequest (Rest.runes "Alice Johnson")
                         (Rest.runes "alice@example.com") 28))
           (λ _, None)
           (Rest.initializeData Rest.store_init 0 0 0 0)
           (Rest.MkRequest (Some [])) 1 7 []
           (Rest.MkCreateUserRequest (Rest.runes "Alice Johnson")
              (Rest.runes "alice@example.com") 28) _ _ _ _ _ _));
    try reflexivity; try (intros H; discriminate H).
  split; intros H; discriminate H.
Defined.

(** X3.  [createUser] never overwrites a user: when every stored key lies
    below [nextUserID] (which is below the largest [int]), every user
    stored before the call is stored unchanged after it, and a call that
    answers 201 stores its user under a key that was free and adds no other
    entry. *)
Theorem createUser_never_overwrites
    (unmarshalCreate : list Byte.byte → option Rest.CreateUserRequest)
    (st : Rest.store) (r : Rest.request) (now : Z) :
  Rest.store_ok st → Rest.nextUserID st < GoInt.int_max →
  (∀ k u, Rest.users st !! k = Some u →
          Rest.users (Rest.createUser unmarshalCreate st r now).2 !! k = Some u)
  ∧ (Rest.statusCode (Rest.createUser unmarshalCreate st r now).1
     = Rest.StatusCreated →
     Rest.users st !! Rest.nextUserID st = None
     ∧ size (Rest.users (Rest.createUser unmarshalCreate st r now).2)
       = S (size (Rest.users st))
     ∧ Rest.nextUserID (Rest.createUser unmarshalCreate st r now).2
       = Rest.nextUserID st + 1).
Proof.
  intros [Hnext Hok] Hmax.
  assert (Rest.users st !! Rest.nextUserID st = None) as Hfree.
  { destruct (Rest.users st !! Rest.nextUserID st) as [u|] eqn:Hu; [|done].
    destruct (Hok _ _ Hu). lia. }
  destruct (RoutingProofs.createUser_store unmarshalCreate st r now)
    as [Hst|(user & Hc & Hid)].
  - split; [intros k u Hk; by rewrite Hst|].
    unfold Rest.createUser in *. destruct (Rest.Body r) as [b|]; [|done].
    destruct (unmarshalCreate b); [|done]. case_decide; [done|].
    simpl in Hst. apply (f_equal Rest.nextUserID) in Hst. simpl in Hst.
    rewrite GoIntFacts.succ_small in Hst by lia. lia.
  - rewrite Hc. simpl. split.
    + intros k u Hk. rewrite lookup_insert_ne; [done|]. intros <-. congruence.
    + intros _. rewrite map_size_insert_None by done.
      by rewrite GoIntFacts.succ_small by lia.
Qed.

Lemma createUser_never_overwrites_witness :
  Rest.users
    (Rest.createUser
       (λ _, Some (Rest.MkCreateUserRequest (Rest.runes "Al")
                     (Rest.runes "a@b") 28))
       (Rest.initializeData Rest.store_init 0 0 0 0)
       (Rest.MkRequest (Some [])) 7).2 !! 1
  = Some (Rest.MkUser 1 (Rest.runes "John Doe") (Rest.runes "john@example.com")
            25 (0 - 24 * Rest.Hour) (0 - 24 * Rest.Hour)).
Proof.
  apply (proj1 (createUser_never_overwrites
           (λ _, Some (Rest.MkCreateUserRequest (Rest.runes "Al")
                         (Rest.runes "a@b") 28))
           (Rest.initializeData Rest.store_init 0 0 0 0)
           (Rest.MkRequest (Some [])) 7
           (RoutingProofs.initializeData_ok 0 0 0 0) eq_refl)).
  reflexivity.
Defined.

(** X4.  From the store of [initializeData], after any sequence of calls of
    [handleUsers] and [handleUser] (fewer than [2^63 - 4] of them) every
    stored user carries as [ID] the key it is stored under and every key
    lies from 1 up to [nextUserID] excluded; [nextUserID] never goes down
    along the sequence, so the identifier of a deleted user is not given
    out again. *)
Theorem served_store_keeps_ids
    (unmarshalCreate : list Byte.byte → option Rest.CreateUserRequest)
    (unmarshalUpdate : list Byte.byte → option Rest.UpdateUserRequest)
    (t1 t2 t3 t4 : Z) (before after : list Rest.call) :
  3 + Z.of_nat (length (before ++ after)) ≤ GoInt.int_max →
  Rest.store_ok
    (Rest.serve unmarshalCreate unmarshalUpdate
       (Rest.initializeData Rest.store_init t1 t2 t3 t4) (before ++ after))
  ∧ 3 ≤ Rest.nextUserID
          (Rest.serve unmarshalCreate unmarshalUpdate
             (Rest.initializeData Rest.store_init t1 t2 t3 t4) before)
  ∧ Rest.nextUserID
      (Rest.serve unmarshalCreate unmarshalUpdate
         (Rest.initializeData Rest.store_init t1 t2 t3 t4) before)
    ≤ Rest.nextUserID
        (Rest.serve unmarshalCreate unmarshalUpdate
           (Rest.initializeData Rest.store_init t1 t2 t3 t4) (before ++ after))
  ∧ Rest.nextUserID
      (Rest.serve unmarshalCreate unmarshalUpdate
         (Rest.initializeData Rest.store_init t1 t2 t3 t4) (before ++ after))
    ≤ 3 + Z.of_nat (length (before ++ after)).
Proof.
  intros Hlen. rewrite length_app in Hlen.
  pose proof (RoutingProofs.initializeData_ok t1 t2 t3 t4) as H0.
  destruct (RoutingProofs.serve_store_ok unmarshalCreate unmarshalUpdate _ before H0)
    as (Hb1 & Hb2 & Hb3); [simpl; lia|].
  assert (Rest.serve unmarshalCreate unmarshalUpdate
            (Rest.initializeData Rest.store_init t1 t2 t3 t4) (before ++ after)
          = Rest.serve unmarshalCreate unmarshalUpdate
              (Rest.serve unmarshalCreate unmarshalUpdate
                 (Rest.initializeData Rest.store_init t1 t2 t3 t4) before) after)
    as -> by (unfold Rest.serve; by rewrite foldl_app).
  simpl in Hb2, Hb3.
  destruct (RoutingProofs.serve_store_ok unmarshalCreate unmarshalUpdate _ after Hb1)
    as (Ha1 & Ha2 & Ha3); [lia|].
  rewrite length_app. split; [exact Ha1|]. split; [lia|]. split; lia.
Qed.

Lemma served_store_keeps_ids_witness :
  Rest.nextUserID
    (Rest.serve (λ _, Some (Rest.MkCreateUserRequest (Rest.runes "Al")
                              (Rest.runes "a@b") 28)) (λ _, None)
       (Rest.initializeData Rest.store_init 0 0 0 0)
       ([Rest.CallUsers (Rest.MkHttpRequest "POST" (Rest.runes "/api/users")
                           (Rest.MkRequest (Some []))) 5;
         Rest.CallUser (Rest.MkHttpRequest "DELETE" (Rest.runes "/api/users/3")
                          (Rest.MkRequest None)) 6]
        ++ [Rest.CallUsers (Rest.MkHttpRequest "POST" (Rest.runes "/api/users")
                              (Rest.MkRequest (Some []))) 7]))
  ≤ 3 + Z.of_nat 3.
Proof.
  refine (proj2 (proj2 (proj2 (served_store_keeps_ids _ _ 0 0 0 0 _ _ _)))).
  intros H; discriminate H.
Defined.

(** X5.  A call changes the store only when it succeeds in writing:
    [handleUsers] only for a [POST] answered 201, [handleUser] only for a
    [PUT] or a [DELETE] answered 200.  In particular no [GET], no request
    answered with an error and no request with another method changes
    [users] or [nextUserID].  [handleUsers] answers any method other than
    [GET] and [POST] with 405, and [handleUser] answers 400 whenever
    [extractUserID] fails, whatever the method. *)
Theorem store_changes_only_on_success
    (unmarshalCreate : list Byte.byte → option Rest.CreateUserRequest)
    (unmarshalUpdate : list Byte.byte → option Rest.UpdateUserRequest)
    (st : Rest.store) (r : Rest.http_request) (now : Z) :
  ((Rest.handleUsers unmarshalCreate st r now).2 ≠ st →
   Rest.Method r = "POST"
   ∧ Rest.replyStatus (Rest.handleUsers unmarshalCreate st r now).1
     = Rest.StatusCreated)
  ∧ ((Rest.handleUser unmarshalUpdate st r now).2 ≠ st →
     (Rest.Method r = "PUT" ∨ Rest.Method r = "DELETE")
     ∧ Rest.replyStatus (Rest.handleUser unmarshalUpdate st r now).1
       = Rest.StatusOK)
  ∧ (Rest.Method r ≠ "GET" → Rest.Method r ≠ "POST" →
     Rest.handleUsers unmarshalCreate st r now
     = (Rest.Reply (Rest.respondWithError Rest.StatusMethodNotAllowed
                      "Method not allowed"), st))
  ∧ (is_Some (Rest.extractUserID (Rest.Path r)).2 →
     Rest.handleUser unmarshalUpdate st r now
     = (Rest.Reply (Rest.respondWithError Rest.StatusBadRequest "Invalid user ID"),
        st)).
Proof.
  split; [|split; [|split]].
  - unfold Rest.handleUsers. case_decide; [done|]. case_decide; [|done].
    destruct (RoutingProofs.createUser_store unmarshalCreate st (Rest.Req r) now)
      as [Hst|(user & Hc & _)].
    + destruct (Rest.createUser _ _ _ _) as [resp st']. simpl in *. by subst.
    + rewrite Hc. by simpl.
  - unfold Rest.handleUser.
    destruct (Rest.extractUserID (Rest.Path r)) as [userID [e|]]; [done|].
    case_decide; [done|]. case_decide.
    + destruct (RoutingProofs.updateUser_store unmarshalUpdate st (Rest.Req r)
                  userID now) as [Hst|(old & user & _ & Hu & _)].
      * destruct (Rest.updateUser _ _ _ _ _) as [resp st']. simpl in *. by subst.
      * rewrite Hu. simpl. auto.
    + case_decide; [|done].
      destruct (RoutingProofs.deleteUser_store st userID) as [Hst|[_ Hd]].
      * destruct (Rest.deleteUser _ _) as [resp st']. simpl in *. by subst.
      * rewrite Hd. simpl. auto.
  - intros Hget Hpost. unfold Rest.handleUsers.
    by rewrite !decide_False by done.
  - intros [e He]. unfold Rest.handleUser.
    destruct (Rest.extractUserID (Rest.Path r)) as [userID o]. simpl in He.
    by subst o.
Qed.

Lemma store_changes_only_on_success_witness :
  Rest.replyStatus
    (Rest.handleUser (λ _, None)
       (Rest.initializeData Rest.store_init 0 0 0 0)
       (Rest.MkHttpRequest "DELETE" (Rest.runes "/api/users/2")
          (Rest.MkRequest None)) 9).1
  = 200.
Proof.
  refine (proj2 (proj1 (proj2 (store_changes_only_on_success (λ _, None) (λ _, None)
            (Rest.initializeData Rest.store_init 0 0 0 0)
            (Rest.MkHttpRequest "DELETE" (Rest.runes "/api/users/2")
               (Rest.MkRequest None)) 9)) _)).
  intros H. apply (f_equal (λ s, Rest.users s !! 2)) in H.
  vm_compute in H. discriminate H.
Defined.

(** X6.  [extractUserID] reads the identifier off the third segment of the
    path alone: on ["/api/users/"] followed by a non-empty segment without
    ["/"] and then nothing or a ["/"] and anything, it returns what
    [strconv.Atoi] returns on that segment, so trailing slashes and further
    segments are ignored.  On ["/api/users/"] and ["/api/users"] themselves
    it fails with "invalid path". *)
Theorem extractUserID_third_segment (seg rest : list Z) :
  seg ≠ [] → 47 ∉ seg → rest = [] ∨ head rest = Some 47 →
  Rest.extractUserID (Rest.runes "/api/users/" ++ seg ++ rest) = Rest.Atoi seg
  ∧ Rest.extractUserID (Rest.runes "/api/users/") = (0, Some Rest.InvalidPath)
  ∧ Rest.extractUserID (Rest.runes "/api/users") = (0, Some Rest.InvalidPath).
Proof.
  intros Hne Hseg Hrest. split; [|split; reflexivity].
  destruct (RoutingProofs.path_third_segment seg rest Hne Hseg Hrest) as [more Hsplit].
  unfold Rest.extractUserID. rewrite Hsplit. cbn [length].
  by rewrite decide_False by lia.
Qed.

Lemma extractUserID_third_segment_witness :
  Rest.extractUserID (Rest.runes "/api/users/" ++ Rest.runes "-12"
                      ++ Rest.runes "/photo/")
  = (-12, None).
Proof.
  refine (eq_trans (proj1 (extractUserID_third_segment (Rest.runes "-12")
                             (Rest.runes "/photo/") _ _ _)) _).
  - intros H; discriminate H.
  - compute_done.
  - right. reflexivity.
  - reflexivity.
Defined.

(** X7.  A request for ["/api/users/"] followed by the decimal numeral of an
    identifier [id] (from 0 to the largest [int]) reaches that identifier:
    [handleUser] answers a [GET] with [getUser] on [id], a [PUT] with
    [updateUser] on [id] and a [DELETE] with [deleteUser] on [id]. *)
Theorem handleUser_reaches_id
    (unmarshalUpdate : list Byte.byte → option Rest.UpdateUserRequest)
    (st : Rest.store) (r : Rest.http_request) (now id : Z) :
  0 ≤ id ≤ GoInt.int_max →
  Rest.Path r = Rest.runes "/api/users/" ++ Rest.decimal id →
  Rest.extractUserID (Rest.Path r) = (id, None)
  ∧ (Rest.Method r = "GET" →
     Rest.handleUser unmarshalUpdate st r now = (Rest.Reply (Rest.getUser st id), st))
  ∧ (Rest.Method r = "PUT" →
     Rest.handleUser unmarshalUpdate st r now
     = (Rest.Reply (Rest.updateUser unmarshalUpdate st (Rest.Req r) id now).1,
        (Rest.updateUser unmarshalUpdate st (Rest.Req r) id now).2))
  ∧ (Rest.Method r = "DELETE" →
     Rest.handleUser unmarshalUpdate st r now
     = (Rest.Reply (Rest.deleteUser st id).1, (Rest.deleteUser st id).2)).
Proof.
  intros Hid Hpath.
  assert (Rest.extractUserID (Rest.Path r) = (id, None)) as Hex.
  { rewrite Hpath, <-(app_nil_r (Rest.decimal id)).
    destruct (RoutingProofs.path_third_segment (Rest.decimal id) []) as [more Hs].
    - pose proof (RoutingProofs.Atoi_decimal id Hid) as Ha.
      intros Hnil. rewrite Hnil in Ha. discriminate Ha.
    - apply RoutingProofs.decimal_digits. lia.
    - by left.
    - unfold Rest.extractUserID. rewrite Hs. cbn [length].
      rewrite decide_False by lia. by apply RoutingProofs.Atoi_decimal. }
  split; [done|]. unfold Rest.handleUser. rewrite Hex.
  split; [|split].
  - intros ->. done.
  - intros ->. simpl. by destruct (Rest.updateUser _ _ _ _ _).
  - intros ->. simpl. by destruct (Rest.deleteUser _ _).
Qed.

Lemma handleUser_reaches_id_witness :
  Rest.handleUser (λ _, None) (Rest.initializeData Rest.store_init 0 0 0 0)
    (Rest.MkHttpRequest "GET" (Rest.runes "/api/users/999") (Rest.MkRequest None)) 5
  = (Rest.Reply (Rest.respondWithError 404 "User not found"),
     Rest.initializeData Rest.store_init 0 0 0 0).
Proof.
  refine (proj1 (proj2 (handleUser_reaches_id (λ _, None)
            (Rest.initializeData Rest.store_init 0 0 0 0)
            (Rest.MkHttpRequest "GET" (Rest.runes "/api/users/999")
               (Rest.MkRequest None)) 5 999 _ _)) _).
  - split; intros H; discriminate H.
  - reflexivity.
  - reflexivity.
Defined.

(** ** The concurrency lesson: more on the worker pool and the pipeline *)

(** X8.  No goroutine of the worker pool ever panics: in every state the
    pool can reach (for counts below the largest [int]) no step is a send
    on a closed channel or a second close; the results channel is never
    closed, and neither buffer holds more than its 100 values. *)
Theorem pool_never_panics (W N : Z) (sched : list goroutine) (s : Pool.pool) :
  W < GoInt.int_max → N < GoInt.int_max →
  Pool.run W N sched Pool.pool_init = Some s →
  (∀ g, Pool.step W N g s ≠ Panic)
  ∧ chan_closed (Pool.results s) = false
  ∧ closes (chan_log (Pool.results s)) = []
  ∧ closes (chan_log (Pool.jobs s))
    = (if chan_closed (Pool.jobs s) then [Main] else [])
  ∧ (length (chan_buf (Pool.jobs s)) ≤ 100)%nat
  ∧ (length (chan_buf (Pool.results s)) ≤ 100)%nat.
Proof.
  intros HW HN Hrun.
  pose proof (PoolProofs.run_reachable W N _ _ _ (Pool.reach_init W N) Hrun) as Hr.
  pose proof (PoolProofs.inv_reachable W N HW HN s Hr) as HI.
  split; [intros g; by apply PoolProofs.no_panic|].
  split; [apply (Pool.inv_results_open _ _ _ HI)|].
  split; [apply (Pool.inv_results_log _ _ _ HI)|].
  split; [|split; [apply (Pool.inv_len_jobs _ _ _ HI)|apply (Pool.inv_len_results _ _ _ HI)]].
  rewrite <-ConcurrencyFacts.closes_writes, (Pool.inv_writes _ _ _ HI).
  apply PoolProofs.closes_script.
Qed.

Lemma pool_never_panics_witness :
  ∃ s, Pool.run 3 9 (take 20 Pool.racing_schedule) Pool.pool_init = Some s
       ∧ (∀ g, Pool.step 3 9 g s ≠ Panic)
       ∧ chan_closed (Pool.results s) = false.
Proof.
  eexists. split; [vm_compute; reflexivity|].
  match goal with |- (∀ g, Pool.step 3 9 g ?s ≠ _) ∧ _ =>
    assert (Hrun : Pool.run 3 9 (take 20 Pool.racing_schedule) Pool.pool_init
                   = Some s) by (vm_compute; reflexivity);
    destruct (pool_never_panics 3 9 _ s eq_refl eq_refl Hrun) as (Hp & Hc & _)
  end.
  split; [exact Hp|exact Hc].
Defined.

(** X11.  At every moment of every execution of the pool (counts below the
    largest [int]) the jobs received by the workers are the first jobs of
    1..N in the order they were sent, none of them twice; together with
    the jobs still buffered they are the jobs sent; the results [Main] has
    received are results of received jobs, none of them twice; and the
    double of every received job is in exactly one place: with the worker
    holding the job, in the results buffer, or received by [Main]. *)
Theorem pool_conserves_jobs (W N : Z) (sched : list goroutine) (s : Pool.pool) :
  W < GoInt.int_max → N < GoInt.int_max →
  Pool.run W N sched Pool.pool_init = Some s →
  dequeued (chan_log (Pool.jobs s)) `prefix_of` seqZ 1 N
  ∧ NoDup (dequeued (chan_log (Pool.jobs s)))
  ∧ dequeued (chan_log (Pool.jobs s)) ++ chan_buf (Pool.jobs s)
    = enqueued (chan_log (Pool.jobs s))
  ∧ dequeued (chan_log (Pool.results s))
    ⊆+ Pool.transform <$> dequeued (chan_log (Pool.jobs s))
  ∧ NoDup (dequeued (chan_log (Pool.results s)))
  ∧ Pool.transform <$> dequeued (chan_log (Pool.jobs s))
    ≡ₚ (Pool.transform <$> Pool.held (Pool.workers s))
       ++ chan_buf (Pool.results s) ++ dequeued (chan_log (Pool.results s)).
Proof.
  intros HW HN Hrun.
  pose proof (PoolProofs.run_reachable W N _ _ _ (Pool.reach_init W N) Hrun) as Hr.
  pose proof (PoolProofs.inv_reachable W N HW HN s Hr) as HI.
  destruct (ConcurrencyFacts.printed_received W N s Hr) as [_ Hrecv].
  pose proof (ConcurrencyFacts.received_prefix W N s HI) as Hpre.
  pose proof (ConcurrencyFacts.NoDup_prefix _ _ Hpre (NoDup_seqZ 1 N)) as Hnd.
  pose proof (ConcurrencyFacts.printed_of_received W N s HI) as Hsub.
  rewrite <-Hrecv.
  split; [done|]. split; [done|]. split; [|split; [done|split]].
  - rewrite (Pool.inv_fifo _ _ _ HI), <-ConcurrencyFacts.enqueued_writes, (Pool.inv_writes _ _ _ HI).
    symmetry. apply ConcurrencyFacts.enqueued_script.
  - eapply ConcurrencyFacts.NoDup_submseteq_inv; [|exact Hsub].
    destruct Hpre as [rest Hrest].
    pose proof (PoolProofs.results_distinct N ltac:(lia)) as Hall.
    rewrite Hrest, fmap_app in Hall. by apply NoDup_app in Hall as [? _].
  - apply (Pool.inv_flow _ _ _ HI).
Qed.

Lemma pool_conserves_jobs_witness :
  ∃ s, Pool.run 3 9 (take 23 Pool.racing_schedule) Pool.pool_init = Some s
       ∧ dequeued (chan_log (Pool.jobs s)) = [1; 2; 3]
       ∧ chan_buf (Pool.results s) = [2]
       ∧ dequeued (chan_log (Pool.results s)) = [6; 4]
       ∧ NoDup (dequeued (chan_log (Pool.jobs s))).
Proof.
  eexists. split; [vm_compute; reflexivity|]. split; [reflexivity|].
  split; [reflexivity|]. split; [reflexivity|].
  match goal with |- NoDup (dequeued (chan_log (Pool.jobs ?s))) =>
    assert (Hrun : Pool.run 3 9 (take 23 Pool.racing_schedule) Pool.pool_init
                   = Some s) by (vm_compute; reflexivity);
    destruct (pool_conserves_jobs 3 9 _ s eq_refl eq_refl Hrun) as (_ & Hnd & _)
  end.
  exact Hnd.
Defined.

(** X12.  The unbuffered pipeline runs in lockstep: at every moment of
    every execution (count below the largest [int]) every number sent by
    [generateNumbers] has been received by [squareNumbers], every square
    sent has been received by [printNumbers], the squarer holds at most one
    number, and the generator is at most one number ahead of what
    [printNumbers] has received: the numbers sent are those whose squares
    were received, in order, and the one in the squarer's hand. *)
Theorem pipeline_lockstep (count : Z) (sched : list goroutine) (s : Pipeline.pipeline) :
  count < GoInt.int_max →
  Pipeline.run count sched Pipeline.pipeline_init = Some s →
  dequeued (chan_log (Pipeline.numbers s)) = enqueued (chan_log (Pipeline.numbers s))
  ∧ dequeued (chan_log (Pipeline.squares s))
    = enqueued (chan_log (Pipeline.squares s))
  ∧ dequeued (chan_log (Pipeline.squares s))
    ++ (Pipeline.square <$> Pipeline.in_hand (Pipeline.sq s))
    = Pipeline.square <$> enqueued (chan_log (Pipeline.numbers s))
  ∧ (length (Pipeline.in_hand (Pipeline.sq s)) ≤ 1)%nat
  ∧ (length (enqueued (chan_log (Pipeline.numbers s)))
     ≤ S (length (dequeued (chan_log (Pipeline.squares s)))))%nat.
Proof.
  intros Hc Hrun.
  pose proof (PipelineProofs.pipeline_run_reachable count _ _ _
                (Pipeline.reach_init count) Hrun) as Hr.
  pose proof (PipelineProofs.pipeline_inv_reachable count Hc s Hr) as HI.
  assert (enqueued (chan_log (Pipeline.numbers s))
          = Pipeline.generated count (Pipeline.gen s)) as Hen.
  { rewrite <-ConcurrencyFacts.enqueued_writes, (Pipeline.inv_numbers_writes _ _ HI).
    apply ConcurrencyFacts.enqueued_script. }
  assert (enqueued (chan_log (Pipeline.squares s)) = Pipeline.out s) as Hes.
  { rewrite <-ConcurrencyFacts.enqueued_writes, (Pipeline.inv_squares_writes _ _ HI).
    apply ConcurrencyFacts.enqueued_script. }
  pose proof (Pipeline.inv_out _ _ HI) as Hout.
  pose proof (Pipeline.inv_squares_reads _ _ HI) as Hrd.
  assert (length (Pipeline.in_hand (Pipeline.sq s)) ≤ 1)%nat as Hhand
    by (destruct (Pipeline.sq s); simpl; lia).
  rewrite Hen, Hes, Hrd. split; [apply (Pipeline.inv_numbers_reads _ _ HI)|].
  split; [done|]. split; [done|]. split; [done|].
  apply (f_equal length) in Hout. rewrite length_app, !length_fmap in Hout. lia.
Qed.

Lemma pipeline_lockstep_witness :
  ∃ s, Pipeline.run 5 [Generator; Squarer; Generator] Pipeline.pipeline_init = Some s
       ∧ dequeued (chan_log (Pipeline.squares s)) = [1]
       ∧ Pipeline.sq s = Pipeline.SSend 2
       ∧ enqueued (chan_log (Pipeline.numbers s)) = [1; 2]
       ∧ (length (enqueued (chan_log (Pipeline.numbers s)))
          ≤ S (length (dequeued (chan_log (Pipeline.squares s)))))%nat.
Proof.
  eexists. split; [vm_compute; reflexivity|]. split; [reflexivity|].
  split; [reflexivity|]. split; [reflexivity|].
  match goal with |- (length (enqueued (chan_log (Pipeline.numbers ?s))) ≤ _)%nat =>
    assert (Hrun : Pipeline.run 5 [Generator; Squarer; Generator]
                     Pipeline.pipeline_init = Some s) by (vm_compute; reflexivity);
    destruct (pipeline_lockstep 5 _ s eq_refl Hrun) as (_ & _ & _ & _ & Hle)
  end.
  exact Hle.
Defined.

(** X13.  The pipeline shuts down from the source on and never panics: at
    every moment no step of a goroutine is a send on a closed channel or a
    second close; only the squarer writes to the squares channel, which it
    closes once, after its last send and only when the numbers channel is
    closed, [printNumbers] having received the square of every number
    1..count; and [printNumbers] returns only from the closed squares
    channel. *)
Theorem pipeline_shuts_down_in_order
    (count : Z) (sched : list goroutine) (s : Pipeline.pipeline) :
  count < GoInt.int_max →
  Pipeline.run count sched Pipeline.pipeline_init = Some s →
  (∀ g, Pipeline.step count g s ≠ Panic)
  ∧ writes (chan_log (Pipeline.squares s))
    = ((λ v, (Squarer, OpSend v)) <$> enqueued (chan_log (Pipeline.squares s)))
      ++ (if chan_closed (Pipeline.squares s) then [(Squarer, OpClose)] else [])
  ∧ (chan_closed (Pipeline.squares s) = true →
     chan_closed (Pipeline.numbers s) = true
     ∧ Pipeline.sq s = Pipeline.SDone
     ∧ dequeued (chan_log (Pipeline.squares s))
       = Pipeline.square <$> seqZ 1 count)
  ∧ (Pipeline.prn s = Pipeline.PDone → chan_closed (Pipeline.squares s) = true).
Proof.
  intros Hc Hrun.
  pose proof (PipelineProofs.pipeline_run_reachable count _ _ _
                (Pipeline.reach_init count) Hrun) as Hr.
  pose proof (PipelineProofs.pipeline_inv_reachable count Hc s Hr) as HI.
  assert (enqueued (chan_log (Pipeline.squares s)) = Pipeline.out s) as Hes.
  { rewrite <-ConcurrencyFacts.enqueued_writes, (Pipeline.inv_squares_writes _ _ HI).
    apply ConcurrencyFacts.enqueued_script. }
  rewrite Hes, (Pipeline.inv_squares_reads _ _ HI).
  split; [intros g; by apply PipelineProofs.pipeline_no_panic|].
  split; [apply (Pipeline.inv_squares_writes _ _ HI)|].
  split; [|apply (Pipeline.inv_prn _ _ HI)].
  intros Hcl. pose proof (Pipeline.inv_sq _ _ HI) as Hsq.
  pose proof (Pipeline.inv_gen _ _ HI) as Hgen.
  destruct (Pipeline.sq s) eqn:Esq; [congruence|congruence|].
  destruct Hsq as [_ Hcn]. split; [done|]. split; [done|].
  destruct (Pipeline.gen s) eqn:Eg.
  - destruct Hgen as (_ & _ & Hopen). congruence.
  - by apply PipelineProofs.done_out.
Qed.

Lemma pipeline_shuts_down_in_order_witness :
  ∃ s, Pipeline.run 1 [Generator; Squarer; Generator; Squarer]
         Pipeline.pipeline_init = Some s
       ∧ chan_closed (Pipeline.squares s) = true
       ∧ Pipeline.prn s = Pipeline.PRecv
       ∧ ∀ g, Pipeline.step 1 g s ≠ Panic.
Proof.
  eexists. split; [vm_compute; reflexivity|]. split; [reflexivity|].
  split; [reflexivity|].
  match goal with |- ∀ g, Pipeline.step 1 g ?s ≠ Panic =>
    assert (Hrun : Pipeline.run 1 [Generator; Squarer; Generator; Squarer]
                     Pipeline.pipeline_init = Some s) by (vm_compute; reflexivity);
    destruct (pipeline_shuts_down_in_order 1 _ s eq_refl Hrun) as (Hp & _)
  end.
  exact Hp.
Defined.

(** ** The concurrency lesson: the counter behind a mutex *)

(** X14.  Mutual exclusion in [SafeCounter]: at every moment of every
    execution with G goroutines of K increments each (G below 2^31, the
    range of the WaitGroup counter, K an [int]) the mutex is locked exactly
    when one goroutine stands between [Lock] and [Unlock], and never more
    than one does; the counter holds the number of stores made so far, as an
    [int]; the value a goroutine loaded in [c.value++] is still the
    counter's when it stores; and no step is a fatal error: [Unlock] never
    meets an unlocked mutex and the WaitGroup counter never turns
    negative. *)
Theorem counter_mutual_exclusion
    (G K : Z) (sched : list goroutine) (s : Counter.state) :
  G < 2 ^ 31 → K ≤ GoInt.int_max →
  Counter.run G K sched Counter.state_init = Some s →
  Counter.holders s = (if Counter.mu (Counter.counter s) then 1 else 0)
  ∧ Counter.value (Counter.counter s)
    = GoInt.wrap (Counter.total (Counter.increments K) (Counter.incs s))
  ∧ (∀ k n j v, Counter.incs s !! k = Some (n, Counter.IWrite j v) →
                v = Counter.value (Counter.counter s))
  ∧ (∀ g, Counter.step G K g s ≠ Panic).
Proof.
  intros HG HK Hrun.
  pose proof (CounterProofs.counter_run_reachable G K _ _ _
                (Counter.reach_init G K) Hrun) as Hr.
  pose proof (CounterProofs.counter_inv_reachable G K HG HK s Hr) as HI.
  split; [apply (Counter.inv_mutex _ _ _ HI)|].
  split; [apply (Counter.inv_value _ _ _ HI)|].
  split; [|intros g; by apply CounterProofs.counter_no_panic].
  intros k n j v Hk. pose proof (Counter.inv_read _ _ _ HI) as Hrd.
  rewrite Forall_lookup in Hrd. apply (Hrd k (n, Counter.IWrite j v) Hk).
Qed.

Lemma counter_mutual_exclusion_witness :
  ∃ s, Counter.run 2 2 (replicate 5 Main ++ [Worker 1; Worker 1]) Counter.state_init
       = Some s
       ∧ Counter.incs s = [(0, Counter.ILoop 0); (1, Counter.IWrite 0 0)]
       ∧ Counter.step 2 2 (Worker 0) s = Blocked
       ∧ Counter.holders s = 1
       ∧ ∀ g, Counter.step 2 2 g s ≠ Panic.
Proof.
  eexists. split; [vm_compute; reflexivity|]. split; [reflexivity|].
  split; [reflexivity|]. split; [reflexivity|].
  match goal with |- ∀ g, Counter.step 2 2 g ?s ≠ Panic =>
    assert (Hrun : Counter.run 2 2 (replicate 5 Main ++ [Worker 1; Worker 1])
                     Counter.state_init = Some s) by (vm_compute; reflexivity);
    assert (H31 : 2 < 2 ^ 31) by lia;
    assert (H63 : 2 ≤ GoInt.int_max) by (unfold GoInt.int_max; lia);
    destruct (counter_mutual_exclusion 2 2 _ s H31 H63 Hrun) as (_ & _ & _ & Hp)
  end.
  exact Hp.
Defined.

(** X15.  No update is lost: whatever value [demonstrateSynchronization]
    prints as the final counter value, under any schedule, it is G times K
    (as an [int]: exactly G times K when that fits); by then every goroutine
    has printed its line once and has returned, the WaitGroup counter is
    zero and the mutex is unlocked. *)
Theorem counter_final_value
    (G K : Z) (sched : list goroutine) (s : Counter.state) (v : Z) :
  G < 2 ^ 31 → K ≤ GoInt.int_max →
  Counter.run G K sched Counter.state_init = Some s →
  Counter.final s = Some v →
  v = GoInt.wrap (Z.max G 0 * Z.max K 0)
  ∧ (Z.max G 0 * Z.max K 0 ≤ GoInt.int_max → v = Z.max G 0 * Z.max K 0)
  ∧ Counter.finished s ≡ₚ seqZ 0 G
  ∧ Forall (λ w, w.2 = Counter.IExit) (Counter.incs s)
  ∧ Counter.wg s = 0
  ∧ Counter.mu (Counter.counter s) = false.
Proof.
  intros HG HK Hrun Hv.
  pose proof (CounterProofs.counter_run_reachable G K _ _ _
                (Counter.reach_init G K) Hrun) as Hr.
  pose proof (CounterProofs.counter_inv_reachable G K HG HK s Hr) as HI.
  pose proof (Counter.inv_pc _ _ _ HI) as Hpc.
  pose proof (Counter.inv_wg _ _ _ HI) as Hwg.
  assert (Counter.pc s = Counter.MDone) as Hd.
  { destruct (Counter.pc s); simpl in Hpc; try done; exfalso;
      repeat match goal with H : _ ∧ _ |- _ => destruct H end; congruence. }
  destruct (CounterProofs.counter_done G K s HI Hd) as (Hf & Hmu & Hex & Hfin).
  rewrite Hd in Hpc, Hwg. destruct Hpc as (_ & Hal & _).
  assert (v = GoInt.wrap (Z.max G 0 * Z.max K 0)) as Hval by congruence.
  split; [done|]. split.
  - intros Hfit. rewrite Hval. apply GoIntFacts.wrap_small.
    unfold GoInt.in_range, GoInt.int_min. nia.
  - split; [done|]. split; [done|]. split; [lia|done].
Qed.

Lemma counter_final_value_witness :
  ∃ s, Counter.run 2 2
         (replicate 5 Main
          ++ [Worker 1; Worker 1; Worker 1; Worker 1; Worker 0; Worker 0; Worker 0;
              Worker 0; Worker 1; Worker 1; Worker 1; Worker 1; Worker 0; Worker 0;
              Worker 1; Worker 0; Worker 1; Worker 0; Worker 0; Worker 0]
          ++ replicate 4 Main)
         Counter.state_init = Some s
       ∧ Counter.final s = Some 4
       ∧ Counter.finished s = [1; 0]
       ∧ Counter.finished s ≡ₚ seqZ 0 2.
Proof.
  eexists. split; [vm_compute; reflexivity|]. split; [reflexivity|].
  split; [reflexivity|].
  match goal with |- Counter.finished ?s ≡ₚ _ =>
    assert (Hrun : Counter.run 2 2
         (replicate 5 Main
          ++ [Worker 1; Worker 1; Worker 1; Worker 1; Worker 0; Worker 0; Worker 0;
              Worker 0; Worker 1; Worker 1; Worker 1; Worker 1; Worker 0; Worker 0;
              Worker 1; Worker 0; Worker 1; Worker 0; Worker 0; Worker 0]
          ++ replicate 4 Main)
         Counter.state_init = Some s) by (vm_compute; reflexivity);
    assert (H31 : 2 < 2 ^ 31) by lia;
    assert (H63 : 2 ≤ GoInt.int_max) by (unfold GoInt.int_max; lia);
    destruct (counter_final_value 2 2 _ s 4 H31 H63 Hrun eq_refl)
      as (_ & _ & Hfin & _)
  end.
  exact Hfin.
Defined.

(** X16.  The counter program never deadlocks: every execution takes at
    most (4 K + 4) G + 5 steps, an execution in which no goroutine can move
    has printed the final value, and there is an execution that does so:
    [wg.Wait()] always returns. *)
Theorem counter_terminates (G K : Z) :
  G < 2 ^ 31 → K ≤ GoInt.int_max →
  (∀ sched s, Counter.run G K sched Counter.state_init = Some s →
     Z.of_nat (length sched) ≤ (4 * Z.max K 0 + 4) * Z.max G 0 + 5
     ∧ (Counter.stuck G K s →
        Counter.pc s = Counter.MDone
        ∧ Counter.final s = Some (GoInt.wrap (Z.max G 0 * Z.max K 0))))
  ∧ ∃ sched s, Counter.run G K sched Counter.state_init = Some s
               ∧ Counter.stuck G K s.
Proof.
  intros HG HK.
  pose proof (CounterProofs.counter_inv_init G K) as H0.
  split.
  - intros sched s Hrun.
    pose proof (CounterProofs.counter_run_reachable G K _ _ _
                  (Counter.reach_init G K) Hrun) as Hr.
    pose proof (CounterProofs.counter_inv_reachable G K HG HK s Hr) as HI.
    pose proof (CounterProofs.counter_run_length G K HG HK _ _ _ H0 Hrun) as Hlen.
    pose proof (CounterProofs.counter_measure_nonneg G K s HI) as Hm.
    split.
    + unfold Counter.measure in Hlen at 2. simpl in Hlen.
      rewrite CounterProofs.total_nil in Hlen.
      replace (G - 0) with G in Hlen by lia. lia.
    + intros Hst.
      pose proof (CounterProofs.counter_stuck_done G K HG s HI Hst) as Hd.
      split; [done|]. by destruct (CounterProofs.counter_done G K s HI Hd).
  - set (fuel := Z.to_nat (Counter.measure G K Counter.state_init)).
    destruct (CounterProofs.counter_run_first_stuck G K HG HK fuel _ H0)
      as [Hst [sched Hrun]].
    + pose proof (CounterProofs.counter_measure_nonneg G K _ H0). unfold fuel. lia.
    + by exists sched, (Counter.run_first G K fuel Counter.state_init).
Qed.

Lemma counter_terminates_witness :
  Counter.pc (Counter.run_first 10 100 4045 Counter.state_init) = Counter.MDone
  ∧ Counter.final (Counter.run_first 10 100 4045 Counter.state_init) = Some 1000
  ∧ ∃ sched s, Counter.run 10 100 sched Counter.state_init = Some s
               ∧ Counter.stuck 10 100 s.
Proof.
  split; [vm_compute; reflexivity|]. split; [vm_compute; reflexivity|].
  assert (H31 : 10 < 2 ^ 31) by lia.
  assert (H63 : 100 ≤ GoInt.int_max) by (unfold GoInt.int_max; lia).
  exact (proj2 (counter_terminates 10 100 H31 H63)).
Defined.

(** ** The concurrency lesson: cancellation *)

(** X17.  What [demonstrateContext] prints, under any schedule: while the
    operation is in its loop, the steps 1..i and nothing else; once the
    function has returned, the steps 1..k for some k, then either that the
    operation was cancelled (k is then below the number of steps and
    [cancel] is closed) or that it completed (k is then the number of
    steps), then its own last line.  The operation sends on [done] once, as
    it returns, and no step panics: [cancel] is closed at most once. *)
Theorem context_output_shape
    (steps : Z) (sched : list goroutine) (s : Context.context) :
  steps ≤ GoInt.int_max →
  Context.run steps sched Context.context_init = Some s →
  (∀ g, Context.step steps g s ≠ Panic)
  ∧ (∀ i, Context.op s = Context.OLoop i →
          0 ≤ i ≤ Z.max steps 0 ∧ Context.output s = Context.workings i)
  ∧ (Context.pc s = Context.MDone →
     ∃ k, 0 ≤ k ≤ Z.max steps 0
          ∧ ((Context.output s
              = Context.workings k ++ [Context.Cancelled; Context.Finished]
              ∧ k < steps ∧ chan_closed (Context.cancel s) = true)
             ∨ (Context.output s
                = Context.workings k ++ [Context.Completed; Context.Finished]
                ∧ k = Z.max steps 0)))
  ∧ chan_log (Context.done s)
    = (if decide (Context.op s = Context.OExit)
       then [(Context.Operation, OpSend 1); (Main, OpRecv 1)] else [])
  ∧ closes (chan_log (Context.cancel s))
    = (if chan_closed (Context.cancel s) then [Context.Canceller] else []).
Proof.
  intros Hs Hrun.
  pose proof (ContextProofs.context_run_reachable steps _ _ _
                (Context.reach_init steps) Hrun) as Hr.
  pose proof (ContextProofs.context_inv_reachable steps Hs s Hr) as HI.
  pose proof (Context.inv_op _ _ HI) as Hop.
  split; [intros g; by apply ContextProofs.context_no_panic|].
  split; [|split; [|split]].
  - intros i Hi. rewrite Hi in Hop. tauto.
  - intros Hd. destruct (Context.op s); simpl in Hop.
    { destruct Hop as (_ & _ & ?). congruence. }
    { destruct Hop as (_ & ?). congruence. }
    rewrite Hd in Hop. destruct Hop as (o & Ho & k & Hk & Hend).
    exists k. split; [done|]. rewrite Ho.
    destruct Hend as [(-> & ? & ?)|(-> & ?)]; [left|right];
      by rewrite <-(assoc_L (++)).
  - rewrite (Context.inv_done_log _ _ HI). by destruct (Context.op s).
  - rewrite <-ConcurrencyFacts.closes_writes, (Context.inv_cancel_log _ _ HI).
    by destruct (chan_closed _).
Qed.

Lemma context_output_shape_witness :
  ∃ s, Context.run 10
         [Context.Operation; Context.Operation; Context.Canceller;
          Context.Operation; Context.Operation; Main]
         Context.context_init = Some s
       ∧ Context.output s
         = [Context.Working 1; Context.Working 2; Context.Cancelled; Context.Finished]
       ∧ ∀ g, Context.step 10 g s ≠ Panic.
Proof.
  eexists. split; [vm_compute; reflexivity|]. split; [reflexivity|].
  match goal with |- ∀ g, Context.step 10 g ?s ≠ Panic =>
    assert (Hrun : Context.run 10
         [Context.Operation; Context.Operation; Context.Canceller;
          Context.Operation; Context.Operation; Main]
         Context.context_init = Some s) by (vm_compute; reflexivity);
    assert (H63 : 10 ≤ GoInt.int_max) by (unfold GoInt.int_max; lia);
    destruct (context_output_shape 10 _ s H63 Hrun) as (Hp & _)
  end.
  exact Hp.
Defined.

(** X18.  Cancellation takes effect at the next [select]: from a state in
    which [cancel] is closed, whatever runs afterwards, the channel stays
    closed and the operation prints at most one further "Working... step"
    line, namely the line of a [default] branch it had already entered when
    the channel was closed; where it had entered none, it prints no further
    such line. *)
Theorem cancel_stops_work
    (steps : Z) (sched : list goroutine) (s s' : ContextSteps.context) :
  chan_closed (ContextSteps.cancel s) = true →
  ContextSteps.run steps sched s = Some s' →
  chan_closed (ContextSteps.cancel s') = true
  ∧ ContextSteps.worked s' ++ ContextSteps.pending (ContextSteps.op s')
    = ContextSteps.worked s ++ ContextSteps.pending (ContextSteps.op s)
  ∧ (length (ContextSteps.worked s')
     ≤ length (ContextSteps.worked s)
       + length (ContextSteps.pending (ContextSteps.op s)))%nat
  ∧ ((∀ i, ContextSteps.op s ≠ ContextSteps.OWork i) →
     ContextSteps.worked s' = ContextSteps.worked s).
Proof.
  intros Hcl Hrun.
  destruct (ContextStepsProofs.closed_run _ _ _ _ Hrun Hcl) as [Hcl' Heq].
  split; [done|]. split; [done|]. split.
  - apply (f_equal length) in Heq. rewrite !length_app in Heq. lia.
  - intros Hop.
    assert (ContextSteps.pending (ContextSteps.op s) = []) as Hnone.
    { destruct (ContextSteps.op s) as [i|i| | |]; try done. by destruct (Hop i). }
    rewrite Hnone, app_nil_r in Heq.
    destruct (ContextStepsProofs.output_run _ _ _ _ Hrun) as [more Hmore].
    unfold ContextSteps.worked in *. rewrite Hmore, filter_app in Heq |- *.
    rewrite <-(assoc_L (++)) in Heq.
    rewrite <-(app_nil_r (filter _ (ContextSteps.output s))) in Heq at 2.
    apply app_inv_head in Heq. apply app_eq_nil in Heq as [-> _].
    by rewrite app_nil_r.
Qed.

Lemma cancel_stops_work_witness :
  ∃ s s', ContextSteps.run 10 [Context.Operation; Context.Canceller]
            ContextSteps.context_init = Some s
          ∧ ContextSteps.run 10
              [Context.Operation; Context.Operation; Context.Operation;
               Context.Operation; Main] s = Some s'
          ∧ chan_closed (ContextSteps.cancel s) = true
          ∧ ContextSteps.output s = []
          ∧ ContextSteps.output s'
            = [Context.Working 1; Context.Cancelled; Context.Finished]
          ∧ (length (ContextSteps.worked s')
             ≤ length (ContextSteps.worked s)
               + length (ContextSteps.pending (ContextSteps.op s)))%nat.
Proof.
  eexists. eexists. split; [vm_compute; reflexivity|].
  split; [vm_compute; reflexivity|]. split; [reflexivity|].
  split; [reflexivity|]. split; [reflexivity|].
  match goal with
  |- (length (ContextSteps.worked ?s') ≤ length (ContextSteps.worked ?s) + _)%nat =>
    assert (Hrun : ContextSteps.run 10
              [Context.Operation; Context.Operation; Context.Operation;
               Context.Operation; Main] s = Some s') by (vm_compute; reflexivity);
    destruct (cancel_stops_work 10 _ s s' eq_refl Hrun) as (_ & _ & Hle & _)
  end.
  exact Hle.
Defined.

(** X19.  [demonstrateContext] always returns: every execution takes at
    most steps + 4 steps, and when no goroutine can move the function has
    printed its last line and both goroutines have returned. *)
Theorem context_terminates
    (steps : Z) (sched : list goroutine) (s : Context.context) :
  steps ≤ GoInt.int_max →
  Context.run steps sched Context.context_init = Some s →
  Z.of_nat (length sched) ≤ Z.max steps 0 + 4
  ∧ (Context.stuck steps s →
     Context.pc s = Context.MDone ∧ Context.op s = Context.OExit
     ∧ Context.canceller s = Context.CExit
     ∧ ∃ o, Context.output s = o ++ [Context.Finished]).
Proof.
  intros Hs Hrun.
  pose proof (ContextProofs.context_run_reachable steps _ _ _
                (Context.reach_init steps) Hrun) as Hr.
  pose proof (ContextProofs.context_inv_reachable steps Hs s Hr) as HI.
  pose proof (ContextProofs.context_inv_init steps) as H0.
  pose proof (ContextProofs.context_run_length steps Hs _ _ _ H0 Hrun) as Hlen.
  pose proof (ContextProofs.context_measure_nonneg steps s) as Hm.
  split.
  - unfold Context.measure in Hlen at 2. simpl in Hlen.
    replace (steps - 0) with steps in Hlen by lia. lia.
  - intros Hst.
    destruct (ContextProofs.context_stuck_done steps s HI Hst) as (Hd & Ho & Hc).
    split; [done|]. split; [done|]. split; [done|].
    pose proof (Context.inv_op _ _ HI) as Hop. rewrite Ho, Hd in Hop.
    destruct Hop as (o & -> & _). by exists o.
Qed.

Lemma context_terminates_witness :
  ∃ s, Context.run 1
         [Context.Operation; Context.Operation; Context.Operation; Main;
          Context.Canceller]
         Context.context_init = Some s
       ∧ Context.output s
         = [Context.Working 1; Context.Completed; Context.Finished]
       ∧ (5 ≤ Z.max 1 0 + 4).
Proof.
  eexists. split; [vm_compute; reflexivity|]. split; [reflexivity|].
  match goal with |- _ ≤ _ =>
    assert (H63 : 1 ≤ GoInt.int_max) by (unfold GoInt.int_max; lia);
    assert (Hrun : Context.run 1
         [Context.Operation; Context.Operation; Context.Operation; Main;
          Context.Canceller]
         Context.context_init
       = Some (Context.MkContext
                 (Chan 0 [] true [(Context.Canceller, OpClose)])
                 (Chan 0 [] false [(Context.Operation, OpSend 1); (Main, OpRecv 1)])
                 Context.OExit Context.CExit Context.MDone
                 [Context.Working 1; Context.Completed; Context.Finished]))
      by (vm_compute; reflexivity);
    destruct (context_terminates 1 _ _ H63 Hrun) as (Hlen & _)
  end.
  exact Hlen.
Defined.

(** X20.  How many steps are printed is up to the scheduler: for every k
    from 0 up to the number of steps there is a complete execution that
    prints exactly the steps 1..k before the operation ends, cancelled when
    k is below the number of steps and completed when k is that number. *)
Theorem context_any_count (steps k : Z) :
  steps ≤ GoInt.int_max → 0 ≤ k ≤ steps →
  ∃ sched s,
    Context.run steps sched Context.context_init = Some s
    ∧ Context.stuck steps s
    ∧ Context.output s
      = Context.workings k
        ++ [if decide (k < steps) then Context.Cancelled else Context.Completed;
            Context.Finished].
Proof.
  intros Hs Hk.
  pose proof (ContextProofs.run_working steps (Z.to_nat k) Hs) as Hw.
  rewrite Z2Nat.id in Hw by lia. specialize (Hw ltac:(lia)).
  destruct (decide (k < steps)) as [Hlt|Hge].
  - eexists (replicate (Z.to_nat k) Context.Operation
             ++ [Context.Canceller; Context.Operation; Context.Operation; Main]), _.
    rewrite ContextProofs.context_run_app, Hw. simpl.
    unfold Context.step_canceller, Context.step_operation, Context.step_main; simpl.
    rewrite decide_True by lia. simpl.
    split; [reflexivity|]. split.
    + intros g. by destruct g as [|[|[|?]]| |].
    + by rewrite <-(assoc_L (++)).
  - eexists (replicate (Z.to_nat k) Context.Operation
             ++ [Context.Operation; Context.Operation; Main; Context.Canceller]), _.
    rewrite ContextProofs.context_run_app, Hw. simpl.
    unfold Context.step_canceller, Context.step_operation, Context.step_main; simpl.
    rewrite decide_False by lia. simpl.
    split; [reflexivity|]. split.
    + intros g. by destruct g as [|[|[|?]]| |].
    + by rewrite <-(assoc_L (++)).
Qed.

Lemma context_any_count_witness :
  ∃ sched s,
    Context.run 10 sched Context.context_init = Some s
    ∧ Context.stuck 10 s
    ∧ Context.output s
      = Context.workings 7
        ++ [if decide (7 < 10) then Context.Cancelled else Context.Completed;
            Context.Finished].
Proof.
  assert (H63 : 10 ≤ GoInt.int_max) by (unfold GoInt.int_max; lia).
  assert (H7 : 0 ≤ 7 ≤ 10) by lia.
  exact (context_any_count 10 7 H63 H7).
Defined.

(** ** The REST lesson: what is validated *)

(** X21.  Only [createUser] validates.  The users of [initializeData]
    would pass [validateCreateUserRequest], and from a store all of whose
    users would, [createUser] and [deleteUser] lead to such a store again;
    [updateUser] does not: whenever the fields of the stored user
    overwritten by the request would fail the validation (an empty name, an
    email without ["@"], an age outside 0..150), it still answers 200 and
    stores them. *)
Theorem updateUser_skips_validation
    (unmarshalCreate : list Byte.byte → option Rest.CreateUserRequest)
    (unmarshalUpdate : list Byte.byte → option Rest.UpdateUserRequest)
    (st : Rest.store) (r : Rest.request) (userID now t1 t2 t3 t4 : Z)
    (u : Rest.User) (body : list Byte.byte) (req : Rest.UpdateUserRequest) :
  Validity.store_valid st →
  Validity.store_valid (Rest.initializeData Rest.store_init t1 t2 t3 t4)
  ∧ Validity.store_valid (Rest.createUser unmarshalCreate st r now).2
  ∧ Validity.store_valid (Rest.deleteUser st userID).2
  ∧ (Rest.users st !! userID = Some u → Rest.Body r = Some body →
     unmarshalUpdate body = Some req →
     Rest.validateCreateUserRequest (Validity.overwritten u req) ≠ [] →
     Rest.statusCode (Rest.updateUser unmarshalUpdate st r userID now).1
     = Rest.StatusOK
     ∧ (∃ u', Rest.users (Rest.updateUser unmarshalUpdate st r userID now).2
              !! userID = Some u'
              ∧ Validity.as_request u' = Validity.overwritten u req)
     ∧ ¬ Validity.store_valid (Rest.updateUser unmarshalUpdate st r userID now).2).
Proof.
  intros Hst. split; [|split; [|split]].
  - intros k v. unfold Rest.initializeData, Rest.store_init.
    cbn [Rest.users]. intros Hk.
    apply lookup_insert_Some in Hk as [[_ <-]|[_ Hk]]; [by vm_compute|].
    apply lookup_insert_Some in Hk as [[_ <-]|[_ Hk]]; [by vm_compute|].
    by rewrite lookup_empty in Hk.
  - unfold Rest.createUser. destruct (Rest.Body r) as [b|]; [|done].
    destruct (unmarshalCreate b) as [cr|]; [|done]. simpl.
    case_decide as Herr; [done|]. intros k v Hk. simpl in Hk.
    apply lookup_insert_Some in Hk as [[_ <-]|[_ Hk]]; [|by eapply Hst].
    unfold Validity.as_request. simpl.
    destruct cr as [nm em ag]. simpl in *.
    destruct (Rest.validateCreateUserRequest _); [done|simpl in Herr; lia].
  - unfold Rest.deleteUser. destruct (Rest.users st !! userID); [|done].
    intros k v Hk. simpl in Hk.
    apply lookup_delete_Some in Hk as [_ Hk]. by eapply Hst.
  - intros Hu Hb Hreq Hbad. unfold Rest.updateUser. rewrite Hu, Hb, Hreq.
    cbn [fst snd Rest.statusCode Rest.respondWithJSON Rest.users].
    split; [done|].
    assert (∀ u', <[userID := u']> (Rest.users st) !! userID = Some u') as Hins
      by (intros u'; apply lookup_insert_eq).
    split.
    + eexists. split; [apply Hins|].
      unfold Validity.overwritten, Validity.as_request.
      by destruct (Rest.update_Name req), (Rest.update_Email req),
                  (Rest.update_Age req).
    + intros Hval. apply Hbad. erewrite <-(Hval userID); [|apply Hins].
      unfold Validity.overwritten, Validity.as_request.
      by destruct (Rest.update_Name req), (Rest.update_Email req),
                  (Rest.update_Age req).
Qed.

Lemma updateUser_skips_validation_witness :
  Rest.statusCode
    (Rest.updateUser
       (λ _, Some (Rest.MkUpdateUserRequest None None (Some 200)))
       (Rest.MkStore
          {[ 1 := Rest.MkUser 1 (Rest.runes "John Doe")
                    (Rest.runes "john@example.com") 25 0 0 ]} 2)
       (Rest.MkRequest (Some [])) 1 7).1
  = Rest.StatusOK
  ∧ ¬ Validity.store_valid
        (Rest.updateUser
           (λ _, Some (Rest.MkUpdateUserRequest None None (Some 200)))
           (Rest.MkStore
              {[ 1 := Rest.MkUser 1 (Rest.runes "John Doe")
                        (Rest.runes "john@example.com") 25 0 0 ]} 2)
           (Rest.MkRequest (Some [])) 1 7).2.
Proof.
  assert (Hst : Validity.store_valid
                  (Rest.MkStore
                     {[ 1 := Rest.MkUser 1 (Rest.runes "John Doe")
                               (Rest.runes "john@example.com") 25 0 0 ]} 2)).
  { intros k v Hk. simpl in Hk. apply lookup_singleton_Some in Hk as [_ <-].
    by vm_compute. }
  destruct (updateUser_skips_validation
              (λ _, None)
              (λ _, Some (Rest.MkUpdateUserRequest None None (Some 200)))
              _ (Rest.MkRequest (Some [])) 1 7 0 0 0 0
              (Rest.MkUser 1 (Rest.runes "John Doe")
                 (Rest.runes "john@example.com") 25 0 0)
              [] (Rest.MkUpdateUserRequest None None (Some 200)) Hst)
    as (_ & _ & _ & Hupd).
  destruct Hupd as (Hcode & _ & Hbad).
  - apply lookup_singleton_eq.
  - reflexivity.
  - reflexivity.
  - by vm_compute.
  - split; [exact Hcode|exact Hbad].
Defined.

(** ** Lesson 03: integer division, summation and the factorial *)

(** X22.  [divide] truncates toward zero: on a zero divisor it panics;
    otherwise the quotient and the remainder are [int]s, the remainder is
    smaller in magnitude than the divisor and is zero or has the sign of
    the dividend, and quotient times divisor plus remainder is the dividend
    with the quotient no larger in magnitude than the dividend, except for
    the smallest [int] divided by -1, where the quotient wraps around to
    the smallest [int] itself (the remainder being 0). *)
Theorem divide_truncates (dividend divisor : Z) :
  GoInt.in_range dividend → GoInt.in_range divisor →
  (divisor = 0 → Functions.divide dividend divisor = None)
  ∧ (divisor ≠ 0 →
     ∃ q r, Functions.divide dividend divisor = Some (q, r)
            ∧ GoInt.in_range q ∧ Z.abs r < Z.abs divisor ∧ 0 ≤ r * dividend
            ∧ GoInt.wrap (q * divisor + r) = dividend
            ∧ (dividend = GoInt.int_min → divisor = -1 →
               q = GoInt.int_min ∧ r = 0)
            ∧ (¬ (dividend = GoInt.int_min ∧ divisor = -1) →
               q * divisor + r = dividend ∧ Z.abs q ≤ Z.abs dividend)).
Proof.
  intros Ha Hb. unfold Functions.divide, Functions.quo, Functions.rem. split.
  - intros ->. done.
  - intros Hb0. rewrite !decide_False by done. simpl.
    eexists _, _. split; [reflexivity|].
    split; [apply GoIntFacts.wrap_in_range|].
    split; [by apply Z.rem_bound_abs|].
    split; [by apply Z.rem_sign_mul|].
    pose proof (Z.quot_rem' dividend divisor) as Hqr.
    destruct (decide (dividend = GoInt.int_min ∧ divisor = -1)) as [[-> ->]|Hnov].
    + split; [by vm_compute|]. split; [intros _ _; by vm_compute|]. by intros [].
    + destruct (FunctionsProofs.quot_in_range _ _ Ha Hb Hb0 Hnov) as [Hq Habs].
      rewrite (GoIntFacts.wrap_small _ Hq).
      split; [rewrite GoIntFacts.wrap_small; [lia|]; by replace
                (dividend ÷ divisor * divisor + Z.rem dividend divisor)
                with dividend by lia|].
      split; [intros ??; by destruct Hnov|]. intros _. split; [lia|done].
Qed.

Lemma divide_truncates_witness :
  Functions.divide 17 5 = Some (3, 2)
  ∧ Functions.divide (-17) 5 = Some (-3, -2)
  ∧ Functions.divide GoInt.int_min (-1) = Some (GoInt.int_min, 0)
  ∧ Functions.divide 17 0 = None
  ∧ ∃ q r, Functions.divide (-17) 5 = Some (q, r)
           ∧ Z.abs r < Z.abs 5 ∧ q * 5 + r = -17.
Proof.
  split; [reflexivity|]. split; [reflexivity|]. split; [reflexivity|].
  split; [reflexivity|].
  assert (H1 : GoInt.in_range (-17))
    by (unfold GoInt.in_range, GoInt.int_min, GoInt.int_max; lia).
  assert (H2 : GoInt.in_range 5)
    by (unfold GoInt.in_range, GoInt.int_min, GoInt.int_max; lia).
  assert (H3 : 5 ≠ 0) by lia.
  assert (H4 : ¬ (-17 = GoInt.int_min ∧ 5 = -1)) by (intros [_ ?]; lia).
  destruct (proj2 (divide_truncates (-17) 5 H1 H2) H3)
    as (q & r & Hd & _ & Hr & _ & _ & _ & Hex).
  exists q, r. split; [exact Hd|]. split; [exact Hr|]. exact (proj1 (Hex H4)).
Defined.

(** X23.  [sum] does not depend on the order of its arguments, even when
    the running total overflows on the way: it is the exact sum wrapped to
    an [int] (so exact whenever the exact sum is an [int]), permuting the
    arguments leaves it unchanged, and the sum of two lists put together is
    the [int] sum of their sums. *)
Theorem sum_order_insensitive (numbers other : list Z) :
  numbers ≡ₚ other →
  Functions.sum numbers = Functions.sum other
  ∧ Functions.sum numbers = GoInt.wrap (sumZ numbers)
  ∧ (GoInt.in_range (sumZ numbers) → Functions.sum numbers = sumZ numbers)
  ∧ ∀ more, Functions.sum (numbers ++ more)
            = GoInt.add (Functions.sum numbers) (Functions.sum more).
Proof.
  intros Hperm. rewrite !FunctionsProofs.sum_wrap.
  split; [by rewrite (sumZ_Permutation _ _ Hperm)|]. split; [done|].
  split; [apply GoIntFacts.wrap_small|].
  intros more. rewrite !FunctionsProofs.sum_wrap, FunctionsProofs.sumZ_app.
  unfold GoInt.add. rewrite FunctionsProofs.wrap_add_l.
  rewrite (Z.add_comm (sumZ numbers)), <-(FunctionsProofs.wrap_add_l (sumZ more)).
  f_equal. lia.
Qed.

Lemma sum_order_insensitive_witness :
  Functions.sum [GoInt.int_max; 1] = GoInt.int_min
  ∧ Functions.sum [GoInt.int_max; 1; -1] = GoInt.int_max
  ∧ Functions.sum [GoInt.int_max; 1; -1] = Functions.sum [1; -1; GoInt.int_max].
Proof.
  split; [reflexivity|]. split; [reflexivity|].
  assert (Hp : [GoInt.int_max; 1; -1] ≡ₚ [1; -1; GoInt.int_max]).
  { change [GoInt.int_max; 1; -1] with ([GoInt.int_max] ++ [1; -1]).
    change [1; -1; GoInt.int_max] with ([1; -1] ++ [GoInt.int_max]).
    apply Permutation_app_comm. }
  exact (proj1 (sum_order_insensitive _ _ Hp)).
Defined.

(** X24.  [factorial] on an [int] n returns after n nested calls (one call
    for n ≤ 1, where the result is 1, also for negative n) and not with
    fewer; its result is the product 1·2·…·n wrapped to an [int]: the exact
    factorial precisely for n ≤ 20, and 0 for every n from 66 on. *)
Theorem factorial_wraps (depth : nat) (n : Z) :
  GoInt.in_range n →
  ((depth < Z.to_nat n)%nat → Functions.factorial depth n = None)
  ∧ ((1 ≤ depth)%nat → (Z.to_nat n ≤ depth)%nat →
     ∃ r, Functions.factorial depth n = Some r
          ∧ r = GoInt.wrap (Functions.prodZ (seqZ 1 n))
          ∧ (n ≤ 1 → r = 1)
          ∧ (n ≤ 20 ↔ r = Functions.prodZ (seqZ 1 n))
          ∧ (66 ≤ n → r = 0)).
Proof.
  intros Hn. split; [by apply FunctionsProofs.factorial_shallow|].
  intros H1 Hd. eexists. split; [by apply FunctionsProofs.factorial_spec|].
  split; [done|]. split; [|split].
  - intros Hle. destruct (decide (n = 1)) as [->|]; [done|].
    by rewrite seqZ_nil by lia.
  - split.
    + intros H20. by apply GoIntFacts.wrap_small, FunctionsProofs.factorial_fits.
    + intros Heq. destruct (decide (n ≤ 20)) as [|Hgt]; [done|].
      pose proof (FunctionsProofs.factorial_exceeds n ltac:(lia)) as Hbig.
      pose proof (GoIntFacts.wrap_in_range (Functions.prodZ (seqZ 1 n))) as Hr.
      rewrite Heq in Hr. unfold GoInt.in_range in Hr. lia.
  - apply FunctionsProofs.factorial_vanishes.
Qed.

Lemma factorial_wraps_witness :
  Functions.factorial 20 20 = Some 2432902008176640000
  ∧ Functions.factorial 21 21 = Some (-4249290049419214848)
  ∧ Functions.factorial 65 65 = Some GoInt.int_min
  ∧ Functions.factorial 66 66 = Some 0
  ∧ Functions.factorial 4 5 = None
  ∧ ∃ r, Functions.factorial 5 5 = Some r ∧ r = 120.
Proof.
  split; [by vm_compute|]. split; [by vm_compute|]. split; [by vm_compute|].
  split; [by vm_compute|]. split; [by vm_compute|].
  assert (H5 : GoInt.in_range 5)
    by (unfold GoInt.in_range, GoInt.int_min, GoInt.int_max; lia).
  assert (Hd1 : (1 ≤ 5)%nat) by lia.
  assert (Hd2 : (Z.to_nat 5 ≤ 5)%nat) by lia.
  destruct (proj2 (factorial_wraps 5 5 H5) Hd1 Hd2) as (r & Hr & Hv & _).
  exists r. split; [exact Hr|]. rewrite Hv. reflexivity.
Defined.
